(** * IRL-Subtitles: the acoustic direction-of-arrival pipeline and the
      double-buffered broadcast server

    Shallow embedding of
    - [ODAS-Boards/main/pi-four-mic-streamV2.py] (producer [process_audio_buffers],
      reader [AudioStreamHandler.do_GET]), and
    - [Firmware/Arm Board/ESP32_Arm_Boards_AP/sound-direction-finder-2d-v4.py]
      ([read_audio_stream], [parse_audio_data], [is_sound_active],
      [compute_cross_correlation], [estimate_tdoa], [tdoa_to_direction],
      [apply_bandpass_filter], [calculate_angle], [audio_processor_thread],
      [update_visualization]).

    Conventions.  Python [float]/numpy [float64] values are idealised as real
    numbers ([R]); numpy's 16-bit samples are integers ([Z]); byte strings are
    [list byte]; a Python exception is a value of [result]; module-level
    globals and thread-local variables are fields of explicit state records
    that keep the names of the source. *)

From Stdlib Require Import List ZArith Lia Bool Reals Lra.
From Stdlib.Strings Require Import Byte.
Import ListNotations.

Set Implicit Arguments.
#[local] Set Warnings "-abstract-large-number".

(* ================================================================== *)
(** * Part I: definitions                                              *)
(* ================================================================== *)

(** ** Python exceptions *)

Inductive exn : Type :=
| ValueError        (* numpy shape / buffer-size errors *)
| IndexError        (* list index out of range *)
| QueueFull         (* queue.Full *)
| QueueEmpty        (* queue.Empty *)
| RequestException  (* requests.exceptions.RequestException, socket.error *)
| OtherError.       (* any other subclass of Exception *)

Inductive result (A : Type) : Type :=
| Ok (a : A)
| Raise (e : exn).

Arguments Ok {A} a.
Arguments Raise {A} e.

Definition bind {A B : Type} (r : result A) (k : A -> result B) : result B :=
  match r with
  | Ok a => k a
  | Raise e => Raise e
  end.

Notation "x <- r ;; k" := (bind r (fun x => k))
  (at level 61, r at next level, right associativity).

(** [try: body  except Exception: return handler] *)
Definition try_except {A : Type} (body : result A) (handler : A) : A :=
  match body with
  | Ok a => a
  | Raise _ => handler
  end.

(** ** Python sequences: slices with non-negative bounds *)

(** [l[i:j]] *)
Definition slice {A : Type} (l : list A) (i j : nat) : list A :=
  firstn (j - i) (skipn i l).

(** [l[i:j] = v] on a [bytearray]: the slice is replaced by [v], whatever the
    length of [v] (the array shrinks or grows). *)
Definition slice_assign {A : Type} (l : list A) (i j : nat) (v : list A) : list A :=
  firstn i l ++ v ++ skipn (Nat.max i j) l.

(* ------------------------------------------------------------------ *)
(** ** BroadcastBuffer: [pi-four-mic-streamV2.py]                      *)
(* ------------------------------------------------------------------ *)

Definition DEFAULT_BUFFER_SIZE : nat := Z.to_nat 16384.

(** The module-level globals of the streaming server. *)
Record BroadcastBuffer : Type := mkBroadcast {
  audio_buffer_a : list byte;
  audio_buffer_b : list byte;
  buffer_a_pos : nat;
  buffer_b_pos : nat;
  buffer_sel : bool
}.

(** Lines 22-26: two zeroed bytearrays of [DEFAULT_BUFFER_SIZE * 2] bytes,
    both cursors at 0, buffer A selected for filling. *)
Definition broadcast_init : BroadcastBuffer :=
  {| audio_buffer_a := repeat x00 (DEFAULT_BUFFER_SIZE * 2);
     audio_buffer_b := repeat x00 (DEFAULT_BUFFER_SIZE * 2);
     buffer_a_pos := 0;
     buffer_b_pos := 0;
     buffer_sel := true |}.

(** Lines 155-203 of [process_audio_buffers]: one write of
    [interleaved_bytes] into the buffer selected by [buffer_sel].
    Cursors are naturals: on every reachable state the cursor is at most the
    length of its buffer (lemma [write_keeps_inv]), so [space_left] never
    becomes negative. *)
Definition write_buffers (st : BroadcastBuffer) (interleaved_bytes : list byte)
  : BroadcastBuffer :=
  let bytes_to_write := length interleaved_bytes in
  if buffer_sel st then
    (* Write to buffer A *)
    let space_left := length (audio_buffer_a st) - buffer_a_pos st in
    if bytes_to_write <=? space_left then
      let a := slice_assign (audio_buffer_a st) (buffer_a_pos st)
                 (buffer_a_pos st + bytes_to_write) interleaved_bytes in
      let pos := buffer_a_pos st + bytes_to_write in
      if length a <=? pos then
        mkBroadcast a (audio_buffer_b st) 0 (buffer_b_pos st) false
      else
        mkBroadcast a (audio_buffer_b st) pos (buffer_b_pos st) true
    else
      let a := slice_assign (audio_buffer_a st) (buffer_a_pos st)
                 (length (audio_buffer_a st)) (slice interleaved_bytes 0 space_left) in
      let remaining := bytes_to_write - space_left in
      if 0 <? remaining then
        mkBroadcast a
          (slice_assign (audio_buffer_b st) 0 remaining
             (slice interleaved_bytes space_left bytes_to_write))
          0 remaining false
      else
        mkBroadcast a (audio_buffer_b st) 0 (buffer_b_pos st) false
  else
    (* Write to buffer B *)
    let space_left := length (audio_buffer_b st) - buffer_b_pos st in
    if bytes_to_write <=? space_left then
      let b := slice_assign (audio_buffer_b st) (buffer_b_pos st)
                 (buffer_b_pos st + bytes_to_write) interleaved_bytes in
      let pos := buffer_b_pos st + bytes_to_write in
      if length b <=? pos then
        mkBroadcast (audio_buffer_a st) b (buffer_a_pos st) 0 true
      else
        mkBroadcast (audio_buffer_a st) b (buffer_a_pos st) pos false
    else
      let b := slice_assign (audio_buffer_b st) (buffer_b_pos st)
                 (length (audio_buffer_b st)) (slice interleaved_bytes 0 space_left) in
      let remaining := bytes_to_write - space_left in
      if 0 <? remaining then
        mkBroadcast
          (slice_assign (audio_buffer_a st) 0 remaining
             (slice interleaved_bytes space_left bytes_to_write))
          b remaining 0 true
      else
        mkBroadcast (audio_buffer_a st) b (buffer_a_pos st) 0 true.

(** The buffer the producer is filling, its cursor, and the other buffer. *)
Definition fill_buffer (st : BroadcastBuffer) : list byte :=
  if buffer_sel st then audio_buffer_a st else audio_buffer_b st.

Definition fill_pos (st : BroadcastBuffer) : nat :=
  if buffer_sel st then buffer_a_pos st else buffer_b_pos st.

Definition idle_buffer (st : BroadcastBuffer) : list byte :=
  if buffer_sel st then audio_buffer_b st else audio_buffer_a st.

Definition idle_pos (st : BroadcastBuffer) : nat :=
  if buffer_sel st then buffer_b_pos st else buffer_a_pos st.

(** Bytes written since the last flip and not yet handed to readers. *)
Definition pending (st : BroadcastBuffer) : list byte :=
  firstn (fill_pos st) (fill_buffer st).

(** The local variables of one [do_GET] request on [/ach1]; [wfile] is
    everything written to the client after the headers. *)
Record Reader : Type := mkReader {
  client_buffer_sel : bool;
  last_buffer_sel : bool;
  wfile : list byte
}.

(** Lines 225-226. *)
Definition do_GET_connect (st : BroadcastBuffer) : Reader :=
  {| client_buffer_sel := negb (buffer_sel st);
     last_buffer_sel := negb (buffer_sel st);
     wfile := [] |}.

(** Lines 231-243: one iteration of the [while stream_active] loop. *)
Definition do_GET_iteration (st : BroadcastBuffer) (r : Reader) : Reader :=
  let r1 :=
    if Bool.eqb (client_buffer_sel r) (last_buffer_sel r) then r
    else
      {| client_buffer_sel := client_buffer_sel r;
         last_buffer_sel := client_buffer_sel r;
         wfile := wfile r ++
                  (if client_buffer_sel r then audio_buffer_a st
                   else audio_buffer_b st) |} in
  {| client_buffer_sel := negb (buffer_sel st);
     last_buffer_sel := last_buffer_sel r1;
     wfile := wfile r1 |}.

(** An interleaving of the producer thread and one reader thread. *)
Inductive event : Type :=
| Produce (interleaved_bytes : list byte)
| Poll.

Definition step (s : BroadcastBuffer * Reader) (e : event)
  : BroadcastBuffer * Reader :=
  match e with
  | Produce d => (write_buffers (fst s) d, snd s)
  | Poll => (fst s, do_GET_iteration (fst s) (snd s))
  end.

Definition run (sched : list event) (s : BroadcastBuffer * Reader)
  : BroadcastBuffer * Reader :=
  fold_left step sched s.

(** The reader completes two loop iterations between consecutive writes. *)
Definition paced (writes : list (list byte)) : list event :=
  flat_map (fun d => [Produce d; Poll; Poll]) writes.

(** The reader completes one loop iteration between consecutive writes. *)
Definition paced_once (writes : list (list byte)) : list event :=
  flat_map (fun d => [Produce d; Poll]) writes.

(** A counting byte pattern [k, k+1, ..., 255, 0, 1, ...] of [n] bytes. *)
Fixpoint counting_from (n : nat) (k : N) : list byte :=
  match n with
  | O => []
  | S n' =>
      match Byte.of_N (k mod 256) with
      | Some b => b
      | None => x00
      end :: counting_from n' (N.succ k)
  end.

Definition counting (n : nat) : list byte := counting_from n 0.

Fixpoint bytes_eqb (l1 l2 : list byte) : bool :=
  match l1, l2 with
  | [], [] => true
  | x :: l1', y :: l2' => Byte.eqb x y && bytes_eqb l1' l2'
  | _, _ => false
  end.

(* ------------------------------------------------------------------ *)
(** ** Bounded queues: Python's [queue.Queue(maxsize)]                 *)
(* ------------------------------------------------------------------ *)

Record Queue (A : Type) : Type := mkQueue {
  items : list A;      (* oldest first *)
  maxsize : nat
}.

Arguments mkQueue {A} items maxsize.

(** [q.put(x, block=False)]: raises [queue.Full] when [maxsize > 0] and the
    queue already holds [maxsize] items. *)
Definition put_nowait {A : Type} (q : Queue A) (x : A) : result (Queue A) :=
  if (0 <? maxsize q) && (maxsize q <=? length (items q)) then Raise QueueFull
  else Ok (mkQueue (items q ++ [x]) (maxsize q)).

(** [q.get_nowait()]: removes and returns the oldest item, or raises
    [queue.Empty]. *)
Definition get_nowait {A : Type} (q : Queue A) : result (A * Queue A) :=
  match items q with
  | [] => Raise QueueEmpty
  | x :: rest => Ok (x, mkQueue rest (maxsize q))
  end.

(** Line 48: [audio_queue = queue.Queue(maxsize=5)]. *)
Definition audio_queue : Queue (list byte) := mkQueue [] 5.

(* ------------------------------------------------------------------ *)
(** ** FrameSource: [read_audio_stream]                                *)
(* ------------------------------------------------------------------ *)

Definition CHANNELS : nat := 4.
Definition PROCESS_SIZE : nat := Z.to_nat 8192.

(** Lines 88-99: the body of [while len(buffer) >= chunk_size].  Returns the
    queue and whether the frame was accepted (the caller then advances
    [buffer] by [chunk_size]). *)
Definition enqueue_frame (q : Queue (list byte)) (frame : list byte)
  : Queue (list byte) * bool :=
  match put_nowait q frame with
  | Ok q' => (q', true)
  | Raise _ =>
      (* Queue is full, discard oldest data *)
      match get_nowait q with
      | Ok (_, q1) =>
          match put_nowait q1 frame with
          | Ok q2 => (q2, true)
          | Raise _ => (q1, false)
          end
      | Raise _ => (q, false)
      end
  end.

(** Lines 86-99.  [fuel] bounds the iterations of the [while]; every
    accepted frame shortens [buffer] by [chunk_size]. *)
Fixpoint drain_buffer (fuel : nat) (chunk_size : nat)
    (q : Queue (list byte)) (buffer : list byte)
  : Queue (list byte) * list byte :=
  match fuel with
  | O => (q, buffer)
  | S fuel' =>
      if chunk_size <=? length buffer then
        let (q', accepted) := enqueue_frame q (slice buffer 0 chunk_size) in
        drain_buffer fuel' chunk_size q'
          (if accepted then slice buffer chunk_size (length buffer) else buffer)
      else (q, buffer)
  end.

(** What one [requests.get(url, stream=True, timeout=5)] and the iteration
    over its body can do. *)
Inductive stream_end : Type :=
| Closed     (* iter_content is exhausted *)
| Broken.    (* a RequestException / socket.error is raised mid-stream *)

Inductive attempt : Type :=
| ConnectRaises                       (* refused, reset, timeout *)
| BadStatus (status_code : nat)       (* a response whose status is not 200 *)
| Streaming (chunks : list (list byte)) (e : stream_end).

(** The local variables of [read_audio_stream], the shared [stop_event] and
    [audio_queue], and two counters observing its effects: the number of
    [requests.get] calls and of [time.sleep(retry_delay)] calls. *)
Record FrameSource : Type := mkFrameSource {
  retry_count : nat;
  stop_event : bool;
  queue : Queue (list byte);
  attempts : nat;
  sleeps : nat
}.

Definition max_retries : nat := 5.

Definition frame_source_init : FrameSource :=
  mkFrameSource 0 false audio_queue 0 0.

(** Lines 101-109: the [except (RequestException, socket.error)] handler. *)
Definition on_connection_error (s : FrameSource) : FrameSource :=
  let rc := S (retry_count s) in
  if rc <? max_retries then
    mkFrameSource rc (stop_event s) (queue s) (attempts s) (S (sleeps s))
  else
    mkFrameSource rc true (queue s) (attempts s) (sleeps s).

(** Lines 79-99: the chunks of one response body. *)
Fixpoint consume_chunks (chunk_size : nat) (chunks : list (list byte))
    (q : Queue (list byte)) (buffer : list byte) : Queue (list byte) :=
  match chunks with
  | [] => q
  | chunk :: rest =>
      match chunk with
      | [] => consume_chunks chunk_size rest q buffer
      | _ =>
          let buffer1 := buffer ++ chunk in
          let (q', buffer2) :=
            drain_buffer (length buffer1) chunk_size q buffer1 in
          consume_chunks chunk_size rest q' buffer2
      end
  end.

(** Lines 67-109: one iteration of the outer [while]. *)
Definition attempt_once (chunk_size : nat) (s : FrameSource) (a : attempt)
  : FrameSource :=
  let s := mkFrameSource (retry_count s) (stop_event s) (queue s)
             (S (attempts s)) (sleeps s) in
  match a with
  | ConnectRaises => on_connection_error s
  | BadStatus _ =>
      mkFrameSource (S (retry_count s)) (stop_event s) (queue s)
        (attempts s) (S (sleeps s))
  | Streaming chunks e =>
      (* Reset retry count on successful connection *)
      let s := mkFrameSource 0 (stop_event s)
                 (consume_chunks chunk_size chunks (queue s) [])
                 (attempts s) (sleeps s) in
      match e with
      | Closed => s
      | Broken => on_connection_error s
      end
  end.

(** Line 66: [while not stop_event.is_set() and retry_count < max_retries],
    run against the outcomes the network delivers; when the loop condition
    fails the thread ends and the remaining outcomes are never requested. *)
Fixpoint read_audio_stream (chunk_size : nat) (script : list attempt)
    (s : FrameSource) : FrameSource :=
  match script with
  | [] => s
  | a :: rest =>
      if negb (stop_event s) && (retry_count s <? max_retries) then
        read_audio_stream chunk_size rest (attempt_once chunk_size s a)
      else s
  end.

(** A connection attempt that does not reach a 200 response. *)
Definition failed (a : attempt) : bool :=
  match a with
  | Streaming _ _ => false
  | _ => true
  end.

(* ------------------------------------------------------------------ *)
(** ** ChannelDemuxer: [parse_audio_data]                              *)
(* ------------------------------------------------------------------ *)

(** One little-endian two's-complement 16-bit sample. *)
Definition int16_le (lo hi : byte) : Z :=
  let u := (Z.of_N (Byte.to_N lo) + 256 * Z.of_N (Byte.to_N hi))%Z in
  if (u <? 32768)%Z then u else (u - 65536)%Z.

Fixpoint int16_samples (raw : list byte) : list Z :=
  match raw with
  | lo :: hi :: rest => int16_le lo hi :: int16_samples rest
  | _ => []
  end.

(** [np.frombuffer(raw_data, dtype=np.int16)]: the buffer size must be a
    multiple of the element size. *)
Definition frombuffer_int16 (raw_data : list byte) : result (list Z) :=
  if Nat.even (length raw_data) then Ok (int16_samples raw_data)
  else Raise ValueError.

(** Python list indexing [l[i]] for [0 <= i]. *)
Definition py_index {A : Type} (l : list A) (i : nat) : result A :=
  match nth_error l i with
  | Some x => Ok x
  | None => Raise IndexError
  end.

(** [for i in range(n): acc.append(f(i))] where [f] may raise. *)
Fixpoint for_range {A : Type} (f : nat -> result A) (start n : nat)
  : result (list A) :=
  match n with
  | O => Ok []
  | S n' =>
      x <- f start ;;
      xs <- for_range f (S start) n' ;;
      Ok (x :: xs)
  end.

(** [[np.zeros(1) for _ in range(CHANNELS)]] *)
Definition zero_channels : list (list R) := repeat [0%R] CHANNELS.

(** Column [i] of [samples.reshape(-1, CHANNELS)]. *)
Definition column (samples : list Z) (i : nat) : list Z :=
  map (fun row => nth (row * CHANNELS + i) samples 0%Z)
      (seq 0 (length samples / CHANNELS)).

(** Lines 120-137: the body of the [try]. *)
Definition parse_audio_data_body (mic_gains : list R) (raw_data : list byte)
  : result (list (list R)) :=
  samples <- frombuffer_int16 raw_data ;;
  if length samples <? CHANNELS then Ok zero_channels
  else
    let usable_samples := (length samples / CHANNELS) * CHANNELS in
    let samples := slice samples 0 usable_samples in
    for_range
      (fun i => gain <- py_index mic_gains i ;;
                Ok (map (fun s => (IZR s * gain)%R) (column samples i)))
      0 CHANNELS.

(** Lines 114-140. *)
Definition parse_audio_data (mic_gains : list R) (raw_data : list byte)
  : list (list R) :=
  try_except (parse_audio_data_body mic_gains raw_data) zero_channels.

(** Line 35. *)
Definition DEFAULT_MIC_GAINS : list R := [1%R; 1%R; 1%R; 1%R].

(** [samples.tobytes()] for 16-bit samples, little-endian. *)
Definition int16_bytes (s : Z) : list byte :=
  let u := (s mod 65536)%Z in
  let b (z : Z) := match Byte.of_N (Z.to_N z) with
                   | Some x => x
                   | None => x00
                   end in
  [b (u mod 256)%Z; b (u / 256)%Z].

Definition tobytes (samples : list Z) : list byte :=
  flat_map int16_bytes samples.

(** Operations the two threads perform on [audio_queue]: the primitive
    non-blocking put, the consumer's get, and the producer's enqueue of
    lines 88-99. *)
Inductive queue_op : Type :=
| OpPut (frame : list byte)
| OpGet
| OpEnqueue (frame : list byte).

Definition apply_op (q : Queue (list byte)) (op : queue_op) : Queue (list byte) :=
  match op with
  | OpPut frame =>
      match put_nowait q frame with
      | Ok q' => q'
      | Raise _ => q
      end
  | OpGet =>
      match get_nowait q with
      | Ok (_, q') => q'
      | Raise _ => q
      end
  | OpEnqueue frame => fst (enqueue_frame q frame)
  end.

(* ------------------------------------------------------------------ *)
(** ** Real vectors ([numpy] arrays of shape (2,))                     *)
(* ------------------------------------------------------------------ *)

Section RealModel.
Local Open Scope R_scope.

Definition vec2 : Type := (R * R)%type.

Definition vzero : vec2 := (0, 0).
Definition vadd (u v : vec2) : vec2 := (fst u + fst v, snd u + snd v).
Definition vsub (u v : vec2) : vec2 := (fst u - fst v, snd u - snd v).
Definition vscale (k : R) (v : vec2) : vec2 := (k * fst v, k * snd v).
Definition vmul_r (v : vec2) (k : R) : vec2 := (fst v * k, snd v * k).
Definition vdiv (v : vec2) (k : R) : vec2 := (fst v / k, snd v / k).

(** [np.linalg.norm] *)
Definition norm (v : vec2) : R := sqrt (fst v * fst v + snd v * snd v).

(** [x > y] *)
Definition Rgtb (x y : R) : bool := if Rgt_dec x y then true else false.

(** [x == y] *)
Definition Reqb (x y : R) : bool := if Req_dec_T x y then true else false.

(** [np.max] of an array; the empty array raises [ValueError]. *)
Definition np_max (l : list R) : result R :=
  match l with
  | [] => Raise ValueError
  | x :: rest => Ok (fold_left Rmax rest x)
  end.

(** [np.argmax] of a non-empty array: the first index holding the maximum. *)
Fixpoint argmax_from (best : R) (best_i i : nat) (l : list R) : nat :=
  match l with
  | [] => best_i
  | x :: rest =>
      if Rgtb x best then argmax_from x i (S i) rest
      else argmax_from best best_i (S i) rest
  end.

Definition np_argmax (l : list R) : result nat :=
  match l with
  | [] => Raise ValueError
  | x :: rest => Ok (argmax_from x 0%nat 1%nat rest)
  end.

(* ------------------------------------------------------------------ *)
(** ** DirectionFuser: [tdoa_to_direction]                             *)
(* ------------------------------------------------------------------ *)

(** Lines 27-32. *)
Definition MIC_POSITIONS : list (R * R * R) :=
  [ (-0.075, -0.075, 0);
    (-0.075,  0.075, 0);
    ( 0.075,  0.075, 0);
    ( 0.075, -0.075, 0) ].

(** [p[:2]] *)
Definition xy (p : R * R * R) : vec2 := (fst (fst p), snd (fst p)).

(** Lines 247-256: the body of [for i in range(1, len(time_delays))]. *)
Definition fuse_step (mic_positions : list (R * R * R))
    (time_delays confidences : list R)
    (acc : result (vec2 * R)) (i : nat) : result (vec2 * R) :=
  st <- acc ;;
  let (direction, total_weight) := st in
  d <- py_index time_delays i ;;
  if Rgtb (Rabs d) 1 then
    (* Direction from mic0 to mici *)
    pi <- py_index mic_positions i ;;
    p0 <- py_index mic_positions 0 ;;
    let vec := vsub (xy pi) (xy p0) in
    let sign := if Rgtb d 0 then -1 else 1 in
    weight <- py_index confidences i ;;
    Ok (vadd direction (vmul_r (vscale sign vec) weight), total_weight + weight)
  else Ok (direction, total_weight).

(** Lines 229-265: the body of the [try].  Lines 233-236 compute
    [time_delays_sec] and [distance_diffs], which nothing reads. *)
Definition tdoa_to_direction_body (mic_positions : list (R * R * R))
    (time_delays : list R) (sound_active : bool) : result vec2 :=
  if negb sound_active then Ok vzero
  else
    m <- np_max (map Rabs time_delays) ;;
    let confidences := map (fun c => c / (m + 1e-10)) (map Rabs time_delays) in
    st <- fold_left (fuse_step mic_positions time_delays confidences)
            (seq 1 (length time_delays - 1)) (Ok (vzero, 0)) ;;
    let (direction, total_weight) := st in
    if Rgtb total_weight 0 && Rgtb (norm direction) 0 then
      Ok (vdiv direction (norm direction))
    else Ok vzero.

(** Lines 221-268, for a microphone geometry [mic_positions]. *)
Definition tdoa_to_direction (mic_positions : list (R * R * R))
    (time_delays : list R) (sound_active : bool) : vec2 :=
  try_except (tdoa_to_direction_body mic_positions time_delays sound_active) vzero.

(** *** The DirectionFuser as the specification words it *)

Definition max_abs (delay : list R) : R := fold_right Rmax 0 (map Rabs delay).

Definition contributes (delay : list R) (i : nat) : bool :=
  Rgtb (Rabs (nth i delay 0)) 1.

Definition spec_sign (delay : list R) (i : nat) : R :=
  if Rgtb (nth i delay 0) 0 then -1 else 1.

Definition spec_weight (delay : list R) (i : nat) : R :=
  Rabs (nth i delay 0) / max_abs delay.

Definition spec_contribution (position : list (R * R * R)) (delay : list R)
    (i : nat) : vec2 :=
  vscale (spec_sign delay i * spec_weight delay i)
    (vsub (xy (nth i position (0, 0, 0))) (xy (nth 0 position (0, 0, 0)))).

Definition vsum (l : list vec2) : vec2 := fold_right vadd vzero l.
Definition Rsum (l : list R) : R := fold_right Rplus 0 l.

Definition fuser_spec (position : list (R * R * R)) (delay : list R)
    (active : bool) : vec2 :=
  if negb active then vzero
  else
    let mics := filter (contributes delay) (seq 1 (length delay - 1)) in
    let direction := vsum (map (spec_contribution position delay) mics) in
    let totalWeight := Rsum (map (spec_weight delay) mics) in
    if Rgtb totalWeight 0 && negb (Reqb (norm direction) 0) then
      vdiv direction (norm direction)
    else vzero.

End RealModel.

Section SignalModel.
Local Open Scope R_scope.

Definition SAMPLE_RATE : R := 24000.

(* ------------------------------------------------------------------ *)
(** ** TemporalSmoother: the tail of [audio_processor_thread]          *)
(* ------------------------------------------------------------------ *)

(** Line 433. *)
Definition buffer_size : nat := 5.

(** [np.mean(directions_buffer, axis=0)] *)
Definition np_mean (l : list vec2) : vec2 :=
  vdiv (fold_left vadd l vzero) (INR (length l)).

(** Lines 462-478: the window update and the value to publish. *)
Definition smooth (directions_buffer : list vec2) (direction : vec2)
  : list vec2 * vec2 :=
  if Rgtb (norm direction) 0 then
    let buf := directions_buffer ++ [direction] in
    let buf := if (buffer_size <? length buf)%nat then tl buf else buf in
    let avg_direction :=
      if (0 <? length buf)%nat then
        let avg := np_mean buf in
        if Rgtb (norm avg) 0 then vdiv avg (norm avg) else avg
      else vzero in
    (buf, avg_direction)
  else
    (* Clear buffer if we detect no direction *)
    ([], vzero).

(** Lines 481-489. *)
Definition publish_direction (q : Queue vec2) (avg_direction : vec2)
  : Queue vec2 :=
  match put_nowait q avg_direction with
  | Ok q' => q'
  | Raise _ =>
      match get_nowait q with
      | Ok (_, q1) =>
          match put_nowait q1 avg_direction with
          | Ok q2 => q2
          | Raise _ => q1
          end
      | Raise _ => q
      end
  end.

(** The loop-carried state of [audio_processor_thread]. *)
Record Processor : Type := mkProcessor {
  directions_buffer : list vec2;
  direction_queue : Queue vec2
}.

(** Line 49 and line 432. *)
Definition processor_init : Processor := mkProcessor [] (mkQueue [] 5).

(** Lines 447-489 for one frame, given the activity flag of line 445 and,
    for an active frame, the direction computed at line 459.  On the
    inactive path a full [direction_queue] makes [put] raise [queue.Full],
    which the handler of line 494 swallows. *)
Definition process_estimate (st : Processor) (sound_active : bool)
    (direction : vec2) : Processor :=
  if negb sound_active then
    match put_nowait (direction_queue st) vzero with
    | Ok q => mkProcessor (directions_buffer st) q
    | Raise _ => st
    end
  else
    let (buf, avg_direction) := smooth (directions_buffer st) direction in
    mkProcessor buf (publish_direction (direction_queue st) avg_direction).

(* ------------------------------------------------------------------ *)
(** ** BandpassStage: [apply_bandpass_filter]                          *)
(* ------------------------------------------------------------------ *)

Fixpoint dot (coeffs past : list R) : R :=
  match coeffs, past with
  | c :: coeffs', p :: past' => c * p + dot coeffs' past'
  | _, _ => 0
  end.

(** [scipy.signal.lfilter(b, a, x)] with zero initial state:
    [a[0]*y[n] = b[0]*x[n] + ... + b[M]*x[n-M] - a[1]*y[n-1] - ... - a[N]*y[n-N]].
    [x_past] and [y_past] hold the earlier inputs and outputs, latest first. *)
Fixpoint lfilter_from (b a x_past y_past x : list R) : list R :=
  match x with
  | [] => []
  | xn :: rest =>
      let yn := (dot b (xn :: x_past) - dot (tl a) y_past) / hd 1 a in
      yn :: lfilter_from b a (xn :: x_past) (yn :: y_past) rest
  end.

Definition lfilter (b a x : list R) : list R := lfilter_from b a [] [] x.

(** Calls to the filter designer, in program order. *)
Inductive design_call : Type :=
| ButterCall (order : nat) (low high : R).

Section Bandpass.

(** [scipy.signal.butter(N, [low, high], btype='band')]: the designer is a
    library function; it returns the coefficient arrays [(b, a)] or raises. *)
Variable butter : nat -> R -> R -> result (list R * list R).

(** Lines 271-289.  The second component records the designer calls made. *)
Definition apply_bandpass_filter (channels : list (list R))
    (low_freq high_freq : R) : list (list R) * list design_call :=
  let nyquist := 0.5 * SAMPLE_RATE in
  let low := low_freq / nyquist in
  let high := high_freq / nyquist in
  (try_except
     (ba <- butter 4 low high ;;
      let (b, a) := ba in
      Ok (map (lfilter b a) channels))
     channels,
   [ButterCall 4 low high]).

(** Line 453 over the successive active frames of [audio_processor_thread]. *)
Fixpoint bandpass_frames (frames : list (list (list R)))
  : list (list (list R)) * list design_call :=
  match frames with
  | [] => ([], [])
  | channels :: rest =>
      let (filtered, calls) := apply_bandpass_filter channels 300 3000 in
      let (outs, calls') := bandpass_frames rest in
      (filtered :: outs, calls ++ calls')
  end.

End Bandpass.

(* ------------------------------------------------------------------ *)
(** ** TDOAEstimator: [compute_cross_correlation], [estimate_tdoa]     *)
(* ------------------------------------------------------------------ *)

Definition complex : Type := (R * R)%type.

Definition Cmul (z w : complex) : complex :=
  (fst z * fst w - snd z * snd w, fst z * snd w + snd z * fst w).
Definition Cconj (z : complex) : complex := (fst z, - snd z).
Definition Cabs (z : complex) : R := sqrt (fst z * fst z + snd z * snd z).
Definition Cdiv_real (z : complex) (r : R) : complex := (fst z / r, snd z / r).

Fixpoint map2 {A B C : Type} (f : A -> B -> C) (l1 : list A) (l2 : list B)
  : list C :=
  match l1, l2 with
  | x :: l1', y :: l2' => f x y :: map2 f l1' l2'
  | _, _ => []
  end.

(** Elementwise product of two arrays of the same length (the arrays met
    here have at least 10 elements, so no broadcasting applies). *)
Definition np_mul (a b : list R) : result (list R) :=
  if (length a =? length b)%nat then Ok (map2 Rmult a b)
  else Raise ValueError.

(** [scipy.signal.windows.hann(M)], the symmetric Hann window. *)
Definition hann (M : nat) : list R :=
  match M with
  | O => []
  | S O => [1]
  | _ => map (fun n => 0.5 - 0.5 * cos (2 * PI * INR n / INR (M - 1))) (seq 0 M)
  end.

(** [np.fft.rfft(x)]: bins [0 .. n/2] of the discrete Fourier transform. *)
Definition rfft (x : list R) : list complex :=
  let n := length x in
  map (fun k =>
         (Rsum (map (fun j => nth j x 0 * cos (2 * PI * INR j * INR k / INR n))
                    (seq 0 n)),
          - Rsum (map (fun j => nth j x 0 * sin (2 * PI * INR j * INR k / INR n))
                      (seq 0 n))))
      (seq 0 (n / 2 + 1)).

(** [np.fft.irfft(X)]: the real signal of length [L = 2 * (len(X) - 1)]
    whose spectrum is the Hermitian extension of [X]; the imaginary parts of
    the first and last bins are ignored. *)
Definition irfft (X : list complex) : list R :=
  let m := length X in
  let L := (2 * (m - 1))%nat in
  map (fun t =>
         (fst (nth 0 X (0, 0))
          + Rsum (map (fun k =>
                         2 * (fst (nth k X (0, 0))
                                * cos (2 * PI * INR k * INR t / INR L)
                              - snd (nth k X (0, 0))
                                * sin (2 * PI * INR k * INR t / INR L)))
                      (seq 1 (m - 2)))
          + fst (nth (m - 1) X (0, 0))
            * cos (2 * PI * INR (m - 1) * INR t / INR L))
         / INR L)
      (seq 0 L).

(** Lines 173-187: window, transforms, phase transform, inverse transform. *)
Definition gcc_phat_correlation (signal1 signal2 : list R) : result (list R) :=
  let window := hann (length signal1) in
  signal1 <- np_mul signal1 window ;;
  signal2 <- np_mul (slice signal2 0 (length window)) window ;;
  let X1 := rfft signal1 in
  let X2 := rfft signal2 in
  let X1X2 := map2 Cmul X1 (map Cconj X2) in
  let X1X2_abs := map (fun z => Cabs z + 1e-10) X1X2 in
  let X1X2_normalized := map2 Cdiv_real X1X2 X1X2_abs in
  Ok (irfft X1X2_normalized).

(** Lines 193-195. *)
Definition lag_of_peak (max_index len : nat) : Z :=
  if (len / 2 <? max_index)%nat
  then (Z.of_nat max_index - Z.of_nat len)%Z
  else Z.of_nat max_index.

Section TDOA.

(** The numeric core of lines 173-187; [gcc_phat_correlation] below is its
    real-number model, and any exception it raises is caught at line 198. *)
Variable correlate : list R -> list R -> result (list R).

(** Lines 162-200. *)
Definition compute_cross_correlation_with (signal1 signal2 : list R) : Z :=
  try_except
    (if (length signal1 <? 10)%nat || (length signal2 <? 10)%nat then Ok 0%Z
     else
       correlation <- correlate signal1 signal2 ;;
       max_index <- np_argmax correlation ;;
       Ok (lag_of_peak max_index (length correlation)))
    0%Z.

(** [time_delays[i] = lag] *)
Fixpoint set_nth {A : Type} (l : list A) (i : nat) (v : A) : list A :=
  match l, i with
  | [], _ => []
  | _ :: rest, O => v :: rest
  | x :: rest, S i' => x :: set_nth rest i' v
  end.

(** Lines 212-216: the loop inside the [try]; an exception abandons the
    loop and keeps the delays stored so far. *)
Fixpoint estimate_loop (channels : list (list R)) (idx : list nat)
    (time_delays : list Z) : list Z :=
  match idx with
  | [] => time_delays
  | i :: rest =>
      match (reference <- py_index channels 0 ;;
             channel <- py_index channels i ;;
             Ok (compute_cross_correlation_with reference channel)) with
      | Ok lag => estimate_loop channels rest (set_nth time_delays i lag)
      | Raise _ => time_delays
      end
  end.

(** Lines 203-218. *)
Definition estimate_tdoa_with (channels : list (list R)) : list Z :=
  estimate_loop channels (seq 1 (length channels - 1))
    (repeat 0%Z (length channels)).

End TDOA.

Definition compute_cross_correlation : list R -> list R -> Z :=
  compute_cross_correlation_with gcc_phat_correlation.

Definition estimate_tdoa : list (list R) -> list Z :=
  estimate_tdoa_with gcc_phat_correlation.

(* ------------------------------------------------------------------ *)
(** ** ActivityGate and the per-frame pipeline                         *)
(* ------------------------------------------------------------------ *)

(** [np.sqrt(np.mean(np.square(channel)))] *)
Definition rms (channel : list R) : R :=
  sqrt (Rsum (map (fun x => x * x) channel) / INR (length channel)).

(** Lines 143-159 (the channels handed over by [parse_audio_data] are never
    empty, so no mean of an empty array arises). *)
Definition is_sound_active (channels : list (list R)) (threshold : R) : bool :=
  Rgtb (Rsum (map rms channels) / INR (length channels)) threshold.

(** Line 434. *)
Definition energy_threshold : R := 35.

(** Lines 439-489: one iteration of the loop of [audio_processor_thread] on
    a frame taken from [audio_queue]. *)
Definition process_frame (butter : nat -> R -> R -> result (list R * list R))
    (mic_gains : list R) (st : Processor) (raw_data : list byte) : Processor :=
  let channels := parse_audio_data mic_gains raw_data in
  let sound_active := is_sound_active channels energy_threshold in
  if negb sound_active then process_estimate st false vzero
  else
    let filtered_channels := fst (apply_bandpass_filter butter channels 300 3000) in
    let time_delays := estimate_tdoa filtered_channels in
    let direction := tdoa_to_direction MIC_POSITIONS (map IZR time_delays) sound_active in
    process_estimate st true direction.

(** *** The delay as the specification words it: the peak is the argmax of
    the correlation magnitude. *)
Definition gcc_phat_lag_by_magnitude (signal1 signal2 : list R) : Z :=
  try_except
    (correlation <- gcc_phat_correlation signal1 signal2 ;;
     peak <- np_argmax (map Rabs correlation) ;;
     Ok (lag_of_peak peak (length correlation)))
    0%Z.

End SignalModel.

Section TestSignals.
Local Open Scope R_scope.

(** Two test signals of ten samples: a unit impulse at index 3 and the same
    impulse with inverted polarity. *)
Definition impulse : list R := [0; 0; 0; 1; 0; 0; 0; 0; 0; 0].
Definition inverted_impulse : list R := [0; 0; 0; -1; 0; 0; 0; 0; 0; 0].

(** The phase of bin [k] at lag [t] for a correlation of length 10, and the
    closed form of the phase-transformed correlation of two windowed
    impulses of opposite polarity ([A] is the common magnitude of the
    normalised bins). *)
Definition arg (k t : nat) : R := 2 * PI * INR k * INR t / INR 10.

Definition opposed_correlation (A : R) (t : nat) : R :=
  - A / 10 * (1 + 2 * (cos (arg 1 t) + cos (arg 2 t) + cos (arg 3 t) + cos (arg 4 t))
              + cos (arg 5 t)).

End TestSignals.

(* ------------------------------------------------------------------ *)
(** ** The producer loop: [process_audio_buffers]                      *)
(* ------------------------------------------------------------------ *)

(** Lines 140-145 of [process_audio_buffers]: pad with silent microphones up
    to four, then keep the first four. *)
Definition pad_chunks (chunk_size : nat) (chunks : list (list Z)) : list (list Z) :=
  firstn 4 (chunks ++ repeat (repeat 0%Z chunk_size) (4 - length chunks)).

(** Lines 147-151: [interleaved[i*4 + mic] = chunks[mic][i]]; the positions
    are written in increasing order and cover the whole array. *)
Definition interleave (chunk_size : nat) (chunks : list (list Z))
  : result (list Z) :=
  let chunks := pad_chunks chunk_size chunks in
  rows <- for_range
            (fun i =>
               for_range (fun mic => chunk <- py_index chunks mic ;;
                                     py_index chunk i)
                 0 4)
            0 chunk_size ;;
  Ok (concat rows).

(** Lines 133-207: one iteration of the producer loop on the sample blocks
    read from the streams; an exception skips the write. *)
Definition produce (chunk_size : nat) (st : BroadcastBuffer)
    (chunks : list (list Z)) : BroadcastBuffer :=
  match interleave chunk_size chunks with
  | Ok interleaved => write_buffers st (tobytes interleaved)
  | Raise _ => st
  end.

(** The values of numpy's [int16]. *)
Definition int16 (s : Z) : Prop := (-32768 <= s <= 32767)%Z.

(* ------------------------------------------------------------------ *)
(** ** Frame assembly and reconnection scripts                         *)
(* ------------------------------------------------------------------ *)

(** The last [n] elements of [l] (all of [l] when it is shorter). *)
Definition keep_last {A : Type} (n : nat) (l : list A) : list A :=
  skipn (length l - n) l.

(** The connection outcomes in which every response body in [bodies] is
    preceded by [k] refused connections and ends with the server closing
    the stream. *)
Definition flaky_script (k : nat) (bodies : list (list (list byte)))
  : list attempt :=
  flat_map (fun body => repeat ConnectRaises k ++ [Streaming body Closed]) bodies.

(* ------------------------------------------------------------------ *)
(** ** Spectra of scaled signals                                       *)
(* ------------------------------------------------------------------ *)

Section Spectra.
Local Open Scope R_scope.

(** A spectrum bin that is real and not negative. *)
Definition real_nonneg (z : complex) : Prop := 0 <= fst z /\ snd z = 0.

(** The bin [z] scaled by the real [k]. *)
Definition Cscale (k : R) (z : complex) : complex := (k * fst z, k * snd z).

End Spectra.

(* ------------------------------------------------------------------ *)
(** ** The plot: [calculate_angle], [update_visualization]             *)
(* ------------------------------------------------------------------ *)

Section Visualisation.
Local Open Scope R_scope.







(** A published direction: a unit vector, or the zero vector for "no
    direction". *)
Definition unit_or_zero (v : vec2) : Prop := norm v = 1 \/ v = vzero.

End Visualisation.

(* ================================================================== *)
(** * Part II: theorems                                                *)
(* ================================================================== *)

(** ** BroadcastBuffer *)

Lemma slice_0 (A : Type) (l : list A) (n : nat) : slice l 0 n = firstn n l.
Proof. unfold slice. now rewrite Nat.sub_0_r. Qed.

Lemma slice_to_end (A : Type) (l : list A) (n : nat) :
  slice l n (length l) = skipn n l.
Proof.
  unfold slice. apply firstn_all2. rewrite length_skipn. lia.
Qed.

Record broadcast_inv (st : BroadcastBuffer) : Prop := {
  inv_fill : fill_pos st <= length (fill_buffer st);
  inv_idle : idle_pos st = 0
}.

Lemma write_cases (st : BroadcastBuffer) (d : list byte) :
  broadcast_inv st ->
  let space_left := length (fill_buffer st) - fill_pos st in
  let st' := write_buffers st d in
  (* the write fits and leaves room *)
  (length d < space_left /\
   buffer_sel st' = buffer_sel st /\
   fill_buffer st' = firstn (fill_pos st) (fill_buffer st) ++ d ++
                     skipn (fill_pos st + length d) (fill_buffer st) /\
   fill_pos st' = fill_pos st + length d /\
   idle_buffer st' = idle_buffer st /\ idle_pos st' = 0)
  \/
  (* the write fits exactly: flip *)
  (length d = space_left /\
   buffer_sel st' = negb (buffer_sel st) /\
   idle_buffer st' = firstn (fill_pos st) (fill_buffer st) ++ d /\
   idle_pos st' = 0 /\
   fill_buffer st' = idle_buffer st /\ fill_pos st' = 0)
  \/
  (* the write overflows: split, flip and carry *)
  (space_left < length d /\
   buffer_sel st' = negb (buffer_sel st) /\
   idle_buffer st' = firstn (fill_pos st) (fill_buffer st) ++ firstn space_left d /\
   idle_pos st' = 0 /\
   fill_buffer st' = skipn space_left d ++
                     skipn (length d - space_left) (idle_buffer st) /\
   fill_pos st' = length d - space_left).
Proof.
  intros [Hf Hi]. cbv zeta.
  unfold write_buffers, fill_buffer, fill_pos, idle_buffer, idle_pos in *.
  destruct (buffer_sel st); simpl in *.
  - set (a := audio_buffer_a st) in *. set (p := buffer_a_pos st) in *.
    destruct (Nat.leb_spec (length d) (length a - p)) as [Hle | Hgt].
    + assert (Hlen : length (slice_assign a p (p + length d) d) = length a).
      { unfold slice_assign. rewrite !length_app, length_firstn, length_skipn. lia. }
      rewrite Hlen.
      destruct (Nat.leb_spec (length a) (p + length d)) as [Hfull | Hroom]; simpl.
      * right; left. repeat split; try reflexivity; try lia; auto.
        unfold slice_assign. rewrite Nat.max_r by lia.
        rewrite (skipn_all2 a) by lia. now rewrite app_nil_r.
      * left. repeat split; try reflexivity; try lia; auto.
        unfold slice_assign. now rewrite Nat.max_r by lia.
    + right; right.
      destruct (Nat.ltb_spec 0 (length d - (length a - p))) as [_ | Hz]; [ | lia ].
      simpl. repeat split; try reflexivity; try lia.
      * unfold slice_assign. rewrite Nat.max_r by lia.
        rewrite (skipn_all2 a) by lia. now rewrite app_nil_r, slice_0.
      * unfold slice_assign. simpl. now rewrite slice_to_end.
  - set (b := audio_buffer_b st) in *. set (p := buffer_b_pos st) in *.
    destruct (Nat.leb_spec (length d) (length b - p)) as [Hle | Hgt].
    + assert (Hlen : length (slice_assign b p (p + length d) d) = length b).
      { unfold slice_assign. rewrite !length_app, length_firstn, length_skipn. lia. }
      rewrite Hlen.
      destruct (Nat.leb_spec (length b) (p + length d)) as [Hfull | Hroom]; simpl.
      * right; left. repeat split; try reflexivity; try lia; auto.
        unfold slice_assign. rewrite Nat.max_r by lia.
        rewrite (skipn_all2 b) by lia. now rewrite app_nil_r.
      * left. repeat split; try reflexivity; try lia; auto.
        unfold slice_assign. now rewrite Nat.max_r by lia.
    + right; right.
      destruct (Nat.ltb_spec 0 (length d - (length b - p))) as [_ | Hz]; [ | lia ].
      simpl. repeat split; try reflexivity; try lia.
      * unfold slice_assign. rewrite Nat.max_r by lia.
        rewrite (skipn_all2 b) by lia. now rewrite app_nil_r, slice_0.
      * unfold slice_assign. simpl. now rewrite slice_to_end.
Qed.

Arguments pending : simpl never.
Arguments idle_buffer : simpl never.
Arguments write_buffers : simpl never.

Lemma write_keeps_inv (st : BroadcastBuffer) (d : list byte) :
  broadcast_inv st -> broadcast_inv (write_buffers st d).
Proof.
  intros H. pose proof (write_cases d H) as Hc. cbv zeta in Hc.
  destruct H as [Hf Hi].
  destruct Hc as [(Hl & _ & Hb & Hp & _ & Hi') | [(Hl & _ & _ & Hi' & Hb & Hp) | (Hl & _ & _ & Hi' & Hb & Hp)]];
    split; auto; rewrite Hb, Hp.
  - rewrite !length_app, length_firstn, length_skipn. lia.
  - lia.
  - rewrite length_app, !length_skipn. lia.
Qed.

Lemma pending_after_write (st : BroadcastBuffer) (d : list byte) :
  broadcast_inv st ->
  let space_left := length (fill_buffer st) - fill_pos st in
  let st' := write_buffers st d in
  (buffer_sel st' = buffer_sel st /\ pending st' = pending st ++ d) \/
  (buffer_sel st' = negb (buffer_sel st) /\
   idle_buffer st' = pending st ++ firstn space_left d /\
   pending st' = skipn space_left d).
Proof.
  intros H. pose proof (write_cases d H) as Hc. cbv zeta in *.
  destruct H as [Hf Hi]. unfold pending.
  destruct Hc as [(Hl & Hs & Hb & Hp & _ & _) | [(Hl & Hs & Hb & _ & _ & Hp) | (Hl & Hs & Hb & _ & Hb' & Hp)]].
  - left. split; [ assumption | ]. rewrite Hb, Hp.
    set (p := fill_pos st) in *. set (buf := fill_buffer st) in *.
    assert (Hlp : length (firstn p buf) = p) by (rewrite length_firstn; lia).
    rewrite app_assoc, firstn_app.
    rewrite length_app, Hlp.
    replace (p + length d - (p + length d)) with 0 by lia.
    rewrite firstn_O, app_nil_r. apply firstn_all2. rewrite length_app; lia.
  - right. split; [ assumption | ]. split.
    + rewrite Hb. f_equal. symmetry. apply firstn_all2. lia.
    + rewrite Hp, firstn_O. symmetry. apply skipn_all2. lia.
  - right. split; [ assumption | ]. split; [ assumption | ].
    rewrite Hb', Hp, firstn_app, length_skipn.
    replace (length d - _ - _) with 0 by lia.
    rewrite firstn_O, app_nil_r. apply firstn_all2. rewrite length_skipn; lia.
Qed.

(** What a reader that observes every flip has received, together with the
    bytes still pending in the fill buffer, is the stream written so far. *)
Record system_inv (s : BroadcastBuffer * Reader) (stream : list byte) : Prop := {
  sys_buffers : broadcast_inv (fst s);
  sys_client : client_buffer_sel (snd s) = negb (buffer_sel (fst s));
  sys_last : last_buffer_sel (snd s) = negb (buffer_sel (fst s));
  sys_stream : wfile (snd s) ++ pending (fst s) = stream
}.

Lemma system_inv_connect (a b : list byte) :
  let st := mkBroadcast a b 0 0 true in
  system_inv (st, do_GET_connect st) [].
Proof.
  split; simpl; auto. split; simpl; auto. unfold fill_pos, fill_buffer; simpl; lia.
Qed.

Lemma system_inv_paced_step (s : BroadcastBuffer * Reader) (stream d : list byte) :
  system_inv s stream ->
  system_inv (run [Produce d; Poll; Poll] s) (stream ++ d).
Proof.
  destruct s as [st [c l w]]. intros [Hb Hc Hl Hs]. simpl in *. subst c l.
  pose proof (write_keeps_inv d Hb) as Hb'.
  pose proof (pending_after_write d Hb) as Hp. cbv zeta in Hp.
  unfold run; simpl.
  set (st' := write_buffers st d) in *.
  destruct Hp as [(Hsel & Hpend) | (Hsel & Hidle & Hpend)].
  - (* no flip: both iterations find the selector unchanged *)
    unfold do_GET_iteration; simpl. rewrite Hsel.
    destruct (buffer_sel st); simpl;
      (split; simpl; auto; try (now rewrite Hsel));
      rewrite Hpend, app_assoc, Hs; reflexivity.
  - (* flip: the first iteration samples the selector, the second sends *)
    assert (Hread : idle_buffer st' =
                    if buffer_sel st then audio_buffer_a st' else audio_buffer_b st').
    { unfold idle_buffer. rewrite Hsel. destruct (buffer_sel st); reflexivity. }
    unfold do_GET_iteration; simpl. rewrite Hsel.
    destruct (buffer_sel st); simpl;
      (split; simpl; auto; try (now rewrite Hsel));
      rewrite <- Hread, Hidle, Hpend, <- !app_assoc;
      rewrite (app_assoc w), Hs, firstn_skipn; reflexivity.
Qed.

Lemma run_app (s1 s2 : list event) (s : BroadcastBuffer * Reader) :
  run (s1 ++ s2) s = run s2 (run s1 s).
Proof. apply fold_left_app. Qed.

Lemma system_inv_paced (writes : list (list byte)) :
  forall (s : BroadcastBuffer * Reader) (stream : list byte),
    system_inv s stream ->
    system_inv (run (paced writes) s) (stream ++ concat writes).
Proof.
  induction writes as [ | d writes IH]; intros s stream H.
  - simpl. now rewrite app_nil_r.
  - change (paced (d :: writes)) with ([Produce d; Poll; Poll] ++ paced writes).
    rewrite run_app. simpl concat. rewrite app_assoc.
    apply IH. now apply system_inv_paced_step.
Qed.

(** Boolean comparison of byte strings, for evaluation on concrete inputs. *)
Lemma bytes_eqb_eq (l1 l2 : list byte) : bytes_eqb l1 l2 = true -> l1 = l2.
Proof.
  revert l2. induction l1 as [ | x l1 IH]; intros [ | y l2]; simpl; try discriminate; auto.
  intros H. apply andb_true_iff in H as [Hx Hl].
  apply Byte.byte_dec_bl in Hx. f_equal; auto.
Qed.

(** C1 (amended).  A write that exceeds the remaining capacity of the buffer
    being filled is split: the remainder of that buffer is filled (it keeps
    its length and is now the buffer readers are served), the selector flips,
    and the excess is carried to the front of the newly selected buffer, whose
    cursor becomes the carried length.  For every sequence of producer writes,
    a reader that completes two loop iterations after each write has received
    exactly the completed buffers in flip order: what it was sent, followed by
    the bytes still pending in the buffer being filled, is the byte stream
    written by the producer. *)
Theorem broadcast_split_and_reconstruction :
  (forall (st : BroadcastBuffer) (d : list byte),
      broadcast_inv st ->
      length (fill_buffer st) - fill_pos st < length d ->
      let space_left := length (fill_buffer st) - fill_pos st in
      let st' := write_buffers st d in
      buffer_sel st' = negb (buffer_sel st) /\
      idle_buffer st' = pending st ++ firstn space_left d /\
      length (idle_buffer st') = length (fill_buffer st) /\
      pending st' = skipn space_left d /\
      fill_pos st' = length d - space_left /\
      idle_pos st' = 0)
  /\
  (forall (a b : list byte) (writes : list (list byte)),
      let st0 := mkBroadcast a b 0 0 true in
      let s := run (paced writes) (st0, do_GET_connect st0) in
      broadcast_inv (fst s) /\
      wfile (snd s) ++ pending (fst s) = concat writes).
Proof.
  split.
  - intros st d Hinv Hlt. cbv zeta.
    pose proof (write_cases d Hinv) as Hc. cbv zeta in Hc.
    pose proof (pending_after_write d Hinv) as Hp. cbv zeta in Hp.
    destruct Hc as [(Hl & _) | [(Hl & _) | (_ & Hsel & Hidle & Hip & _ & Hfp)]];
      try lia.
    destruct Hp as [(Hsel' & _) | (_ & Hidle' & Hpend)].
    { rewrite Hsel in Hsel'. now destruct (buffer_sel st). }
    repeat split; auto.
    rewrite Hidle, length_app, !length_firstn.
    destruct Hinv as [Hf _]. lia.
  - intros a b writes. cbv zeta.
    pose proof (system_inv_paced writes (system_inv_connect a b)) as [Hb _ _ Hs].
    split; assumption.
Qed.

Lemma broadcast_split_and_reconstruction_witness :
  let st := broadcast_init in
  let d := counting 40000 in
  let space_left := length (fill_buffer st) - fill_pos st in
  let st' := write_buffers st d in
  broadcast_inv st /\
  space_left < length d /\
  buffer_sel st' = negb (buffer_sel st) /\
  idle_buffer st' = pending st ++ firstn space_left d /\
  pending st' = skipn space_left d /\
  fill_pos st' = length d - space_left.
Proof.
  cbv zeta.
  assert (Hinv : broadcast_inv broadcast_init).
  { split; [ apply Nat.le_0_l | reflexivity ]. }
  assert (Hlt : length (fill_buffer broadcast_init) - fill_pos broadcast_init
                < length (counting 40000)).
  { apply Nat.ltb_lt. vm_compute. reflexivity. }
  split; [ exact Hinv | split; [ exact Hlt | ] ].
  destruct (proj1 broadcast_split_and_reconstruction
              broadcast_init (counting 40000) Hinv Hlt)
    as (Hsel & Hidle & _ & Hpend & Hpos & _).
  split; [ exact Hsel | split; [ exact Hidle | split; [ exact Hpend | exact Hpos ] ] ].
Defined.

(** C1, as stated, fails: after one write of 40000 counting bytes into the
    fresh 32768-byte buffers the write is split and the selector flips once,
    but a reader polling throughout has been sent only the completed buffer,
    the first 32768 bytes; the 7232 carried bytes stay in the buffer being
    filled. *)
Lemma broadcast_served_is_a_proper_prefix :
  let d := counting 40000 in
  let s := run (paced [d]) (broadcast_init, do_GET_connect broadcast_init) in
  wfile (snd s) = firstn 32768 d /\
  wfile (snd s) <> concat [d].
Proof.
  cbv zeta. split.
  - apply bytes_eqb_eq. vm_compute. reflexivity.
  - intros H. apply (f_equal (@length byte)) in H.
    apply Nat.eqb_eq in H. vm_compute in H. discriminate H.
Qed.

(** A reader that completes only one loop iteration between writes uses a
    selector sampled before the latest flip: here it sends buffer A after the
    producer has already carried one byte of the second write into it. *)
Lemma reader_one_iteration_sends_overwritten_buffer :
  let writes := [counting 32768; repeat xff 32769] in
  let s := run (paced_once writes)
               (broadcast_init, do_GET_connect broadcast_init) in
  firstn 1 (wfile (snd s)) = [xff] /\ firstn 1 (concat writes) = [x00].
Proof.
  cbv zeta. split; vm_compute; reflexivity.
Qed.

(** ** The analysis-feeding queue *)

Lemma put_nowait_bounded (A : Type) (q q' : Queue A) (x : A) :
  0 < maxsize q -> length (items q) <= maxsize q ->
  put_nowait q x = Ok q' ->
  maxsize q' = maxsize q /\ length (items q') <= maxsize q'.
Proof.
  unfold put_nowait. intros Hpos Hle.
  destruct (Nat.ltb_spec 0 (maxsize q)) as [_ | ?]; [ | lia ].
  destruct (Nat.leb_spec (maxsize q) (length (items q))) as [Hfull | Hroom];
    simpl; intros H; inversion H; subst; simpl.
  split; [ reflexivity | ]. rewrite length_app. simpl. lia.
Qed.

Lemma get_nowait_bounded (A : Type) (q q' : Queue A) (x : A) :
  length (items q) <= maxsize q ->
  get_nowait q = Ok (x, q') ->
  maxsize q' = maxsize q /\ length (items q') <= maxsize q'.
Proof.
  unfold get_nowait. intros Hle. destruct (items q) as [ | y rest] eqn:E.
  - discriminate.
  - intros H; inversion H; subst; simpl in *. split; [ reflexivity | lia ].
Qed.

Lemma apply_op_bounded (q : Queue (list byte)) (op : queue_op) :
  0 < maxsize q -> length (items q) <= maxsize q ->
  maxsize (apply_op q op) = maxsize q /\
  length (items (apply_op q op)) <= maxsize (apply_op q op).
Proof.
  intros Hpos Hle. destruct op as [frame | | frame]; simpl.
  - destruct (put_nowait q frame) as [q' | e] eqn:E; [ | auto ].
    eapply put_nowait_bounded; eauto.
  - destruct (get_nowait q) as [[x q'] | e] eqn:E; [ | auto ].
    eapply get_nowait_bounded; eauto.
  - unfold enqueue_frame.
    destruct (put_nowait q frame) as [q' | e] eqn:E; simpl.
    + eapply put_nowait_bounded; eauto.
    + destruct (get_nowait q) as [[x q1] | e1] eqn:E1; simpl; [ | auto ].
      destruct (@get_nowait_bounded _ q q1 x Hle E1) as [Hm1 Hl1].
      destruct (put_nowait q1 frame) as [q2 | e2] eqn:E2; simpl.
      * assert (Hpos1 : 0 < maxsize q1) by lia.
        destruct (@put_nowait_bounded _ q1 q2 frame Hpos1 Hl1 E2) as [Hm2 Hl2].
        split; [ congruence | assumption ].
      * split; assumption.
Qed.

(** C9.  The queue feeding the analysis thread never holds more than 5
    frames, whatever sequence of puts, gets and producer enqueues the two
    threads perform on it; an enqueue on a full queue removes the oldest
    frame and takes the newest at the tail; an enqueue on a queue with room
    just appends. *)
Theorem audio_queue_bounded_drop_oldest :
  (forall ops : list queue_op,
      let q := fold_left apply_op ops audio_queue in
      maxsize q = 5 /\ length (items q) <= 5)
  /\
  (forall (q : Queue (list byte)) (frame : list byte),
      maxsize q = 5 -> length (items q) = 5 ->
      enqueue_frame q frame = (mkQueue (tl (items q) ++ [frame]) 5, true) /\
      length (items (fst (enqueue_frame q frame))) = 5)
  /\
  (forall (q : Queue (list byte)) (frame : list byte),
      maxsize q = 5 -> length (items q) < 5 ->
      enqueue_frame q frame = (mkQueue (items q ++ [frame]) 5, true)).
Proof.
  split; [ | split ].
  - intros ops. cbv zeta.
    assert (H : forall q, maxsize q = 5 -> length (items q) <= 5 ->
                maxsize (fold_left apply_op ops q) = 5 /\
                length (items (fold_left apply_op ops q)) <= 5).
    { induction ops as [ | op ops IH]; intros q Hm Hl; simpl; [ auto | ].
      destruct (@apply_op_bounded q op) as [Hm' Hl']; try lia.
      apply IH; lia. }
    apply H; simpl; [ reflexivity | lia ].
  - intros [its m] frame Hm Hl. simpl in *. subst m.
    destruct its as [ | x0 [ | x1 [ | x2 [ | x3 [ | x4 [ | x5 rest]]]]]];
      simpl in Hl; try discriminate.
    split; reflexivity.
  - intros [its m] frame Hm Hl. simpl in *. subst m.
    unfold enqueue_frame, put_nowait. cbn [maxsize items].
    replace (5 <=? length its) with false
      by (symmetry; apply Nat.leb_gt; exact Hl).
    reflexivity.
Qed.

Lemma audio_queue_bounded_drop_oldest_witness :
  let q := mkQueue [[x01]; [x02]; [x03]; [x04]; [x05]] 5 in
  maxsize q = 5 /\ length (items q) = 5 /\
  enqueue_frame q [x06] = (mkQueue [[x02]; [x03]; [x04]; [x05]; [x06]] 5, true) /\
  let q' := mkQueue [[x01]; [x02]] 5 in
  length (items q') < 5 /\
  enqueue_frame q' [x06] = (mkQueue [[x01]; [x02]; [x06]] 5, true).
Proof.
  cbv zeta.
  split; [ reflexivity | split; [ reflexivity | split ] ].
  - exact (proj1 (proj1 (proj2 audio_queue_bounded_drop_oldest)
                    (mkQueue [[x01]; [x02]; [x03]; [x04]; [x05]] 5) [x06]
                    eq_refl eq_refl)).
  - split; [ simpl; lia | ].
    apply (proj2 (proj2 audio_queue_bounded_drop_oldest)
             (mkQueue [[x01]; [x02]] 5) [x06] eq_refl).
    simpl; lia.
Defined.

(** ** FrameSource: bounded retries *)

Lemma failed_attempts_bounded (chunk_size : nat) (script : list attempt) :
  forall s : FrameSource,
    forallb failed script = true ->
    retry_count s <= max_retries ->
    attempts (read_audio_stream chunk_size script s) + retry_count s
      <= attempts s + max_retries.
Proof.
  induction script as [ | a script IH]; intros s Hf Hrc; simpl.
  - lia.
  - simpl in Hf. apply andb_true_iff in Hf as [Ha Hf].
    destruct (negb (stop_event s)); simpl; [ | lia ].
    destruct (Nat.ltb_spec (retry_count s) max_retries) as [Hlt | Hge]; [ | lia ].
    assert (Hstep : retry_count (attempt_once chunk_size s a) = S (retry_count s) /\
                    attempts (attempt_once chunk_size s a) = S (attempts s)).
    { destruct a as [ | code | chunks e]; simpl in Ha; try discriminate; simpl.
      - unfold on_connection_error; simpl.
        destruct (S (retry_count s) <? max_retries); simpl; auto.
      - auto. }
    destruct Hstep as [Hr Hatt].
    specialize (IH (attempt_once chunk_size s a) Hf). rewrite Hr, Hatt in IH.
    lia.
Qed.

(** The source never makes more than [max_retries] consecutive failed
    connection attempts. *)
Lemma at_most_max_retries_failed_attempts (chunk_size : nat) (script : list attempt) :
  forallb failed script = true ->
  attempts (read_audio_stream chunk_size script frame_source_init) <= 5.
Proof.
  intros Hf.
  pose proof (@failed_attempts_bounded chunk_size script frame_source_init Hf) as H.
  simpl in H. unfold max_retries in H. lia.
Qed.

(** Responses with a status other than 200 never set [stop_event]. *)
Lemma bad_status_never_sets_stop_event (chunk_size : nat) (codes : list nat) :
  forall s : FrameSource,
    stop_event s = false ->
    stop_event (read_audio_stream chunk_size (map BadStatus codes) s) = false.
Proof.
  induction codes as [ | c codes IH]; intros s Hs; simpl; [ assumption | ].
  rewrite Hs; simpl.
  destruct (retry_count s <? max_retries); [ | assumption ].
  apply IH. reflexivity.
Qed.

(** C8, at the failing input.  Five consecutive responses with status 404:
    the retry counter reaches the cap after five attempts and five delays,
    the loop ends, further outcomes are never requested, and [stop_event] is
    still clear: no fatal shutdown is signalled.  Five consecutive connection
    errors, instead, do set [stop_event] (line 109). *)
Theorem read_audio_stream_bad_status_exhaustion_is_silent :
  let chunk_size := PROCESS_SIZE * CHANNELS * 2 in
  let s := read_audio_stream chunk_size
             (repeat (BadStatus 404) 5 ++ [Streaming [] Closed])
             frame_source_init in
  let s' := read_audio_stream chunk_size
              (repeat ConnectRaises 5 ++ [Streaming [] Closed])
              frame_source_init in
  (retry_count s = 5 /\ attempts s = 5 /\ sleeps s = 5 /\ stop_event s = false)
  /\
  (retry_count s' = 5 /\ attempts s' = 5 /\ sleeps s' = 4 /\ stop_event s' = true).
Proof.
  cbv zeta. simpl. repeat split; reflexivity.
Qed.

(** ** ChannelDemuxer *)

Lemma int16_samples_length (raw : list byte) :
  length (int16_samples raw) = length raw / 2.
Proof.
  assert (H : forall n raw, length raw <= n ->
                length (int16_samples raw) = length raw / 2).
  { clear raw. induction n as [ | n IH]; intros raw Hn.
    - destruct raw; [ reflexivity | simpl in Hn; lia ].
    - destruct raw as [ | lo [ | hi rest]]; try reflexivity.
      cbn [int16_samples length] in *.
      rewrite IH by lia.
      change (S (S (length rest))) with (2 + length rest).
      replace (2 + length rest) with (length rest + 1 * 2) by lia.
      rewrite Nat.div_add by lia. lia. }
  apply (H (length raw)). lia.
Qed.

Lemma column_of_usable (samples : list Z) (i : nat) :
  i < CHANNELS ->
  column (slice samples 0 (length samples / CHANNELS * CHANNELS)) i =
  map (fun row => nth (row * CHANNELS + i) samples 0%Z)
      (seq 0 (length samples / CHANNELS)).
Proof.
  intros Hi. unfold column. rewrite slice_0.
  assert (Hu : length samples / CHANNELS * CHANNELS <= length samples).
  { rewrite Nat.mul_comm. apply Nat.Div0.mul_div_le. }
  rewrite firstn_length_le by exact Hu.
  rewrite Nat.div_mul by (unfold CHANNELS; lia).
  apply map_ext_in. intros row Hrow. apply in_seq in Hrow.
  rewrite nth_firstn.
  destruct (Nat.ltb_spec (row * CHANNELS + i)
              (length samples / CHANNELS * CHANNELS)) as [ _ | Hge];
    [ reflexivity | ].
  exfalso. unfold CHANNELS in *. nia.
Qed.

Lemma for_range_spec (A : Type) (f : nat -> result A) (n : nat) :
  forall (start : nat) (l : list A),
    for_range f start n = Ok l ->
    length l = n /\
    forall k, k < n -> exists x, nth_error l k = Some x /\ f (start + k) = Ok x.
Proof.
  induction n as [ | n IH]; intros start l H; simpl in H.
  - inversion H; subst. split; [ reflexivity | intros k Hk; lia ].
  - destruct (f start) as [x | e] eqn:Ef; simpl in H; [ | discriminate ].
    destruct (for_range f (S start) n) as [xs | e] eqn:Er; simpl in H;
      [ | discriminate ].
    inversion H; subst. destruct (IH _ _ Er) as [Hlen Hk].
    split; [ simpl; lia | ].
    intros [ | k] Hlt.
    + exists x. rewrite Nat.add_0_r. split; [ reflexivity | assumption ].
    + destruct (Hk k) as (y & Hy & Hfy); [ lia | ].
      exists y. split; [ exact Hy | ].
      replace (start + S k) with (S start + k) by lia. exact Hfy.
Qed.

Lemma for_range_total (A : Type) (f : nat -> result A) (n : nat) :
  forall start : nat,
    (forall k, k < n -> exists x, f (start + k) = Ok x) ->
    exists l, for_range f start n = Ok l.
Proof.
  induction n as [ | n IH]; intros start H; simpl.
  - now exists [].
  - destruct (H 0) as (x & Hx); [ lia | ]. rewrite Nat.add_0_r in Hx.
    rewrite Hx. simpl.
    destruct (IH (S start)) as (l & Hl).
    { intros k Hk. destruct (H (S k)) as (y & Hy); [ lia | ].
      exists y. replace (S start + k) with (start + S k) by lia. exact Hy. }
    rewrite Hl. simpl. now exists (x :: l).
Qed.

(** The body of [parse_audio_data] on a frame of at least [CHANNELS] samples
    with one gain per channel. *)
Lemma parse_audio_data_body_frame (mic_gains : list R) (raw_data : list byte) :
  Nat.even (length raw_data) = true ->
  CHANNELS <= length mic_gains ->
  CHANNELS <= length (int16_samples raw_data) ->
  exists channels,
    parse_audio_data_body mic_gains raw_data = Ok channels /\
    length channels = CHANNELS /\
    forall i, i < CHANNELS ->
      nth i channels [] =
      map (fun row =>
             (IZR (nth (row * CHANNELS + i) (int16_samples raw_data) 0%Z)
              * nth i mic_gains 0)%R)
          (seq 0 (length (int16_samples raw_data) / CHANNELS)).
Proof.
  intros Heven Hg Hn.
  unfold parse_audio_data_body, frombuffer_int16. rewrite Heven. cbn [bind].
  set (samples := int16_samples raw_data) in *.
  destruct (Nat.ltb_spec (length samples) CHANNELS) as [Hlt | _]; [ lia | ].
  set (f := fun i : nat => _).
  destruct (@for_range_total _ f CHANNELS 0) as (channels & Hch).
  { intros k Hk. subst f. cbn beta. unfold py_index.
    destruct (nth_error mic_gains (0 + k)) as [g | ] eqn:E.
    - cbn [bind]. eauto.
    - apply nth_error_None in E. lia. }
  exists channels. split; [ exact Hch | ].
  destruct (for_range_spec _ _ _ Hch) as [Hlen Hk].
  split; [ exact Hlen | ].
  intros i Hi. destruct (Hk i Hi) as (x & Hx & Hfx).
  rewrite (nth_error_nth _ _ _ Hx).
  subst f. cbn beta in Hfx. simpl in Hfx. unfold py_index in Hfx.
  destruct (nth_error mic_gains i) as [g | ] eqn:E; cbn [bind] in Hfx;
    [ | discriminate ].
  inversion Hfx; subst x. rewrite (nth_error_nth _ _ _ E).
  rewrite column_of_usable by exact Hi.
  rewrite map_map. reflexivity.
Qed.

Lemma list_sum_const (l : list nat) (c : nat) :
  Forall (fun x => x = c) l -> list_sum l = length l * c.
Proof.
  induction 1 as [ | x l Hx _ IH]; simpl; [ reflexivity | ]. rewrite IH, Hx. lia.
Qed.

(** C3 (amended).  For every frame holding at least [CHANNELS] 16-bit
    samples (with one gain per channel) the demuxer raises no error and
    returns [CHANNELS] channels of [n / CHANNELS] samples each, channel [i]
    holding samples [i], [i + CHANNELS], [i + 2*CHANNELS], ... in order, each
    scaled by gain [i].  The channel lengths sum to [n - n mod CHANNELS]:
    exactly [n] when [n] is divisible by [CHANNELS]; otherwise the trailing
    [n mod CHANNELS] samples are dropped and no error is reported. *)
Theorem parse_audio_data_demux (mic_gains : list R) (raw_data : list byte) :
  Nat.even (length raw_data) = true ->
  length mic_gains = CHANNELS ->
  CHANNELS <= length (int16_samples raw_data) ->
  let samples := int16_samples raw_data in
  let channels := parse_audio_data mic_gains raw_data in
  parse_audio_data_body mic_gains raw_data = Ok channels /\
  length channels = CHANNELS /\
  (forall i, i < CHANNELS ->
     nth i channels [] =
     map (fun row =>
            (IZR (nth (row * CHANNELS + i) samples 0%Z) * nth i mic_gains 0)%R)
         (seq 0 (length samples / CHANNELS))) /\
  list_sum (map (@length R) channels) = length samples - length samples mod CHANNELS /\
  (length samples mod CHANNELS = 0 ->
   list_sum (map (@length R) channels) = length samples).
Proof.
  intros Heven Hg Hn. cbv zeta.
  destruct (@parse_audio_data_body_frame mic_gains raw_data Heven) as
    (channels & Hbody & Hlen & Hnth); [ lia | exact Hn | ].
  unfold parse_audio_data. rewrite Hbody. cbn [try_except].
  assert (Hsum : list_sum (map (@length R) channels) =
                 length (int16_samples raw_data)
                 - length (int16_samples raw_data) mod CHANNELS).
  { rewrite (@list_sum_const _ (length (int16_samples raw_data) / CHANNELS)).
    - rewrite length_map, Hlen, Nat.Div0.mod_eq.
      pose proof (Nat.Div0.mul_div_le (length (int16_samples raw_data)) CHANNELS).
      lia.
    - apply Forall_forall. intros x Hx. apply in_map_iff in Hx as (ch & <- & Hin).
      apply (In_nth _ _ []) in Hin as (i & Hi & <-).
      rewrite Hnth by lia. now rewrite length_map, length_seq. }
  repeat split; auto.
  intros Hdiv. rewrite Hsum, Hdiv. lia.
Qed.

Lemma parse_audio_data_demux_witness :
  let raw := tobytes [1; 2; 3; 4; 5; 6; 7; 8]%Z in
  Nat.even (length raw) = true /\
  length DEFAULT_MIC_GAINS = CHANNELS /\
  CHANNELS <= length (int16_samples raw) /\
  length (parse_audio_data DEFAULT_MIC_GAINS raw) = CHANNELS /\
  list_sum (map (@length R) (parse_audio_data DEFAULT_MIC_GAINS raw)) = 8.
Proof.
  cbv zeta.
  assert (H1 : Nat.even (length (tobytes [1; 2; 3; 4; 5; 6; 7; 8]%Z)) = true)
    by reflexivity.
  assert (H2 : length DEFAULT_MIC_GAINS = CHANNELS) by reflexivity.
  assert (H3 : CHANNELS <= length (int16_samples (tobytes [1; 2; 3; 4; 5; 6; 7; 8]%Z)))
    by (vm_compute; lia).
  destruct (parse_audio_data_demux DEFAULT_MIC_GAINS
              (tobytes [1; 2; 3; 4; 5; 6; 7; 8]%Z) H1 H2 H3)
    as (_ & Hlen & _ & _ & Hdiv).
  split; [ exact H1 | split; [ exact H2 | split; [ exact H3 | split ] ] ].
  - exact Hlen.
  - exact (Hdiv eq_refl).
Defined.

(** C3, as stated, fails on a misaligned frame: five samples are not a
    multiple of four channels, yet no error is raised; the fifth sample is
    dropped and the result is the one for the first four samples. *)
Lemma parse_audio_data_truncates_silently :
  let raw := tobytes [1; 2; 3; 4; 5]%Z in
  length (int16_samples raw) = 5 /\
  parse_audio_data_body DEFAULT_MIC_GAINS raw =
    Ok [[(1 * 1)%R]; [(2 * 1)%R]; [(3 * 1)%R]; [(4 * 1)%R]] /\
  parse_audio_data DEFAULT_MIC_GAINS raw =
    parse_audio_data DEFAULT_MIC_GAINS (tobytes [1; 2; 3; 4]%Z) /\
  list_sum (map (@length R) (parse_audio_data DEFAULT_MIC_GAINS raw)) = 4.
Proof.
  cbv zeta. repeat split; cbv - [Rmult IZR]; reflexivity.
Qed.

(** C10.  When the input holds fewer than [CHANNELS] 16-bit samples (the
    empty input included), and whenever the body of the parser raises, the
    result is [CHANNELS] channels of one zero sample each; for every input
    whatsoever the parser returns [CHANNELS] channels, none of them empty. *)
Theorem parse_audio_data_always_nonempty_channels
    (mic_gains : list R) (raw_data : list byte) :
  let channels := parse_audio_data mic_gains raw_data in
  (length raw_data / 2 < CHANNELS -> channels = repeat [0%R] CHANNELS) /\
  (forall e, parse_audio_data_body mic_gains raw_data = Raise e ->
             channels = repeat [0%R] CHANNELS) /\
  length channels = CHANNELS /\
  Forall (fun ch => ch <> []) channels.
Proof.
  cbv zeta.
  assert (Hzero : length zero_channels = CHANNELS /\
                  Forall (fun ch : list R => ch <> []) zero_channels).
  { split; [ reflexivity | ]. repeat constructor; discriminate. }
  split; [ | split ].
  - intros Hshort. unfold parse_audio_data, parse_audio_data_body, frombuffer_int16.
    destruct (Nat.even (length raw_data)); cbn [bind try_except]; [ | reflexivity ].
    rewrite int16_samples_length.
    destruct (Nat.ltb_spec (length raw_data / 2) CHANNELS) as [_ | Hge];
      [ reflexivity | lia ].
  - intros e He. unfold parse_audio_data. rewrite He. reflexivity.
  - unfold parse_audio_data.
    destruct (parse_audio_data_body mic_gains raw_data) as [channels | e] eqn:Hbody;
      cbn [try_except]; [ | exact Hzero ].
    unfold parse_audio_data_body, frombuffer_int16 in Hbody.
    destruct (Nat.even (length raw_data)); cbn [bind] in Hbody; [ | discriminate ].
    set (samples := int16_samples raw_data) in *.
    destruct (Nat.ltb_spec (length samples) CHANNELS) as [Hlt | Hge].
    + inversion Hbody; subst. exact Hzero.
    + destruct (for_range_spec _ _ _ Hbody) as [Hlen Hk].
      split; [ exact Hlen | ].
      apply Forall_forall. intros ch Hin.
      apply In_nth_error in Hin as (i & Hi).
      assert (Hlt : i < CHANNELS).
      { rewrite <- Hlen. apply nth_error_Some. congruence. }
      destruct (Hk i Hlt) as (x & Hx & Hfx). rewrite Hi in Hx.
      inversion Hx; subst x. simpl in Hfx.
      destruct (py_index mic_gains i) as [g | e]; cbn [bind] in Hfx;
        [ | discriminate ].
      inversion Hfx; subst ch.
      rewrite column_of_usable by exact Hlt.
      assert (Hrows : 1 <= length samples / CHANNELS).
      { apply Nat.div_le_lower_bound; unfold CHANNELS in *; lia. }
      destruct (length samples / CHANNELS); [ lia | ]. discriminate.
Qed.

Lemma parse_audio_data_always_nonempty_channels_witness :
  length (tobytes [7; 8; 9]%Z) / 2 < CHANNELS /\
  parse_audio_data DEFAULT_MIC_GAINS (tobytes [7; 8; 9]%Z) = repeat [0%R] CHANNELS /\
  parse_audio_data_body DEFAULT_MIC_GAINS [x01; x02; x03; x04; x05; x06; x07; x08; x09]
    = Raise ValueError /\
  parse_audio_data DEFAULT_MIC_GAINS [x01; x02; x03; x04; x05; x06; x07; x08; x09]
    = repeat [0%R] CHANNELS.
Proof.
  assert (H1 : length (tobytes [7; 8; 9]%Z) / 2 < CHANNELS)
    by (vm_compute; lia).
  assert (H2 : parse_audio_data_body DEFAULT_MIC_GAINS
                 [x01; x02; x03; x04; x05; x06; x07; x08; x09] = Raise ValueError)
    by reflexivity.
  split; [ exact H1 | split; [ | split; [ exact H2 | ] ] ].
  - exact (proj1 (parse_audio_data_always_nonempty_channels DEFAULT_MIC_GAINS
                    (tobytes [7; 8; 9]%Z)) H1).
  - exact (proj1 (proj2 (parse_audio_data_always_nonempty_channels DEFAULT_MIC_GAINS
                           [x01; x02; x03; x04; x05; x06; x07; x08; x09]))
             ValueError H2).
Defined.

(** ** DirectionFuser *)

Section DirectionFuser.
Local Open Scope R_scope.

Lemma py_index_ok (A : Type) (l : list A) (i : nat) (d : A) :
  (i < length l)%nat -> py_index l i = Ok (nth i l d).
Proof.
  intros Hi. unfold py_index.
  destruct (nth_error l i) as [x | ] eqn:E.
  - now rewrite (nth_error_nth _ _ d E).
  - apply nth_error_None in E. lia.
Qed.

Lemma nth_map_lt (A B : Type) (f : A -> B) (l : list A) (d' : B) (d : A) (i : nat) :
  (i < length l)%nat -> nth i (map f l) d' = f (nth i l d).
Proof.
  revert i. induction l as [ | x l IH]; intros [ | i] Hi; simpl in *; try lia.
  - reflexivity.
  - apply IH. lia.
Qed.

Lemma Rgtb_true (x y : R) : Rgtb x y = true <-> x > y.
Proof. unfold Rgtb. destruct (Rgt_dec x y); split; auto; discriminate. Qed.

Lemma Rgtb_false (x y : R) : Rgtb x y = false <-> x <= y.
Proof.
  unfold Rgtb. destruct (Rgt_dec x y); split; auto; try discriminate; lra.
Qed.

(** Settles every comparison of two real numerals in the goal. *)
Ltac decide_Rgtb :=
  repeat match goal with
         | |- context [Rgtb ?a ?b] =>
             first [ replace (Rgtb a b) with true
                       by (symmetry; apply Rgtb_true; lra)
                   | replace (Rgtb a b) with false
                       by (symmetry; apply Rgtb_false; lra) ]
         end.

Lemma norm_nonneg (v : vec2) : 0 <= norm v.
Proof. apply sqrt_pos. Qed.

Lemma norm_zero : norm vzero = 0.
Proof. unfold norm, vzero; simpl. rewrite Rmult_0_l, Rplus_0_l. apply sqrt_0. Qed.

Lemma norm_vscale (k : R) (v : vec2) : 0 <= k -> norm (vscale k v) = k * norm v.
Proof.
  intros Hk. unfold norm, vscale; simpl.
  replace (k * fst v * (k * fst v) + k * snd v * (k * snd v))
    with (k * k * (fst v * fst v + snd v * snd v)) by ring.
  rewrite sqrt_mult; [ | nra | nra ].
  now rewrite sqrt_square.
Qed.

Lemma norm_eq_0 (v : vec2) : norm v = 0 -> v = vzero.
Proof.
  destruct v as [x y]. unfold norm, vzero; simpl. intros H.
  apply sqrt_eq_0 in H; [ | nra ].
  assert (x = 0) by nra. assert (y = 0) by nra. subst. reflexivity.
Qed.

Lemma norm_vdiv_unit (v : vec2) : norm v > 0 -> norm (vdiv v (norm v)) = 1.
Proof.
  intros Hn.
  replace (vdiv v (norm v)) with (vscale (/ norm v) v)
    by (unfold vdiv, vscale; f_equal; unfold Rdiv; ring).
  rewrite norm_vscale.
  - field. lra.
  - left. now apply Rinv_0_lt_compat.
Qed.

Lemma fold_left_Rmax_ge (l : list R) (x : R) : x <= fold_left Rmax l x.
Proof.
  revert x. induction l as [ | y l IH]; intros x; simpl; [ lra | ].
  eapply Rle_trans; [ apply (Rmax_l x y) | apply IH ].
Qed.

Lemma max_abs_ge (delay : list R) (d : R) : In d delay -> Rabs d <= max_abs delay.
Proof.
  unfold max_abs. induction delay as [ | x delay IH]; intros Hin; simpl.
  - contradiction.
  - destruct Hin as [-> | Hin].
    + apply Rmax_l.
    + eapply Rle_trans; [ apply IH; assumption | apply Rmax_r ].
Qed.

(** The accumulation of lines 246-256 is the specification's sum scaled by
    the common positive factor [k = max|delay| / (np.max(|delay|) + 1e-10)]. *)
Lemma fuse_fold (position : list (R * R * R)) (delay : list R) (m : R) :
  0 <= m ->
  (length delay <= length position)%nat ->
  forall (idx : list nat) (D : vec2) (W : R),
    Forall (fun i => (i < length delay)%nat) idx ->
    let k := max_abs delay / (m + 1e-10) in
    let mics := filter (contributes delay) idx in
    fold_left
      (fuse_step position delay (map (fun c => c / (m + 1e-10)) (map Rabs delay)))
      idx (Ok (D, W))
    = Ok (vadd D (vscale k (vsum (map (spec_contribution position delay) mics))),
          W + k * Rsum (map (spec_weight delay) mics)).
Proof.
  intros Hm Hlen idx. induction idx as [ | i idx IH]; intros D W Hidx; cbv zeta.
  - simpl. f_equal. unfold vadd, vscale, vzero; simpl.
    destruct D as [x y]; simpl. f_equal; [ f_equal; ring | ring ].
  - inversion Hidx as [ | ? ? Hi Hrest]; subst.
    cbn [fold_left filter]. unfold fuse_step at 2. cbn [bind].
    rewrite (py_index_ok delay 0 Hi). cbn [bind].
    change (Rgtb (Rabs (nth i delay 0)) 1) with (contributes delay i).
    destruct (contributes delay i) eqn:Hc.
    + assert (Hpos : (0 < length position)%nat) by lia.
      rewrite (py_index_ok position (0, 0, 0)) by lia. cbn [bind].
      rewrite (py_index_ok position (0, 0, 0) Hpos). cbn [bind].
      rewrite (py_index_ok _ 0) by (rewrite !length_map; exact Hi). cbn [bind].
      rewrite IH by assumption. cbv zeta.
      unfold contributes in Hc. apply Rgtb_true in Hc.
      assert (HM : max_abs delay > 1).
      { pose proof (max_abs_ge delay (nth i delay 0) (nth_In _ _ Hi)). lra. }
      assert (Hw : nth i (map (fun c => c / (m + 1e-10)) (map Rabs delay)) 0
                   = max_abs delay / (m + 1e-10) * spec_weight delay i).
      { rewrite (nth_map_lt _ _ 0 (Rabs 0)) by (rewrite length_map; exact Hi).
        rewrite (nth_map_lt _ _ (Rabs 0) 0) by exact Hi.
        unfold spec_weight. field. split; lra. }
      rewrite Hw. cbn [map vsum Rsum fold_right].
      fold (vsum (map (spec_contribution position delay)
                    (filter (contributes delay) idx))).
      fold (Rsum (map (spec_weight delay) (filter (contributes delay) idx))).
      unfold spec_contribution at 2. unfold spec_sign.
      f_equal. unfold vadd, vscale, vmul_r, vsub; simpl.
      f_equal; [ f_equal; ring | ring ].
    + rewrite IH by assumption. reflexivity.
Qed.

Lemma Rsum_spec_weight_pos (delay : list R) (mics : list nat) :
  mics <> [] ->
  Forall (fun i => contributes delay i = true /\ (i < length delay)%nat) mics ->
  Rsum (map (spec_weight delay) mics) > 0.
Proof.
  intros Hne H.
  assert (Hge : forall l, Forall (fun i => contributes delay i = true /\
                                            (i < length delay)%nat) l ->
                          0 <= Rsum (map (spec_weight delay) l) /\
                          (l <> [] -> 0 < Rsum (map (spec_weight delay) l))).
  { induction 1 as [ | i l [Hc Hi] _ [IH0 IH1]]; simpl.
    - split; [ lra | congruence ].
    - unfold contributes in Hc. apply Rgtb_true in Hc.
      pose proof (max_abs_ge delay (nth i delay 0) (nth_In _ _ Hi)) as HM.
      assert (0 < spec_weight delay i).
      { unfold spec_weight. apply Rdiv_lt_0_compat; lra. }
      split; [ lra | intros _; lra ]. }
  apply (Hge mics H). exact Hne.
Qed.

Lemma tdoa_to_direction_refines (position : list (R * R * R)) (delay : list R)
    (active : bool) :
  (length delay <= length position)%nat ->
  tdoa_to_direction position delay active = fuser_spec position delay active.
Proof.
  intros Hlen. unfold tdoa_to_direction, tdoa_to_direction_body, fuser_spec.
  destruct active; cbn [negb]; [ | reflexivity ].
  destruct delay as [ | d0 rest] eqn:Ed.
  - cbn. unfold Rgtb. destruct (Rgt_dec 0 0); [ lra | reflexivity ].
  - rewrite <- Ed in *.
    assert (Hmax : np_max (map Rabs delay) =
                   Ok (fold_left Rmax (map Rabs rest) (Rabs d0))).
    { rewrite Ed. reflexivity. }
    rewrite Hmax. cbn [bind].
    set (m := fold_left Rmax (map Rabs rest) (Rabs d0)).
    assert (Hm : 0 <= m).
    { unfold m. eapply Rle_trans; [ apply Rabs_pos | apply fold_left_Rmax_ge ]. }
    assert (Hidx : Forall (fun i => (i < length delay)%nat)
                     (seq 1 (length delay - 1))).
    { apply Forall_forall. intros i Hi. apply in_seq in Hi. lia. }
    rewrite (fuse_fold position delay Hm Hlen vzero 0 Hidx). cbv zeta. cbn [bind].
    set (mics := filter (contributes delay) (seq 1 (length delay - 1))).
    assert (Hmics : Forall (fun i => contributes delay i = true /\
                                     (i < length delay)%nat) mics).
    { apply Forall_forall. intros i Hi. unfold mics in Hi.
      apply filter_In in Hi as [Hi Hc]. apply in_seq in Hi. split; [ exact Hc | lia ]. }
    clearbody mics.
    set (k := max_abs delay / (m + 1e-10)).
    assert (HD : forall Ds, vadd vzero (vscale k Ds) = vscale k Ds).
    { intros Ds. unfold vadd, vscale, vzero; simpl. f_equal; ring. }
    rewrite HD. replace (0 + k * Rsum (map (spec_weight delay) mics))
      with (k * Rsum (map (spec_weight delay) mics)) by ring.
    destruct mics as [ | i0 mics'].
    + (* no microphone contributes *)
      cbn [map vsum Rsum fold_right].
      replace (k * 0) with 0 by ring.
      unfold Rgtb at 1 3. destruct (Rgt_dec 0 0); [ lra | reflexivity ].
    + set (Ds := vsum (map (spec_contribution position delay) (i0 :: mics'))).
      set (Ws := Rsum (map (spec_weight delay) (i0 :: mics'))).
      assert (HWs : Ws > 0).
      { unfold Ws. apply Rsum_spec_weight_pos; [ discriminate | exact Hmics ]. }
      assert (Hk : k > 0).
      { unfold k. destruct (Forall_inv Hmics) as [Hc Hi].
        unfold contributes in Hc. apply Rgtb_true in Hc.
        pose proof (max_abs_ge delay (nth i0 delay 0) (nth_In _ _ Hi)).
        apply Rdiv_lt_0_compat; lra. }
      replace (Rgtb (k * Ws) 0) with true
        by (symmetry; apply Rgtb_true; nra).
      replace (Rgtb Ws 0) with true by (symmetry; apply Rgtb_true; lra).
      cbn [andb]. rewrite norm_vscale by lra.
      pose proof (norm_nonneg Ds) as Hn.
      unfold Reqb. destruct (Req_dec_T (norm Ds) 0) as [Hz | Hnz]; cbn [negb].
      * rewrite Hz. replace (k * 0) with 0 by ring.
        unfold Rgtb. destruct (Rgt_dec 0 0); [ lra | reflexivity ].
      * replace (Rgtb (k * norm Ds) 0) with true
          by (symmetry; apply Rgtb_true; nra).
        cbn [try_except]. unfold vdiv, vscale; simpl.
        f_equal; field; split; lra.
Qed.

Lemma fuse_fold_silent (position : list (R * R * R)) (delay conf : list R) :
  Forall (fun d => d = 0) delay ->
  forall (idx : list nat) (acc : result (vec2 * R)),
    fold_left (fuse_step position delay conf) idx acc = acc \/
    exists e, fold_left (fuse_step position delay conf) idx acc = Raise e.
Proof.
  intros Hz idx. induction idx as [ | i idx IH]; intros acc; simpl; [ now left | ].
  assert (Hstep : fuse_step position delay conf acc i = acc \/
                  exists e, fuse_step position delay conf acc i = Raise e).
  { unfold fuse_step. destruct acc as [[D W] | e]; cbn [bind]; [ | right; eauto ].
    destruct (py_index delay i) as [d | e] eqn:E; cbn [bind]; [ | right; eauto ].
    unfold py_index in E. destruct (nth_error delay i) as [d' | ] eqn:E';
      inversion E; subst d'.
    apply nth_error_In in E'. rewrite Forall_forall in Hz. rewrite (Hz d E').
    rewrite Rabs_R0.
    replace (Rgtb 0 1) with false by (symmetry; apply Rgtb_false; lra).
    now left. }
  destruct Hstep as [-> | (e & ->)]; [ apply IH | ].
  right. exists e. clear. induction idx as [ | j idx IH]; simpl; auto.
Qed.

(** A worked evaluation: a delay of 5 samples at microphone 1 alone points
    away from microphone 1 along the axis from microphone 0 to it. *)
Example tdoa_to_direction_single_delay :
  tdoa_to_direction MIC_POSITIONS [0; 5; 0; 0] true = (0, -1).
Proof.
  rewrite tdoa_to_direction_refines by (simpl; lia).
  unfold fuser_spec. cbn [negb length Nat.sub seq filter].
  unfold contributes. cbn [nth].
  rewrite Rabs_R0, (Rabs_pos_eq 5) by lra.
  decide_Rgtb. cbn [map vsum Rsum fold_right].
  assert (Hmax : max_abs [0; 5; 0; 0] = 5).
  { unfold max_abs. cbn [map fold_right].
    rewrite Rabs_R0, (Rabs_pos_eq 5) by lra.
    unfold Rmax. repeat (destruct (Rle_dec _ _); try lra). }
  assert (Hw : spec_weight [0; 5; 0; 0] 1 = 1).
  { unfold spec_weight. rewrite Hmax. cbn [nth].
    rewrite (Rabs_pos_eq 5) by lra. field. }
  assert (HD : vadd (spec_contribution MIC_POSITIONS [0; 5; 0; 0] 1) vzero
               = (0, - (3 / 20))).
  { unfold spec_contribution, spec_sign. rewrite Hw. cbn [nth].
    decide_Rgtb. unfold vadd, vscale, vsub, xy, vzero, MIC_POSITIONS; simpl.
    f_equal; lra. }
  rewrite HD, Hw.
  assert (Hn : norm (0, - (3 / 20)) = 3 / 20).
  { unfold norm; simpl.
    replace (0 * 0 + - (3 / 20) * - (3 / 20)) with ((3 / 20) * (3 / 20)) by lra.
    apply sqrt_square. lra. }
  rewrite Hn. replace (1 + 0) with 1 by lra.
  unfold Reqb. destruct (Req_dec_T (3 / 20) 0) as [H | _]; [ lra | ].
  decide_Rgtb. cbn [andb negb]. unfold vdiv; simpl. f_equal; lra.
Qed.

(** C5.  Inactive input gives the zero vector at once.  Active input gives
    the fusion the specification describes: only microphones [i >= 1] with
    [|delay[i]| > 1] contribute [sign[i] * weight[i] * (position_i -
    position_0)], with [sign[i] = -1] if [delay[i] > 0] else [+1] and
    [weight[i] = |delay[i]| / max|delay|], and the sum is normalised when the
    total weight is positive and its norm is nonzero, and is the zero vector
    otherwise.  The result always has norm 1 or is the zero vector, and an
    all-zero delay vector yields the zero vector. *)
Theorem tdoa_to_direction_fuses :
  (forall (position : list (R * R * R)) (delay : list R),
      tdoa_to_direction position delay false = vzero)
  /\
  (forall (position : list (R * R * R)) (delay : list R) (active : bool),
      (length delay <= length position)%nat ->
      tdoa_to_direction position delay active = fuser_spec position delay active)
  /\
  (forall (position : list (R * R * R)) (delay : list R) (active : bool),
      norm (tdoa_to_direction position delay active) = 1 \/
      tdoa_to_direction position delay active = vzero)
  /\
  (forall (position : list (R * R * R)) (delay : list R),
      Forall (fun d => d = 0) delay ->
      tdoa_to_direction position delay true = vzero).
Proof.
  split; [ | split; [ | split ] ].
  - reflexivity.
  - intros position delay active Hlen. now apply tdoa_to_direction_refines.
  - intros position delay active.
    unfold tdoa_to_direction, tdoa_to_direction_body.
    destruct active; cbn [negb]; [ | now right ].
    destruct (np_max (map Rabs delay)) as [m | e]; cbn [bind try_except];
      [ | now right ].
    destruct (fold_left _ _ _) as [[D W] | e]; cbn [bind try_except];
      [ | now right ].
    destruct (Rgtb W 0); cbn [andb try_except]; [ | now right ].
    destruct (Rgtb (norm D) 0) eqn:Hn; cbn [try_except]; [ | now right ].
    left. apply norm_vdiv_unit. now apply Rgtb_true.
  - intros position delay Hz.
    unfold tdoa_to_direction, tdoa_to_direction_body. cbn [negb].
    destruct (np_max (map Rabs delay)) as [m | e]; cbn [bind try_except];
      [ | reflexivity ].
    destruct (fuse_fold_silent position
                (map (fun c => c / (m + 1e-10)) (map Rabs delay)) Hz
                (seq 1 (length delay - 1)) (Ok (vzero, 0))) as [-> | (e & ->)];
      cbn [bind try_except]; [ | reflexivity ].
    replace (Rgtb 0 0) with false by (symmetry; apply Rgtb_false; lra).
    reflexivity.
Qed.

Lemma tdoa_to_direction_fuses_witness :
  (length [0; 5; 0; -3]%R <= length MIC_POSITIONS)%nat /\
  tdoa_to_direction MIC_POSITIONS [0; 5; 0; -3] true
    = fuser_spec MIC_POSITIONS [0; 5; 0; -3] true /\
  Forall (fun d => d = 0) [0; 0; 0; 0] /\
  tdoa_to_direction MIC_POSITIONS [0; 0; 0; 0] true = vzero.
Proof.
  assert (H1 : (length [0; 5; 0; -3]%R <= length MIC_POSITIONS)%nat)
    by (simpl; lia).
  assert (H2 : Forall (fun d => d = 0) [0; 0; 0; 0])
    by (repeat constructor).
  split; [ exact H1 | split; [ | split; [ exact H2 | ] ] ].
  - exact (proj1 (proj2 tdoa_to_direction_fuses) MIC_POSITIONS [0; 5; 0; -3] true H1).
  - exact (proj2 (proj2 (proj2 tdoa_to_direction_fuses)) MIC_POSITIONS [0; 0; 0; 0] H2).
Defined.

End DirectionFuser.

(** ** TemporalSmoother *)

Section TemporalSmoother.
Local Open Scope R_scope.

Lemma norm_unit_y (y : R) : y * y = 1 -> norm (0, y) = 1.
Proof.
  intros Hy. unfold norm; simpl. rewrite Rmult_0_l, Rplus_0_l, Hy. apply sqrt_1.
Qed.

Lemma put_nowait_full (A : Type) (q : Queue A) (x : A) :
  (0 < maxsize q)%nat -> (maxsize q <= length (items q))%nat ->
  put_nowait q x = Raise QueueFull.
Proof.
  intros Hpos Hfull. unfold put_nowait.
  replace (0 <? maxsize q)%nat with true by (symmetry; now apply Nat.ltb_lt).
  replace (maxsize q <=? length (items q))%nat with true
    by (symmetry; now apply Nat.leb_le).
  reflexivity.
Qed.

Lemma put_nowait_room (A : Type) (q : Queue A) (x : A) :
  (length (items q) < maxsize q)%nat ->
  put_nowait q x = Ok (mkQueue (items q ++ [x]) (maxsize q)).
Proof.
  intros Hroom. unfold put_nowait.
  replace (maxsize q <=? length (items q))%nat with false
    by (symmetry; now apply Nat.leb_gt).
  now rewrite andb_false_r.
Qed.

Lemma smooth_zero_direction (window : list vec2) (d : vec2) :
  norm d = 0 -> smooth window d = ([], vzero).
Proof.
  intros Hd. unfold smooth. rewrite Hd.
  replace (Rgtb 0 0) with false by (symmetry; apply Rgtb_false; lra).
  reflexivity.
Qed.

Lemma np_mean_singleton (d : vec2) : np_mean [d] = d.
Proof.
  destruct d as [x y]. unfold np_mean, vdiv, vadd, vzero; simpl.
  f_equal; field.
Qed.

Lemma smooth_nonzero (window : list vec2) (d : vec2) :
  norm d > 0 ->
  let window' := if (buffer_size <? length (window ++ [d]))%nat
                 then tl (window ++ [d]) else window ++ [d] in
  smooth window d =
    (window',
     if Rgtb (norm (np_mean window')) 0
     then vdiv (np_mean window') (norm (np_mean window'))
     else np_mean window').
Proof.
  intros Hd. cbv zeta. unfold smooth.
  replace (Rgtb (norm d) 0) with true by (symmetry; now apply Rgtb_true).
  set (w' := if (buffer_size <? length (window ++ [d]))%nat
             then tl (window ++ [d]) else window ++ [d]).
  assert (Hlen : (0 < length w')%nat).
  { unfold w'. rewrite length_app. simpl.
    destruct (Nat.ltb_spec buffer_size (length window + 1)) as [Hgt | Hle].
    - destruct window as [ | x window]; simpl in *.
      + unfold buffer_size in Hgt. lia.
      + rewrite length_app. simpl. lia.
    - rewrite length_app. simpl. lia. }
  replace (0 <? length w')%nat with true by (symmetry; now apply Nat.ltb_lt).
  reflexivity.
Qed.

Lemma smooth_first (d : vec2) :
  norm d > 0 -> smooth [] d = ([d], vdiv d (norm d)).
Proof.
  intros Hd. rewrite (@smooth_nonzero [] d Hd). cbn [app length tl].
  replace (buffer_size <? 1)%nat with false by reflexivity.
  rewrite np_mean_singleton.
  replace (Rgtb (norm d) 0) with true by (symmetry; now apply Rgtb_true).
  reflexivity.
Qed.

(** C2 (amended).  For an active estimate: a zero direction clears the
    window and emits the zero vector, so the first nonzero estimate after it
    is smoothed over a window holding only itself and comes out as its own
    normalised direction; a nonzero direction is pushed, the oldest entry is
    evicted when the window would exceed [buffer_size = 5], and the emitted
    value is the mean of the window, re-normalised to unit length when that
    mean is nonzero and the zero vector when the mean vanishes.  The emitted
    value is what is put last on [direction_queue]. *)
Theorem smoother_window_and_output :
  (forall (window : list vec2) (d : vec2),
      norm d = 0 -> smooth window d = ([], vzero))
  /\
  (forall d : vec2, norm d > 0 -> smooth [] d = ([d], vdiv d (norm d)))
  /\
  (forall (window : list vec2) (d : vec2),
      norm d > 0 ->
      (length window <= buffer_size)%nat ->
      let window' := if (length window <? buffer_size)%nat
                     then window ++ [d] else tl window ++ [d] in
      let out := snd (smooth window d) in
      fst (smooth window d) = window' /\
      (length window' <= buffer_size)%nat /\
      (norm (np_mean window') > 0 ->
         out = vdiv (np_mean window') (norm (np_mean window')) /\ norm out = 1) /\
      (norm (np_mean window') = 0 -> out = vzero))
  /\
  (forall (st : Processor) (d : vec2),
      maxsize (direction_queue st) = 5%nat ->
      (length (items (direction_queue st)) <= 5)%nat ->
      let st' := process_estimate st true d in
      directions_buffer st' = fst (smooth (directions_buffer st) d) /\
      last (items (direction_queue st')) vzero = snd (smooth (directions_buffer st) d)).
Proof.
  split; [ | split; [ | split ] ].
  - exact smooth_zero_direction.
  - exact smooth_first.
  - intros window d Hd Hlen. cbv zeta. rewrite (@smooth_nonzero window d Hd).
    cbn [fst snd].
    assert (Hw : (if (buffer_size <? length (window ++ [d]))%nat
                  then tl (window ++ [d]) else window ++ [d])
                 = (if (length window <? buffer_size)%nat
                    then window ++ [d] else tl window ++ [d])).
    { rewrite length_app. simpl.
      destruct (Nat.ltb_spec buffer_size (length window + 1)) as [Hgt | Hle];
        destruct (Nat.ltb_spec (length window) buffer_size) as [Hlt | Hge];
        try lia; try reflexivity.
      destruct window as [ | x window]; [ simpl in Hge; unfold buffer_size in Hge; lia | ].
      reflexivity. }
    rewrite Hw.
    set (w' := if (length window <? buffer_size)%nat
               then window ++ [d] else tl window ++ [d]).
    split; [ reflexivity | ]. split.
    { unfold w'. destruct (Nat.ltb_spec (length window) buffer_size) as [Hlt | Hge];
        rewrite length_app; simpl.
      - lia.
      - unfold buffer_size in *. destruct window as [ | x window]; simpl in *; lia. }
    split.
    + intros Hm.
      replace (Rgtb (norm (np_mean w')) 0) with true
        by (symmetry; now apply Rgtb_true).
      split; [ reflexivity | now apply norm_vdiv_unit ].
    + intros Hm. rewrite Hm.
      replace (Rgtb 0 0) with false by (symmetry; apply Rgtb_false; lra).
      now apply norm_eq_0.
  - intros st d Hmax Hlen. cbv zeta. unfold process_estimate. cbn [negb].
    destruct (smooth (directions_buffer st) d) as [buf avg]. cbn [fst snd].
    split; [ reflexivity | ]. cbn [direction_queue].
    unfold publish_direction.
    destruct (Nat.le_gt_cases 5 (length (items (direction_queue st)))) as [Hfull | Hroom].
    + rewrite put_nowait_full by lia.
      unfold get_nowait.
      destruct (items (direction_queue st)) as [ | x rest] eqn:Eit;
        [ simpl in Hfull; lia | ].
      rewrite put_nowait_room by (cbn [items maxsize]; simpl in Hlen; lia).
      cbn [items]. apply last_last.
    + rewrite put_nowait_room by lia. cbn [items]. apply last_last.
Qed.

Lemma smoother_window_and_output_witness :
  norm (0, 1) > 0 /\
  smooth [] (0, 1) = ([(0, 1)], vdiv (0, 1) (norm (0, 1))) /\
  norm (0, 0) = 0 /\
  smooth [(0, 1); (0, 1)] (0, 0) = ([], vzero).
Proof.
  assert (H1 : norm (0, 1) > 0).
  { rewrite norm_unit_y by lra. lra. }
  assert (H2 : norm (0, 0) = 0) by exact norm_zero.
  split; [ exact H1 | split; [ | split; [ exact H2 | ] ] ].
  - exact (proj1 (proj2 smoother_window_and_output) (0, 1) H1).
  - exact (proj1 smoother_window_and_output [(0, 1); (0, 1)] (0, 0) H2).
Defined.

(** C2, as stated, fails for an active nonzero estimate whose window mean
    vanishes: after the unit direction [(0,-1)] the unit direction [(0,1)]
    is pushed, the window holds both, their mean is the zero vector and the
    zero vector is emitted, which is not of unit length. *)
Lemma smoother_opposed_directions_emit_zero :
  let st1 := process_estimate processor_init true (0, -1) in
  let st2 := process_estimate st1 true (0, 1) in
  norm (0, 1) = 1 /\
  directions_buffer st2 = [(0, -1); (0, 1)] /\
  items (direction_queue st2) = [(0, -1); (0, 0)] /\
  norm (last (items (direction_queue st2)) (0, 1)) = 0.
Proof.
  cbv zeta.
  assert (Hn1 : norm (0, -1) = 1) by (apply norm_unit_y; lra).
  assert (Hn2 : norm (0, 1) = 1) by (apply norm_unit_y; lra).
  assert (Hs1 : smooth [] (0, -1) = ([(0, -1)], (0, -1))).
  { rewrite smooth_first by lra.
    rewrite Hn1. unfold vdiv; simpl. f_equal. f_equal; field. }
  assert (Hmean : np_mean [(0, -1); (0, 1)] = (0, 0)).
  { unfold np_mean, vdiv, vadd, vzero; simpl. f_equal; field. }
  assert (Hs2 : smooth [(0, -1)] (0, 1) = ([(0, -1); (0, 1)], (0, 0))).
  { rewrite smooth_nonzero by lra. cbn [app length tl].
    replace (buffer_size <? 2)%nat with false by reflexivity.
    cbv iota.
    match goal with
    | |- context [np_mean ?w] =>
        replace (np_mean w) with vzero by (symmetry; exact Hmean)
    end.
    rewrite norm_zero.
    replace (Rgtb 0 0) with false by (symmetry; apply Rgtb_false; lra).
    reflexivity. }
  unfold process_estimate, processor_init. cbn [negb directions_buffer direction_queue].
  rewrite Hs1. cbn [directions_buffer direction_queue]. rewrite Hs2.
  cbn [directions_buffer direction_queue].
  split; [ exact Hn2 | ]. split; [ reflexivity | ].
  split; [ reflexivity | ].
  cbn. fold vzero. apply norm_zero.
Qed.

(** On the inactive path (lines 448-450) the window is left as it is: the
    estimate that follows silence is averaged with the directions heard
    before it. *)
Lemma inactive_frame_keeps_window (st : Processor) (d : vec2) :
  directions_buffer (process_estimate st false d) = directions_buffer st.
Proof.
  unfold process_estimate. cbn [negb].
  destruct (put_nowait (direction_queue st) vzero); reflexivity.
Qed.

Lemma estimate_after_silence_is_blended :
  let st1 := process_estimate processor_init true (1, 0) in
  let st2 := process_estimate st1 false vzero in
  let st3 := process_estimate st2 true (0, 1) in
  directions_buffer st2 = [(1, 0)] /\
  last (items (direction_queue st2)) (1, 1) = vzero /\
  directions_buffer st3 = [(1, 0); (0, 1)] /\
  fst (last (items (direction_queue st3)) vzero) > 0.
Proof.
  cbv zeta.
  assert (Hn1 : norm (1, 0) = 1).
  { unfold norm; simpl. replace (1 * 1 + 0 * 0) with 1 by lra. apply sqrt_1. }
  assert (Hn2 : norm (0, 1) = 1) by (apply norm_unit_y; lra).
  assert (Hs1 : smooth [] (1, 0) = ([(1, 0)], (1, 0))).
  { rewrite smooth_first by lra. rewrite Hn1. unfold vdiv; simpl.
    f_equal. f_equal; field. }
  assert (Hmean : np_mean [(1, 0); (0, 1)] = (1 / 2, 1 / 2)).
  { unfold np_mean, vdiv, vadd, vzero; simpl. f_equal; field. }
  assert (Hnm : norm (1 / 2, 1 / 2) > 0).
  { unfold norm; simpl. apply sqrt_lt_R0. lra. }
  assert (Hs2 : smooth [(1, 0)] (0, 1)
                = ([(1, 0); (0, 1)], vdiv (1 / 2, 1 / 2) (norm (1 / 2, 1 / 2)))).
  { rewrite smooth_nonzero by lra. cbn [app length tl].
    replace (buffer_size <? 2)%nat with false by reflexivity.
    cbv iota.
    match goal with
    | |- context [np_mean ?w] =>
        replace (np_mean w) with (1 / 2, 1 / 2) by (symmetry; exact Hmean)
    end.
    replace (Rgtb (norm (1 / 2, 1 / 2)) 0) with true
      by (symmetry; now apply Rgtb_true).
    reflexivity. }
  assert (E1 : process_estimate processor_init true (1, 0)
               = mkProcessor [(1, 0)] (mkQueue [(1, 0)] 5)).
  { unfold process_estimate, processor_init.
    cbn [negb directions_buffer direction_queue]. rewrite Hs1.
    unfold publish_direction. rewrite put_nowait_room by (simpl; lia).
    reflexivity. }
  rewrite E1.
  assert (E2 : process_estimate (mkProcessor [(1, 0)] (mkQueue [(1, 0)] 5)) false vzero
               = mkProcessor [(1, 0)] (mkQueue [(1, 0); vzero] 5)).
  { unfold process_estimate. cbn [negb directions_buffer direction_queue].
    rewrite put_nowait_room by (simpl; lia). reflexivity. }
  rewrite E2.
  assert (E3 : process_estimate (mkProcessor [(1, 0)] (mkQueue [(1, 0); vzero] 5))
                 true (0, 1)
               = mkProcessor [(1, 0); (0, 1)]
                   (mkQueue [(1, 0); vzero;
                             vdiv (1 / 2, 1 / 2) (norm (1 / 2, 1 / 2))] 5)).
  { unfold process_estimate. cbn [negb directions_buffer direction_queue].
    rewrite Hs2. unfold publish_direction.
    rewrite put_nowait_room by (simpl; lia). reflexivity. }
  rewrite E3. cbn [directions_buffer direction_queue items].
  split; [ reflexivity | ]. split; [ reflexivity | ]. split; [ reflexivity | ].
  cbn. apply Rdiv_lt_0_compat; [ lra | exact Hnm ].
Qed.

End TemporalSmoother.

(** ** BandpassStage *)

Section BandpassStage.
Local Open Scope R_scope.

Lemma lfilter_from_length (b a : list R) (x : list R) :
  forall x_past y_past : list R,
    length (lfilter_from b a x_past y_past x) = length x.
Proof.
  induction x as [ | xn x IH]; intros x_past y_past; simpl; [ reflexivity | ].
  now rewrite IH.
Qed.

Lemma lfilter_length (b a x : list R) : length (lfilter b a x) = length x.
Proof. apply lfilter_from_length. Qed.

Lemma apply_bandpass_filter_shape
    (butter : nat -> R -> R -> result (list R * list R))
    (channels : list (list R)) (low_freq high_freq : R) :
  let filtered := fst (apply_bandpass_filter butter channels low_freq high_freq) in
  length filtered = length channels /\
  forall i : nat, length (nth i filtered []) = length (nth i channels []).
Proof.
  cbv zeta. unfold apply_bandpass_filter. cbn [fst].
  destruct (butter 4%nat _ _) as [[b a] | e]; cbn [bind try_except].
  - split; [ apply length_map | ].
    intros i. destruct (Nat.lt_ge_cases i (length channels)) as [Hi | Hi].
    + rewrite (nth_map_lt (lfilter b a) channels [] [] Hi). apply lfilter_length.
    + rewrite !nth_overflow; [ reflexivity | exact Hi | now rewrite length_map ].
  - split; reflexivity.
Qed.

Lemma bandpass_frames_calls
    (butter : nat -> R -> R -> result (list R * list R))
    (frames : list (list (list R))) :
  snd (bandpass_frames butter frames)
    = repeat (ButterCall 4 (300 / (0.5 * SAMPLE_RATE))
                           (3000 / (0.5 * SAMPLE_RATE)))
             (length frames).
Proof.
  induction frames as [ | channels frames IH]; [ reflexivity | ].
  cbn [bandpass_frames length repeat].
  unfold apply_bandpass_filter at 1.
  destruct (bandpass_frames butter frames) as [outs calls'].
  cbn [snd] in *. rewrite IH. reflexivity.
Qed.

(** C7 (amended).  The coefficients requested from the designer depend only
    on the sample rate and the two cutoff frequencies, and the designer is
    called anew by every call of the filter stage, once per processed frame,
    each time with the same arguments.  For every channel set the output has
    the same number of channels, each of the length of its input channel and
    in the same order: output channel [i] is input channel [i] filtered, or
    input channel [i] itself when the designer raises. *)
Theorem bandpass_designs_per_frame_and_keeps_shape :
  (forall (butter : nat -> R -> R -> result (list R * list R))
          (channels : list (list R)) (low_freq high_freq : R),
      snd (apply_bandpass_filter butter channels low_freq high_freq)
        = [ButterCall 4 (low_freq / (0.5 * SAMPLE_RATE))
                        (high_freq / (0.5 * SAMPLE_RATE))])
  /\
  (forall (butter : nat -> R -> R -> result (list R * list R))
          (frames : list (list (list R))),
      snd (bandpass_frames butter frames)
        = repeat (ButterCall 4 (300 / (0.5 * SAMPLE_RATE))
                               (3000 / (0.5 * SAMPLE_RATE)))
                 (length frames))
  /\
  (forall (butter : nat -> R -> R -> result (list R * list R))
          (channels : list (list R)) (low_freq high_freq : R),
      let filtered := fst (apply_bandpass_filter butter channels low_freq high_freq) in
      length filtered = length channels /\
      (forall i : nat, length (nth i filtered []) = length (nth i channels [])) /\
      (forall (i : nat) (b a : list R),
          (i < length channels)%nat ->
          butter 4%nat (low_freq / (0.5 * SAMPLE_RATE))
                       (high_freq / (0.5 * SAMPLE_RATE)) = Ok (b, a) ->
          nth i filtered [] = lfilter b a (nth i channels [])) /\
      (forall e : exn,
          butter 4%nat (low_freq / (0.5 * SAMPLE_RATE))
                       (high_freq / (0.5 * SAMPLE_RATE)) = Raise e ->
          filtered = channels)).
Proof.
  split; [ | split ].
  - reflexivity.
  - exact bandpass_frames_calls.
  - intros butter channels low_freq high_freq. cbv zeta.
    destruct (apply_bandpass_filter_shape butter channels low_freq high_freq)
      as [Hlen Hnth].
    split; [ exact Hlen | ]. split; [ exact Hnth | ].
    unfold apply_bandpass_filter. cbn [fst]. split.
    + intros i b a Hi Hb. rewrite Hb. cbn [bind try_except].
      apply (nth_map_lt (lfilter b a) channels [] [] Hi).
    + intros e He. rewrite He. reflexivity.
Qed.

Lemma bandpass_designs_per_frame_and_keeps_shape_witness :
  let butter := fun (_ : nat) (_ _ : R) => Ok ([1], [1]) in
  let channels := [[1; 2; 3]; [4; 5; 6]] in
  (1 < length channels)%nat /\
  butter 4%nat (300 / (0.5 * SAMPLE_RATE)) (3000 / (0.5 * SAMPLE_RATE))
    = Ok ([1], [1]) /\
  nth 1 (fst (apply_bandpass_filter butter channels 300 3000)) []
    = lfilter [1] [1] (nth 1 channels []).
Proof.
  cbv zeta.
  assert (H1 : (1 < length [[1; 2; 3]; [4; 5; 6]])%nat) by (simpl; lia).
  split; [ exact H1 | split; [ reflexivity | ] ].
  exact (proj1 (proj2 (proj2
           (proj2 (proj2 bandpass_designs_per_frame_and_keeps_shape)
              (fun (_ : nat) (_ _ : R) => Ok ([1], [1]))
              [[1; 2; 3]; [4; 5; 6]] 300 3000)))
           1%nat [1] [1] H1 eq_refl).
Defined.

(** C7, as stated, fails: the coefficients are not computed once and
    reused.  Whatever the designer returns, filtering two frames calls it
    twice, with the same arguments both times. *)
Lemma bandpass_designs_filter_twice_for_two_frames :
  (forall butter : nat -> R -> R -> result (list R * list R),
      snd (bandpass_frames butter [[[1; 2]; [3; 4]]; [[5; 6]; [7; 8]]])
        = [ButterCall 4 (300 / (0.5 * SAMPLE_RATE)) (3000 / (0.5 * SAMPLE_RATE));
           ButterCall 4 (300 / (0.5 * SAMPLE_RATE)) (3000 / (0.5 * SAMPLE_RATE))])
  /\
  (forall butter : nat -> R -> R -> result (list R * list R),
      length (snd (bandpass_frames butter [[[1; 2]; [3; 4]]; [[5; 6]; [7; 8]]]))
        = 2%nat).
Proof.
  split; intros butter; rewrite bandpass_frames_calls; reflexivity.
Qed.

End BandpassStage.

(** ** TDOAEstimator: guards and exception handling *)

Section TDOAGuards.
Local Open Scope R_scope.

Lemma set_nth_length (A : Type) (l : list A) (i : nat) (v : A) :
  length (set_nth l i v) = length l.
Proof.
  revert i. induction l as [ | x l IH]; intros [ | i]; simpl; auto.
Qed.

Lemma nth_set_nth_same (A : Type) (l : list A) (i : nat) (v d : A) :
  (i < length l)%nat -> nth i (set_nth l i v) d = v.
Proof.
  revert i. induction l as [ | x l IH]; intros [ | i] Hi; simpl in *; try lia.
  - reflexivity.
  - apply IH. lia.
Qed.

Lemma nth_set_nth_other (A : Type) (l : list A) (i j : nat) (v d : A) :
  i <> j -> nth j (set_nth l i v) d = nth j l d.
Proof.
  revert i j. induction l as [ | x l IH]; intros [ | i] [ | j] Hij; simpl;
    try reflexivity; try lia.
  apply IH. lia.
Qed.

Lemma estimate_loop_spec (correlate : list R -> list R -> result (list R))
    (channels : list (list R)) (idx : list nat) :
  forall time_delays : list Z,
    length time_delays = length channels ->
    Forall (fun i => (0 < i < length channels)%nat) idx ->
    let out := estimate_loop correlate channels idx time_delays in
    length out = length channels /\
    forall i : nat,
      nth i out 0%Z =
      if in_dec Nat.eq_dec i idx
      then compute_cross_correlation_with correlate (nth 0 channels []) (nth i channels [])
      else nth i time_delays 0%Z.
Proof.
  induction idx as [ | j idx IH]; intros td Hlen Hidx; cbv zeta.
  - simpl. split; [ exact Hlen | reflexivity ].
  - inversion Hidx as [ | ? ? Hj Hrest]; subst.
    cbn [estimate_loop].
    rewrite (py_index_ok channels [] (i:=0%nat)) by lia. cbn [bind].
    rewrite (py_index_ok channels [] (i:=j)) by lia. cbn [bind].
    destruct (IH (set_nth td j
                    (compute_cross_correlation_with correlate
                       (nth 0 channels []) (nth j channels []))))
      as [Hl Hn]; [ now rewrite set_nth_length | exact Hrest | ].
    split; [ exact Hl | ].
    intros i. rewrite Hn.
    destruct (in_dec Nat.eq_dec i idx) as [Hin | Hnin];
      destruct (in_dec Nat.eq_dec i (j :: idx)) as [Hin' | Hnin'];
      try reflexivity.
    + exfalso. apply Hnin'. now right.
    + destruct Hin' as [-> | Hin']; [ | contradiction ].
      apply nth_set_nth_same. lia.
    + apply nth_set_nth_other. intros ->. apply Hnin'. now left.
Qed.

(** C6.  Whatever the numeric core does: if either signal has fewer than 10
    samples the delay of the pair is 0 and does not depend on any
    correlation; if the core (or the peak search) raises, the delay of that
    pair is 0 and nothing propagates; and [estimate_tdoa] returns one delay
    per channel, 0 for the reference and, for every other channel [i], the
    delay of the pair [(0, i)], whatever happened on the other pairs. *)
Theorem tdoa_guards_and_exceptions :
  (forall (correlate : list R -> list R -> result (list R))
          (signal1 signal2 : list R),
      (length signal1 < 10)%nat \/ (length signal2 < 10)%nat ->
      compute_cross_correlation_with correlate signal1 signal2 = 0%Z)
  /\
  (forall (correlate : list R -> list R -> result (list R))
          (signal1 signal2 : list R) (e : exn),
      correlate signal1 signal2 = Raise e ->
      compute_cross_correlation_with correlate signal1 signal2 = 0%Z)
  /\
  (forall (correlate : list R -> list R -> result (list R))
          (channels : list (list R)),
      let time_delays := estimate_tdoa_with correlate channels in
      length time_delays = length channels /\
      nth 0 time_delays 0%Z = 0%Z /\
      forall i : nat,
        (1 <= i < length channels)%nat ->
        nth i time_delays 0%Z =
        compute_cross_correlation_with correlate
          (nth 0 channels []) (nth i channels [])).
Proof.
  split; [ | split ].
  - intros correlate s1 s2 Hshort. unfold compute_cross_correlation_with.
    assert (Hg : ((length s1 <? 10)%nat || (length s2 <? 10)%nat) = true).
    { apply orb_true_iff. destruct Hshort as [H | H]; [ left | right ];
        now apply Nat.ltb_lt. }
    rewrite Hg. reflexivity.
  - intros correlate s1 s2 e He. unfold compute_cross_correlation_with.
    destruct ((length s1 <? 10)%nat || (length s2 <? 10)%nat); [ reflexivity | ].
    rewrite He. reflexivity.
  - intros correlate channels. cbv zeta. unfold estimate_tdoa_with.
    destruct (@estimate_loop_spec correlate channels
                (seq 1 (length channels - 1))
                (repeat 0%Z (length channels))) as [Hl Hn].
    { apply repeat_length. }
    { apply Forall_forall. intros i Hi. apply in_seq in Hi. lia. }
    split; [ exact Hl | ]. split.
    + rewrite Hn.
      destruct (in_dec Nat.eq_dec 0%nat (seq 1 (length channels - 1))) as [Hin | _].
      * apply in_seq in Hin. lia.
      * destruct (length channels); reflexivity.
    + intros i Hi. rewrite Hn.
      destruct (in_dec Nat.eq_dec i (seq 1 (length channels - 1))) as [_ | Hnin];
        [ reflexivity | ].
      exfalso. apply Hnin. apply in_seq. lia.
Qed.

Lemma tdoa_guards_and_exceptions_witness :
  let short := [1; 2; 3] in
  let long := [1; 2; 3; 4; 5; 6; 7; 8; 9; 10; 11] in
  ((length short < 10)%nat \/ (length long < 10)%nat) /\
  compute_cross_correlation short long = 0%Z /\
  gcc_phat_correlation long (slice long 0 10) = Raise ValueError /\
  compute_cross_correlation long (slice long 0 10) = 0%Z.
Proof.
  cbv zeta.
  assert (H1 : (length [1; 2; 3]%R < 10)%nat \/
               (length [1; 2; 3; 4; 5; 6; 7; 8; 9; 10; 11]%R < 10)%nat)
    by (left; simpl; lia).
  assert (H2 : gcc_phat_correlation [1; 2; 3; 4; 5; 6; 7; 8; 9; 10; 11]
                 (slice [1; 2; 3; 4; 5; 6; 7; 8; 9; 10; 11] 0 10)
               = Raise ValueError).
  { unfold gcc_phat_correlation, np_mul, hann, slice.
    cbn [length Nat.sub seq map skipn firstn Nat.eqb bind]. reflexivity. }
  split; [ exact H1 | split; [ | split; [ exact H2 | ] ] ].
  - exact (proj1 tdoa_guards_and_exceptions gcc_phat_correlation _ _ H1).
  - exact (proj1 (proj2 tdoa_guards_and_exceptions) gcc_phat_correlation _ _ _ H2).
Defined.

End TDOAGuards.

(** ** TDOAEstimator: the GCC-PHAT delay *)

Section GCCPHAT.
Local Open Scope R_scope.
Unset Implicit Arguments.

Lemma argmax_from_spec (l : list R) :
  forall (best : R) (bi i : nat),
    (bi < i)%nat ->
    let p := argmax_from best bi i l in
    let val := fun q : nat => if (q <? i)%nat then best else nth (q - i) l 0 in
    (p = bi \/ (i <= p < i + length l)%nat) /\
    best <= val p /\
    (forall j, (j < length l)%nat -> nth j l 0 <= val p) /\
    (forall j, (j < length l)%nat -> (i + j < p)%nat -> nth j l 0 < val p) /\
    (p <> bi -> best < val p).
Proof.
  induction l as [ | x rest IH]; intros best bi i Hbi; cbv zeta.
  - simpl. replace (bi <? i)%nat with true by (symmetry; now apply Nat.ltb_lt).
    split; [ now left | ]. split; [ lra | ].
    split; [ intros j Hj; simpl in Hj; lia | ].
    split; [ intros j Hj; simpl in Hj; lia | intros H; congruence ].
  - cbn [argmax_from length].
    destruct (Rgtb x best) eqn:Hx.
    + apply Rgtb_true in Hx.
      destruct (IH x i (S i) (Nat.lt_succ_diag_r i)) as (Hp & Hb & Hmax & Hfirst & Hne).
      cbv zeta in *.
      set (p := argmax_from x i (S i) rest) in *.
      assert (Hpi : (i <= p)%nat) by (destruct Hp; lia).
      assert (Hval : (if (p <? i)%nat then best else nth (p - i) (x :: rest) 0)
                     = (if (p <? S i)%nat then x else nth (p - S i) rest 0)).
      { replace (p <? i)%nat with false by (symmetry; apply Nat.ltb_ge; lia).
        destruct (Nat.ltb_spec p (S i)) as [Hlt | Hge].
        - replace (p - i)%nat with 0%nat by lia. reflexivity.
        - replace (p - i)%nat with (S (p - S i)) by lia. reflexivity. }
      rewrite Hval.
      split; [ right; destruct Hp; lia | ].
      split; [ lra | ].
      split; [ intros [ | j] Hj; simpl; [ exact Hb | apply Hmax; lia ] | ].
      split.
      * intros [ | j] Hj Hlt; simpl.
        -- apply Hne. lia.
        -- apply Hfirst; lia.
      * intros _. lra.
    + apply Rgtb_false in Hx.
      destruct (IH best bi (S i) (Nat.lt_lt_succ_r _ _ Hbi)) as (Hp & Hb & Hmax & Hfirst & Hne).
      cbv zeta in *.
      set (p := argmax_from best bi (S i) rest) in *.
      assert (Hval : (if (p <? i)%nat then best else nth (p - i) (x :: rest) 0)
                     = (if (p <? S i)%nat then best else nth (p - S i) rest 0)).
      { destruct Hp as [-> | Hp].
        - replace (bi <? i)%nat with true by (symmetry; now apply Nat.ltb_lt).
          replace (bi <? S i)%nat with true by (symmetry; apply Nat.ltb_lt; lia).
          reflexivity.
        - replace (p <? i)%nat with false by (symmetry; apply Nat.ltb_ge; lia).
          replace (p <? S i)%nat with false by (symmetry; apply Nat.ltb_ge; lia).
          replace (p - i)%nat with (S (p - S i)) by lia. reflexivity. }
      rewrite Hval.
      split; [ destruct Hp; [ now left | right; lia ] | ].
      split; [ exact Hb | ].
      split; [ intros [ | j] Hj; simpl; [ lra | apply Hmax; lia ] | ].
      split.
      * intros [ | j] Hj Hlt; simpl.
        -- assert (p <> bi) by lia. specialize (Hne H). lra.
        -- apply Hfirst; lia.
      * exact Hne.
Qed.

Lemma np_argmax_spec (l : list R) :
  l <> [] ->
  exists p : nat,
    np_argmax l = Ok p /\
    (p < length l)%nat /\
    (forall j, (j < length l)%nat -> nth j l 0 <= nth p l 0) /\
    (forall j, (j < p)%nat -> nth j l 0 < nth p l 0).
Proof.
  destruct l as [ | x rest]; [ congruence | intros _ ].
  exists (argmax_from x 0 1 rest). split; [ reflexivity | ].
  destruct (@argmax_from_spec rest x 0%nat 1%nat Nat.lt_0_1) as (Hp & Hb & Hmax & Hfirst & Hne).
  cbv zeta in *. set (p := argmax_from x 0 1 rest) in *.
  assert (Hval : (if (p <? 1)%nat then x else nth (p - 1) rest 0) = nth p (x :: rest) 0).
  { destruct p as [ | p]; simpl; [ reflexivity | now rewrite Nat.sub_0_r ]. }
  rewrite Hval in *.
  split; [ simpl; destruct Hp; lia | ].
  split.
  - intros [ | j] Hj; [ exact Hb | ]. simpl in Hj.
    change (nth (S j) (x :: rest) 0) with (nth j rest 0). apply Hmax. lia.
  - intros [ | j] Hj.
    + apply Hne. lia.
    + change (nth (S j) (x :: rest) 0) with (nth j rest 0). apply Hfirst; lia.
Qed.

Lemma map2_length (A B C : Type) (f : A -> B -> C) (l1 : list A) (l2 : list B) :
  length (map2 f l1 l2) = Nat.min (length l1) (length l2).
Proof.
  revert l2. induction l1 as [ | x l1 IH]; intros [ | y l2]; simpl; auto.
Qed.

Lemma map2_map_map (A B C D : Type) (f : B -> C -> D) (g : A -> B) (h : A -> C)
    (l : list A) :
  map2 f (map g l) (map h l) = map (fun x => f (g x) (h x)) l.
Proof. induction l as [ | x l IH]; simpl; [ reflexivity | now rewrite IH ]. Qed.

Lemma hann_length (M : nat) : length (hann M) = M.
Proof.
  destruct M as [ | [ | M]]; try reflexivity.
  unfold hann. now rewrite length_map, length_seq.
Qed.

Lemma rfft_length (x : list R) : length (rfft x) = (length x / 2 + 1)%nat.
Proof. unfold rfft. now rewrite length_map, length_seq. Qed.

Lemma irfft_length (X : list complex) : length (irfft X) = (2 * (length X - 1))%nat.
Proof. unfold irfft. now rewrite length_map, length_seq. Qed.

Lemma gcc_phat_correlation_ok (signal1 signal2 : list R) :
  (length signal1 <= length signal2)%nat ->
  let n := length signal1 in
  let window := hann n in
  let X0 := rfft (map2 Rmult signal1 window) in
  let Xi := rfft (map2 Rmult (firstn n signal2) window) in
  let R := map2 Cmul X0 (map Cconj Xi) in
  let R_hat := map2 Cdiv_real R (map (fun z => Cabs z + 1e-10) R) in
  gcc_phat_correlation signal1 signal2 = Ok (irfft R_hat) /\
  length (irfft R_hat) = (2 * (n / 2))%nat.
Proof.
  intros Hlen. cbv zeta. unfold gcc_phat_correlation, np_mul.
  rewrite !hann_length, slice_0, Nat.eqb_refl. cbn [bind].
  rewrite firstn_length_le by exact Hlen. rewrite Nat.eqb_refl. cbn [bind].
  split; [ reflexivity | ].
  rewrite irfft_length, !map2_length, !length_map, !map2_length, !length_map,
    !rfft_length, !map2_length, !hann_length.
  rewrite firstn_length_le by exact Hlen.
  rewrite !Nat.min_id. lia.
Qed.

(** C4 (amended).  For every pair of signals with at least 10 samples in the
    first and at least as many in the second, the delay returned is the
    GCC-PHAT lag: both signals (the second cut to the length of the first)
    are Hann-windowed, transformed, the cross-power spectrum [X0 * conj(Xi)]
    is divided by its magnitude plus [1e-10] and transformed back to a
    correlation of length [L = 2 * (n / 2)]; the peak index is the first
    index at which the correlation itself (signed, not its magnitude) is
    maximal, and the lag is the peak index when it is at most [L / 2] and
    the peak index minus [L] otherwise. *)
Theorem gcc_phat_delay_is_signed_peak (signal1 signal2 : list R) :
  (10 <= length signal1)%nat ->
  (length signal1 <= length signal2)%nat ->
  let n := length signal1 in
  let window := hann n in
  let X0 := rfft (map2 Rmult signal1 window) in
  let Xi := rfft (map2 Rmult (firstn n signal2) window) in
  let R := map2 Cmul X0 (map Cconj Xi) in
  let R_hat := map2 Cdiv_real R (map (fun z => Cabs z + 1e-10) R) in
  let correlation := irfft R_hat in
  let L := length correlation in
  L = (2 * (n / 2))%nat /\
  exists peak : nat,
    (peak < L)%nat /\
    (forall j, (j < L)%nat -> nth j correlation 0 <= nth peak correlation 0) /\
    (forall j, (j < peak)%nat -> nth j correlation 0 < nth peak correlation 0) /\
    compute_cross_correlation signal1 signal2 =
      (if (peak <=? L / 2)%nat then Z.of_nat peak
       else (Z.of_nat peak - Z.of_nat L)%Z).
Proof.
  intros Hmin Hlen. cbv zeta.
  destruct (@gcc_phat_correlation_ok signal1 signal2 Hlen) as [Hok HL].
  cbv zeta in Hok, HL.
  set (correlation := irfft _) in *.
  split; [ exact HL | ].
  assert (Hne : correlation <> []).
  { intros E. rewrite E in HL. cbn [length] in HL.
    assert (1 <= length signal1 / 2)%nat
      by (apply Nat.div_le_lower_bound; lia).
    lia. }
  destruct (@np_argmax_spec correlation Hne) as (peak & Harg & Hlt & Hmax & Hfirst).
  exists peak. repeat split; try assumption.
  unfold compute_cross_correlation, compute_cross_correlation_with.
  replace (length signal1 <? 10)%nat with false
    by (symmetry; apply Nat.ltb_ge; lia).
  replace (length signal2 <? 10)%nat with false
    by (symmetry; apply Nat.ltb_ge; lia).
  cbn [orb]. rewrite Hok. cbn [bind]. rewrite Harg. cbn [bind try_except].
  unfold lag_of_peak.
  destruct (Nat.ltb_spec (length correlation / 2) peak) as [Hgt | Hle];
    destruct (Nat.leb_spec peak (length correlation / 2)) as [Hle' | Hgt'];
    try lia; reflexivity.
Qed.

Lemma Rsum_zero (f : nat -> R) (l : list nat) :
  (forall j, In j l -> f j = 0) -> Rsum (map f l) = 0.
Proof.
  induction l as [ | x l IH]; intros H; simpl; [ reflexivity | ].
  rewrite (H x) by now left. rewrite IH; [ ring | ].
  intros j Hj. apply H. now right.
Qed.

Lemma Rsum_single (f : nat -> R) (n : nat) :
  forall s p : nat,
    (s <= p < s + n)%nat ->
    (forall j, j <> p -> f j = 0) ->
    Rsum (map f (seq s n)) = f p.
Proof.
  induction n as [ | n IH]; intros s p Hp Hz; [ lia | ].
  cbn [seq map Rsum fold_right]. fold (Rsum (map f (seq (S s) n))).
  destruct (Nat.eq_dec s p) as [-> | Hne].
  - rewrite Rsum_zero; [ ring | ].
    intros j Hj. apply in_seq in Hj. apply Hz. lia.
  - rewrite (Hz s Hne), (IH (S s) p) by (try lia; assumption). ring.
Qed.

Lemma rfft_impulse (x : list R) (p : nat) :
  (p < length x)%nat ->
  (forall j, j <> p -> nth j x 0 = 0) ->
  rfft x =
  map (fun k =>
         (nth p x 0 * cos (2 * PI * INR p * INR k / INR (length x)),
          - (nth p x 0 * sin (2 * PI * INR p * INR k / INR (length x)))))
      (seq 0 (length x / 2 + 1)).
Proof.
  intros Hp Hz. unfold rfft. apply map_ext. intros k. f_equal.
  - apply (Rsum_single
             (fun j => nth j x 0 * cos (2 * PI * INR j * INR k / INR (length x)))).
    + lia.
    + intros j Hj. rewrite (Hz j Hj). ring.
  - f_equal.
    apply (Rsum_single
             (fun j => nth j x 0 * sin (2 * PI * INR j * INR k / INR (length x)))).
    + lia.
    + intros j Hj. rewrite (Hz j Hj). ring.
Qed.

Lemma hann_10_3 : nth 3 (hann 10) 0 = 3 / 4.
Proof.
  unfold hann. cbn [seq map nth Nat.sub].
  replace (2 * PI * INR 3 / INR 9) with (2 * (PI / 3)) by (simpl; field).
  rewrite cos_2PI3. lra.
Qed.

Lemma windowed_impulse (a : R) (x : list R) :
  x = [0; 0; 0; a; 0; 0; 0; 0; 0; 0] ->
  let xw := map2 Rmult x (hann 10) in
  length xw = 10%nat /\
  nth 3 xw 0 = a * (3 / 4) /\
  forall j, j <> 3%nat -> nth j xw 0 = 0.
Proof.
  intros ->. cbv zeta. split; [ reflexivity | ]. split.
  - rewrite <- hann_10_3. reflexivity.
  - intros j Hj.
    do 10 (destruct j as [ | j]; [ first [ congruence | simpl; ring ] | ]).
    simpl. destruct j; reflexivity.
Qed.

Lemma phat_of_opposed_bins (a1 a2 c s : R) :
  a2 = - a1 ->
  c * c + s * s = 1 ->
  let r := Cmul (a1 * c, - (a1 * s)) (Cconj (a2 * c, - (a2 * s))) in
  Cdiv_real r (Cabs r + 1e-10) = (- (a1 * a1 / (a1 * a1 + 1e-10)), 0).
Proof.
  intros -> Hcs. cbv zeta.
  assert (Hr : Cmul (a1 * c, - (a1 * s)) (Cconj (- a1 * c, - (- a1 * s)))
               = (- (a1 * a1), 0)).
  { unfold Cmul, Cconj; simpl. f_equal.
    - replace (a1 * c * (- a1 * c) - - (a1 * s) * - - (- a1 * s))
        with (- (a1 * a1) * (c * c + s * s)) by ring.
      rewrite Hcs. ring.
    - ring. }
  rewrite Hr. unfold Cabs, Cdiv_real; simpl.
  replace (- (a1 * a1) * - (a1 * a1) + 0 * 0) with ((a1 * a1) * (a1 * a1)) by ring.
  rewrite sqrt_square by nra.
  f_equal; field; nra.
Qed.

Lemma correlation_of_opposed_impulses :
  let a := 1 * (3 / 4) in
  gcc_phat_correlation impulse inverted_impulse =
  Ok (map (opposed_correlation (a * a / (a * a + 1e-10))) (seq 0 10)).
Proof.
  cbv zeta.
  destruct (@gcc_phat_correlation_ok impulse inverted_impulse (Nat.le_refl _))
    as [Hok _].
  cbv zeta in Hok. rewrite Hok. f_equal.
  change (length impulse) with 10%nat.
  change (firstn 10 inverted_impulse) with inverted_impulse.
  destruct (@windowed_impulse 1 impulse eq_refl) as (Hl1 & Ha1 & Hz1).
  destruct (@windowed_impulse (-1) inverted_impulse eq_refl) as (Hl2 & Ha2 & Hz2).
  cbv zeta in *.
  rewrite (@rfft_impulse (map2 Rmult impulse (hann 10)) 3)
    by (try (rewrite Hl1; lia); assumption).
  rewrite (@rfft_impulse (map2 Rmult inverted_impulse (hann 10)) 3)
    by (try (rewrite Hl2; lia); assumption).
  rewrite Hl1, Hl2, Ha1, Ha2.
  change (10 / 2 + 1)%nat with 6%nat.
  rewrite map_map, map2_map_map, map_map, map2_map_map.
  rewrite (map_ext _ (fun _ : nat =>
             (- (1 * (3 / 4) * (1 * (3 / 4)) / (1 * (3 / 4) * (1 * (3 / 4)) + 1e-10)), 0))).
  2:{ intros k. apply phat_of_opposed_bins; [ ring | ].
      pose proof (sin2_cos2 (2 * PI * INR 3 * INR k / INR 10)) as H.
      unfold Rsqr in H. lra. }
  unfold irfft. rewrite length_map, length_seq.
  change (2 * (6 - 1))%nat with 10%nat.
  change (6 - 2)%nat with 4%nat. change (6 - 1)%nat with 5%nat.
  apply map_ext. intros t.
  cbn [map seq nth fst snd Rsum fold_right].
  unfold opposed_correlation, arg.
  replace (INR 10) with 10 by (simpl; lra).
  field.
Qed.

Lemma opposed_correlation_0 (A : R) : opposed_correlation A 0 = - A.
Proof.
  unfold opposed_correlation, arg.
  replace (2 * PI * INR 1 * INR 0 / INR 10) with 0 by (simpl; field).
  replace (2 * PI * INR 2 * INR 0 / INR 10) with 0 by (simpl; field).
  replace (2 * PI * INR 3 * INR 0 / INR 10) with 0 by (simpl; field).
  replace (2 * PI * INR 4 * INR 0 / INR 10) with 0 by (simpl; field).
  replace (2 * PI * INR 5 * INR 0 / INR 10) with 0 by (simpl; field).
  rewrite cos_0. field.
Qed.

Lemma opposed_correlation_1 (A : R) : opposed_correlation A 1 = 0.
Proof.
  unfold opposed_correlation, arg.
  replace (2 * PI * INR 4 * INR 1 / INR 10)
    with (PI - 2 * PI * INR 1 * INR 1 / INR 10) by (simpl; field).
  replace (2 * PI * INR 3 * INR 1 / INR 10)
    with (PI - 2 * PI * INR 2 * INR 1 / INR 10) by (simpl; field).
  replace (2 * PI * INR 5 * INR 1 / INR 10) with PI by (simpl; field).
  rewrite !Rtrigo_facts.cos_pi_minus, cos_PI. field.
Qed.

Lemma opposed_correlation_bound (A : R) (t : nat) :
  0 <= A -> Rabs (opposed_correlation A t) <= A.
Proof.
  intros HA. unfold opposed_correlation.
  pose proof (COS_bound (arg 1 t)) as H1.
  pose proof (COS_bound (arg 2 t)) as H2.
  pose proof (COS_bound (arg 3 t)) as H3.
  pose proof (COS_bound (arg 4 t)) as H4.
  pose proof (COS_bound (arg 5 t)) as H5.
  set (c1 := cos (arg 1 t)) in *. set (c2 := cos (arg 2 t)) in *.
  set (c3 := cos (arg 3 t)) in *. set (c4 := cos (arg 4 t)) in *.
  set (c5 := cos (arg 5 t)) in *.
  assert (Hs : -10 <= 1 + 2 * (c1 + c2 + c3 + c4) + c5 <= 10) by lra.
  apply Rabs_le. split; nra.
Qed.

Lemma gcc_phat_delay_is_signed_peak_witness :
  (10 <= length impulse)%nat /\
  (length impulse <= length inverted_impulse)%nat /\
  exists peak : nat,
    (peak < 10)%nat /\
    compute_cross_correlation impulse inverted_impulse =
      (if (peak <=? 5)%nat then Z.of_nat peak else (Z.of_nat peak - 10)%Z).
Proof.
  assert (H1 : (10 <= length impulse)%nat) by (simpl; lia).
  assert (H2 : (length impulse <= length inverted_impulse)%nat) by (simpl; lia).
  split; [ exact H1 | split; [ exact H2 | ] ].
  destruct (gcc_phat_delay_is_signed_peak impulse inverted_impulse H1 H2)
    as (HL & peak & Hp & _ & _ & Hlag).
  cbv zeta in HL, Hp, Hlag. change (2 * (length impulse / 2))%nat with 10%nat in HL.
  rewrite HL in Hp, Hlag.
  exists peak. split; [ exact Hp | exact Hlag ].
Defined.

(** C4, as stated, fails: for a unit impulse and the same impulse inverted
    the phase-transformed correlation is [-A] at lag 0 and 0 at lag 1, so its
    magnitude peaks at index 0 (lag 0 by the claim) while the code, taking
    the argmax of the signed correlation, returns a nonzero lag. *)
Lemma opposed_impulses_disagree :
  gcc_phat_lag_by_magnitude impulse inverted_impulse = 0%Z /\
  compute_cross_correlation impulse inverted_impulse <> 0%Z.
Proof.
  pose proof correlation_of_opposed_impulses as Hc. cbv zeta in Hc.
  set (A := 1 * (3 / 4) * (1 * (3 / 4)) / (1 * (3 / 4) * (1 * (3 / 4)) + 1e-10)) in *.
  assert (HA : 0 < A) by (unfold A; apply Rdiv_lt_0_compat; lra).
  set (c := map (opposed_correlation A) (seq 0 10)) in *.
  assert (Hlen : length c = 10%nat) by reflexivity.
  assert (Hnth : forall j, (j < 10)%nat -> nth j c 0 = opposed_correlation A j).
  { intros j Hj. unfold c.
    rewrite (nth_map_lt (opposed_correlation A) (seq 0 10) 0 0%nat)
      by (rewrite length_seq; exact Hj).
    now rewrite seq_nth by exact Hj. }
  split.
  - (* the magnitude peaks at index 0 *)
    unfold gcc_phat_lag_by_magnitude. rewrite Hc. cbn [bind].
    destruct (@np_argmax_spec (map Rabs c)) as (p & Harg & Hp & _ & Hfirst).
    { unfold c. discriminate. }
    rewrite Harg. cbn [bind try_except].
    assert (Hp0 : p = 0%nat).
    { destruct p as [ | p]; [ reflexivity | exfalso ].
      rewrite length_map, Hlen in Hp.
      specialize (Hfirst 0%nat (Nat.lt_0_succ p)).
      rewrite (nth_map_lt Rabs c 0 0) in Hfirst by (rewrite Hlen; lia).
      rewrite (nth_map_lt Rabs c 0 0) in Hfirst by (rewrite Hlen; lia).
      rewrite !Hnth in Hfirst by lia.
      rewrite opposed_correlation_0 in Hfirst.
      pose proof (@opposed_correlation_bound A (S p) (Rlt_le _ _ HA)) as Hb.
      rewrite Rabs_Ropp, (Rabs_pos_eq A) in Hfirst by lra. lra. }
    rewrite Hp0. reflexivity.
  - (* the signed correlation does not *)
    unfold compute_cross_correlation, compute_cross_correlation_with.
    change ((length impulse <? 10)%nat || (length inverted_impulse <? 10)%nat)
      with false.
    cbv iota. rewrite Hc. cbn [bind].
    destruct (@np_argmax_spec c) as (p & Harg & Hp & Hmax & _).
    { unfold c. discriminate. }
    rewrite Harg. cbn [bind try_except].
    assert (Hp0 : p <> 0%nat).
    { intros ->. specialize (Hmax 1%nat). rewrite Hlen in Hmax.
      specialize (Hmax ltac:(lia)).
      rewrite !Hnth in Hmax by lia.
      rewrite opposed_correlation_0, opposed_correlation_1 in Hmax. lra. }
    rewrite Hlen in *. unfold lag_of_peak.
    destruct (10 / 2 <? p)%nat; lia.
Qed.

End GCCPHAT.

(** ** BroadcastBuffer: capacity, whole buffers *)

Section BufferCapacity.
Unset Implicit Arguments.

Lemma run_paced_buffers (writes : list (list byte)) :
  forall s : BroadcastBuffer * Reader,
    fst (run (paced writes) s) = fold_left write_buffers writes (fst s).
Proof.
  induction writes as [ | d writes IH]; intros s; [ reflexivity | ].
  change (paced (d :: writes)) with ([Produce d; Poll; Poll] ++ paced writes).
  rewrite run_app, IH. reflexivity.
Qed.

(** Both buffers have [cap] bytes and the cursors are in range. *)
Definition sized (cap : nat) (st : BroadcastBuffer) : Prop :=
  broadcast_inv st /\
  length (audio_buffer_a st) = cap /\ length (audio_buffer_b st) = cap.

Lemma sized_fill_idle (cap : nat) (st : BroadcastBuffer) :
  sized cap st <->
  broadcast_inv st /\ length (fill_buffer st) = cap /\ length (idle_buffer st) = cap.
Proof.
  unfold sized, fill_buffer, idle_buffer. destruct (buffer_sel st); tauto.
Qed.

Lemma write_keeps_size (cap : nat) (st : BroadcastBuffer) (d : list byte) :
  sized cap st -> length d <= cap -> sized cap (write_buffers st d).
Proof.
  intros Hs Hd. apply sized_fill_idle in Hs as (Hinv & Hf & Hi).
  apply sized_fill_idle. split; [ now apply write_keeps_inv | ].
  pose proof (@write_cases st d Hinv) as Hc. cbv zeta in Hc.
  destruct Hinv as [Hp _].
  destruct Hc as [(Hl & _ & Hb & _ & Hb' & _) | [(Hl & _ & Hb' & _ & Hb & _) | (Hl & _ & Hb' & _ & Hb & _)]];
    rewrite Hb, Hb'.
  - split; [ | exact Hi ].
    rewrite !length_app, length_firstn, length_skipn. lia.
  - split; [ exact Hi | ]. rewrite length_app, length_firstn. lia.
  - split.
    + rewrite length_app, !length_skipn. lia.
    + rewrite length_app, !length_firstn. lia.
Qed.

(** X1.  As long as no single write is longer than a buffer, the two
    buffers keep the size they started with and both cursors stay within
    it, after any number of writes. *)
Theorem buffers_keep_their_capacity (cap : nat) (a b : list byte)
    (writes : list (list byte)) :
  length a = cap -> length b = cap ->
  Forall (fun d => length d <= cap) writes ->
  let st := fold_left write_buffers writes (mkBroadcast a b 0 0 true) in
  length (audio_buffer_a st) = cap /\ length (audio_buffer_b st) = cap /\
  buffer_a_pos st <= cap /\ buffer_b_pos st <= cap.
Proof.
  intros Ha Hb Hw. cbv zeta.
  assert (H : forall st, sized cap st ->
                sized cap (fold_left write_buffers writes st)).
  { induction Hw as [ | d writes Hd _ IH]; intros st Hs; simpl; [ exact Hs | ].
    apply IH. now apply write_keeps_size. }
  destruct (H (mkBroadcast a b 0 0 true)) as ([Hf Hi] & Hla & Hlb).
  { repeat split; simpl; auto. unfold fill_pos, fill_buffer; simpl. lia. }
  repeat split; try assumption.
  - unfold fill_pos, fill_buffer, idle_pos in *.
    destruct (buffer_sel _); lia.
  - unfold fill_pos, fill_buffer, idle_pos in *.
    destruct (buffer_sel _); lia.
Qed.

Lemma buffers_keep_their_capacity_witness :
  let cap := DEFAULT_BUFFER_SIZE * 2 in
  let writes := [counting 20000; counting 20000; counting 8192] in
  Forall (fun d => length d <= cap) writes /\
  length (audio_buffer_a (fold_left write_buffers writes broadcast_init)) = cap /\
  length (audio_buffer_b (fold_left write_buffers writes broadcast_init)) = cap.
Proof.
  cbv zeta.
  assert (Hw : Forall (fun d => length d <= DEFAULT_BUFFER_SIZE * 2)
                 [counting 20000; counting 20000; counting 8192]).
  { repeat (apply Forall_cons; [ apply Nat.leb_le; vm_compute; reflexivity | ]).
    apply Forall_nil. }
  split; [ exact Hw | ].
  destruct (buffers_keep_their_capacity (DEFAULT_BUFFER_SIZE * 2)
              (repeat x00 (DEFAULT_BUFFER_SIZE * 2))
              (repeat x00 (DEFAULT_BUFFER_SIZE * 2))
              [counting 20000; counting 20000; counting 8192]
              (repeat_length _ _) (repeat_length _ _) Hw) as (Ha & Hb & _).
  split; [ exact Ha | exact Hb ].
Defined.

Lemma succ_mod (k m : nat) :
  0 < m ->
  S k mod m = if S (k mod m) <? m then S (k mod m) else 0.
Proof.
  intros Hm. pose proof (Nat.div_mod_eq k m) as Hk.
  pose proof (Nat.mod_upper_bound k m ltac:(lia)) as Hr.
  destruct (Nat.ltb_spec (S (k mod m)) m) as [Hlt | Hge].
  - symmetry. apply (Nat.mod_unique (S k) m (k / m)); lia.
  - symmetry. apply (Nat.mod_unique (S k) m (S (k / m))); nia.
Qed.

Lemma succ_div (k m : nat) :
  0 < m ->
  S k / m = if S (k mod m) <? m then k / m else S (k / m).
Proof.
  intros Hm. pose proof (Nat.div_mod_eq k m) as Hk.
  pose proof (Nat.mod_upper_bound k m ltac:(lia)) as Hr.
  destruct (Nat.ltb_spec (S (k mod m)) m) as [Hlt | Hge].
  - symmetry. apply (Nat.div_unique (S k) m (k / m) (S (k mod m))); lia.
  - symmetry. apply (Nat.div_unique (S k) m (S (k / m)) 0); nia.
Qed.

Lemma concat_length_fixed (w : nat) (writes : list (list byte)) :
  Forall (fun d => length d = w) writes ->
  length (concat writes) = w * length writes.
Proof.
  induction 1 as [ | d writes Hd _ IH]; simpl; [ lia | ].
  rewrite length_app, IH, Hd. lia.
Qed.

Lemma fixed_size_producer (w m : nat) (a b : list byte) (writes : list (list byte)) :
  0 < w -> 0 < m ->
  length a = m * w -> length b = m * w ->
  Forall (fun d => length d = w) writes ->
  let st := fold_left write_buffers writes (mkBroadcast a b 0 0 true) in
  sized (m * w) st /\
  fill_pos st = w * (length writes mod m) /\
  buffer_sel st = Nat.even (length writes / m).
Proof.
  intros Hw Hm Ha Hb. cbv zeta.
  induction writes as [ | d writes IH] using rev_ind; intros Hall.
  - simpl. rewrite Nat.Div0.mod_0_l, Nat.Div0.div_0_l.
    split; [ | split; [ unfold fill_pos; simpl; lia | reflexivity ] ].
    repeat split; simpl; auto. unfold fill_pos, fill_buffer; simpl. lia.
  - apply Forall_app in Hall as [Hall Hd]. apply Forall_inv in Hd.
    destruct (IH Hall) as (Hs & Hp & Hsel). clear IH.
    rewrite fold_left_app. cbn [fold_left].
    set (st := fold_left write_buffers writes (mkBroadcast a b 0 0 true)) in *.
    rewrite length_app. cbn [length]. rewrite Nat.add_1_r.
    split; [ apply write_keeps_size; [ exact Hs | nia ] | ].
    apply sized_fill_idle in Hs as (Hinv & Hf & Hi).
    pose proof (@write_cases st d Hinv) as Hc. cbv zeta in Hc.
    pose proof (Nat.mod_upper_bound (length writes) m ltac:(lia)) as Hr.
    rewrite succ_mod, succ_div by exact Hm.
    rewrite Hf, Hp, Hd in Hc.
    destruct (Nat.ltb_spec (S (length writes mod m)) m) as [Hlt | Hge].
    + destruct Hc as [(_ & Hs' & _ & Hp' & _) | [(Hl & _) | (Hl & _)]]; try nia.
      split; [ rewrite Hp'; nia | now rewrite Hs' ].
    + destruct Hc as [(Hl & _) | [(_ & Hs' & _ & _ & _ & Hp') | (Hl & _)]]; try nia.
      split; [ rewrite Hp'; lia | ].
      rewrite Hs', Hsel, Nat.even_succ, <- Nat.negb_even. reflexivity.
Qed.

(** X2.  When every write has the same size [w] and a buffer holds exactly
    [m] writes, no write is ever split over the two buffers: after [k]
    writes the cursor stands at [w * (k mod m)], the buffer being filled
    has flipped [k / m] times, and a reader that polls twice per write has
    received exactly the first [k / m] full buffers of the input, the rest
    being the bytes still pending. *)
Theorem fixed_size_writes_fill_whole_buffers (w m : nat) (a b : list byte)
    (writes : list (list byte)) :
  0 < w -> 0 < m ->
  length a = m * w -> length b = m * w ->
  Forall (fun d => length d = w) writes ->
  let st0 := mkBroadcast a b 0 0 true in
  let s := run (paced writes) (st0, do_GET_connect st0) in
  let k := length writes in
  fill_pos (fst s) = w * (k mod m) /\
  buffer_sel (fst s) = Nat.even (k / m) /\
  wfile (snd s) = firstn (m * w * (k / m)) (concat writes) /\
  pending (fst s) = skipn (m * w * (k / m)) (concat writes).
Proof.
  intros Hw Hm Ha Hb Hall. cbv zeta.
  destruct (fixed_size_producer w m a b writes Hw Hm Ha Hb Hall)
    as (Hs & Hp & Hsel). cbv zeta in Hs, Hp, Hsel.
  pose proof (@system_inv_paced writes _ _ (system_inv_connect a b)) as [_ _ _ Hstream].
  rewrite app_nil_l in Hstream.
  rewrite run_paced_buffers. cbn [fst].
  set (s := run (paced writes) _) in *.
  assert (Hfst : fst s = fold_left write_buffers writes (mkBroadcast a b 0 0 true)).
  { unfold s. now rewrite run_paced_buffers. }
  rewrite Hfst in Hstream.
  set (st := fold_left write_buffers writes (mkBroadcast a b 0 0 true)) in *.
  split; [ exact Hp | ]. split; [ exact Hsel | ].
  apply sized_fill_idle in Hs as ([Hfp _] & Hf & _).
  assert (Hlp : length (pending st) = w * (length writes mod m)).
  { unfold pending. rewrite length_firstn, Hp. lia. }
  assert (Hlw : length (wfile (snd s)) = m * w * (length writes / m)).
  { pose proof (f_equal (@length byte) Hstream) as Hl.
    rewrite length_app, Hlp, (concat_length_fixed w) in Hl by exact Hall.
    pose proof (Nat.div_mod_eq (length writes) m). nia. }
  rewrite <- Hstream, <- Hlw.
  rewrite firstn_app, Nat.sub_diag, firstn_O, app_nil_r, firstn_all.
  rewrite skipn_app, Nat.sub_diag, skipn_all. cbn [skipn app].
  split; reflexivity.
Qed.

Lemma fixed_size_writes_fill_whole_buffers_witness :
  let writes := repeat (counting 8192) 9 in
  let s := run (paced writes) (broadcast_init, do_GET_connect broadcast_init) in
  Forall (fun d => length d = 8192) writes /\
  fill_pos (fst s) = 8192 * (length writes mod 4) /\
  wfile (snd s) = firstn (4 * 8192 * (length writes / 4)) (concat writes).
Proof.
  cbv zeta.
  assert (Hall : Forall (fun d => length d = 8192) (repeat (counting 8192) 9)).
  { apply Forall_forall. intros d Hd. apply repeat_spec in Hd. subst d.
    apply Nat.eqb_eq. vm_compute. reflexivity. }
  split; [ exact Hall | ].
  assert (Hcap : length (repeat x00 (DEFAULT_BUFFER_SIZE * 2)) = 4 * 8192).
  { apply Nat.eqb_eq. vm_compute. reflexivity. }
  assert (Hw : 0 < 8192) by (apply Nat.ltb_lt; vm_compute; reflexivity).
  destruct (fixed_size_writes_fill_whole_buffers 8192 4
              (repeat x00 (DEFAULT_BUFFER_SIZE * 2))
              (repeat x00 (DEFAULT_BUFFER_SIZE * 2))
              (repeat (counting 8192) 9) Hw (Nat.lt_0_succ 3) Hcap Hcap Hall)
    as (Hp & _ & Hwf & _).
  split; [ exact Hp | exact Hwf ].
Defined.

Lemma sized_run (cap : nat) (sched : list event) :
  Forall (fun e => match e with
                   | Produce d => length d <= cap
                   | Poll => True
                   end) sched ->
  forall s : BroadcastBuffer * Reader,
    sized cap (fst s) ->
    (exists n, length (wfile (snd s)) = n * cap) ->
    sized cap (fst (run sched s)) /\
    exists n, length (wfile (snd (run sched s))) = n * cap.
Proof.
  induction 1 as [ | e sched He _ IH]; intros [st r] Hs Hw; [ now split | ].
  change (run (e :: sched) (st, r)) with (run sched (step (st, r) e)).
  apply IH; destruct e as [d | ]; cbn [step fst snd] in *.
  - now apply write_keeps_size.
  - exact Hs.
  - exact Hw.
  - destruct Hw as (n & Hn). unfold do_GET_iteration. cbn [wfile].
    destruct (Bool.eqb (client_buffer_sel r) (last_buffer_sel r));
      [ now exists n | ].
    cbn [wfile]. exists (S n). rewrite length_app, Hn.
    destruct Hs as (_ & Ha & Hb).
    destruct (client_buffer_sel r); [ rewrite Ha | rewrite Hb ]; lia.
Qed.

(** X3.  Under every interleaving of the producer and a reader, as long as
    no single write is longer than a buffer, both buffers keep their size
    and the reader's response body is a whole number of buffers: each send
    is one complete buffer, whether or not all of it is fresh. *)
Theorem reader_sends_whole_buffers (cap : nat) (a b : list byte)
    (sched : list event) :
  length a = cap -> length b = cap ->
  Forall (fun e => match e with
                   | Produce d => length d <= cap
                   | Poll => True
                   end) sched ->
  let st0 := mkBroadcast a b 0 0 true in
  let s := run sched (st0, do_GET_connect st0) in
  length (audio_buffer_a (fst s)) = cap /\
  length (audio_buffer_b (fst s)) = cap /\
  exists n, length (wfile (snd s)) = n * cap.
Proof.
  intros Ha Hb Hsched. cbv zeta.
  destruct (sized_run cap sched Hsched
              (mkBroadcast a b 0 0 true, do_GET_connect (mkBroadcast a b 0 0 true)))
    as ((_ & Ha' & Hb') & Hn).
  - cbn [fst]. split; [ | split; assumption ].
    constructor; [ unfold fill_pos, fill_buffer; simpl; lia | reflexivity ].
  - exists 0. reflexivity.
  - repeat split; assumption.
Qed.

Lemma reader_sends_whole_buffers_witness :
  let sched := [Produce [x01; x02; x03]; Poll; Produce [x04; x05]; Poll; Poll;
                Produce [x06; x07; x08; x09]; Poll] in
  length [x00; x00; x00; x00] = 4 /\
  exists n,
    length (wfile (snd (run sched (mkBroadcast [x00; x00; x00; x00]
                                     [x00; x00; x00; x00] 0 0 true,
                                   do_GET_connect
                                     (mkBroadcast [x00; x00; x00; x00]
                                        [x00; x00; x00; x00] 0 0 true)))))
    = n * 4.
Proof.
  cbv zeta. split; [ reflexivity | ].
  refine (proj2 (proj2 (reader_sends_whole_buffers 4 [x00; x00; x00; x00]
                          [x00; x00; x00; x00] _ eq_refl eq_refl _))).
  repeat (apply Forall_cons; [ simpl; try exact I; lia | ]). apply Forall_nil.
Defined.

End BufferCapacity.

(** ** The producer loop and the demuxer *)

Section ProducerLoop.
Unset Implicit Arguments.

Lemma for_range_ok (A : Type) (f : nat -> result A) (g : nat -> A) (n : nat) :
  forall start : nat,
    (forall k, k < n -> f (start + k) = Ok (g (start + k))) ->
    for_range f start n = Ok (map g (seq start n)).
Proof.
  induction n as [ | n IH]; intros start H; [ reflexivity | ].
  cbn [for_range seq map].
  pose proof (H 0 (Nat.lt_0_succ n)) as H0. rewrite Nat.add_0_r in H0.
  rewrite H0. cbn [bind]. rewrite IH; [ reflexivity | ].
  intros k Hk. replace (S start + k) with (start + S k) by lia. apply H. lia.
Qed.

Lemma Forall_firstn_keep (A : Type) (P : A -> Prop) (n : nat) (l : list A) :
  Forall P l -> Forall P (firstn n l).
Proof.
  intros H. revert n. induction H as [ | x l Hx _ IH]; intros [ | n]; simpl;
    constructor; auto.
Qed.

Lemma pad_chunks_shape (chunk_size : nat) (chunks : list (list Z)) :
  Forall (fun c => length c = chunk_size /\ Forall int16 c) chunks ->
  length (pad_chunks chunk_size chunks) = 4 /\
  Forall (fun c => length c = chunk_size /\ Forall int16 c)
    (pad_chunks chunk_size chunks).
Proof.
  intros H. unfold pad_chunks. split.
  - rewrite length_firstn, length_app, repeat_length. lia.
  - apply Forall_firstn_keep. apply Forall_app. split; [ exact H | ].
    apply Forall_forall. intros c Hc. apply repeat_spec in Hc. subst c.
    split; [ apply repeat_length | ].
    apply Forall_forall. intros s Hs. apply repeat_spec in Hs. subst s.
    unfold int16. lia.
Qed.

Lemma nth_concat_rows (A : Type) (w : nat) (rows : list (list A)) (d : A) :
  Forall (fun row => length row = w) rows ->
  forall r i : nat,
    i < w -> nth (r * w + i) (concat rows) d = nth i (nth r rows []) d.
Proof.
  induction 1 as [ | row rows Hrow _ IH]; intros r i Hi.
  - cbn [concat]. destruct (r * w + i); destruct r; destruct i; reflexivity.
  - destruct r as [ | r]; cbn [concat nth].
    + rewrite app_nth1 by lia. reflexivity.
    + replace (S r * w + i) with (length row + (r * w + i)) by lia.
      rewrite app_nth2_plus. apply IH. exact Hi.
Qed.

Lemma interleave_ok (chunk_size : nat) (chunks : list (list Z)) :
  Forall (fun c => length c = chunk_size /\ Forall int16 c) chunks ->
  let padded := pad_chunks chunk_size chunks in
  let rows := map (fun i => map (fun mic => nth i (nth mic padded []) 0%Z) (seq 0 4))
                  (seq 0 chunk_size) in
  interleave chunk_size chunks = Ok (concat rows).
Proof.
  intros H. cbv zeta. unfold interleave.
  destruct (pad_chunks_shape chunk_size chunks H) as [Hlen Hall].
  set (padded := pad_chunks chunk_size chunks) in *.
  rewrite (for_range_ok _ _
             (fun i => map (fun mic => nth i (nth mic padded []) 0%Z) (seq 0 4))).
  - reflexivity.
  - intros i Hi. cbn [Nat.add].
    apply (for_range_ok _ _ (fun mic => nth i (nth mic padded []) 0%Z)).
    intros mic Hmic. cbn [Nat.add].
    rewrite (py_index_ok padded [] (i:=mic)) by lia. cbn [bind].
    apply py_index_ok.
    rewrite Forall_forall in Hall.
    destruct (Hall (nth mic padded [])) as [Hl _]; [ apply nth_In; lia | ]. lia.
Qed.

Lemma int16_le_bytes (s : Z) (rest : list byte) :
  int16 s -> int16_samples (int16_bytes s ++ rest) = s :: int16_samples rest.
Proof.
  intros Hs. unfold int16 in Hs. unfold int16_bytes. cbn [app int16_samples].
  f_equal. unfold int16_le.
  set (u := (s mod 65536)%Z).
  assert (Hu : (0 <= u < 65536)%Z) by (apply Z.mod_pos_bound; lia).
  assert (Hlo : (0 <= u mod 256 < 256)%Z) by (apply Z.mod_pos_bound; lia).
  assert (Hhi : (0 <= u / 256 < 256)%Z).
  { split; [ apply Z.div_pos; lia | apply Z.div_lt_upper_bound; lia ]. }
  assert (Hb : forall z, (0 <= z < 256)%Z ->
                 Z.of_N (Byte.to_N (match Byte.of_N (Z.to_N z) with
                                    | Some x => x
                                    | None => x00
                                    end)) = z).
  { intros z Hz. destruct (Byte.of_N (Z.to_N z)) as [x | ] eqn:E.
    - apply Byte.to_of_N in E. rewrite E. lia.
    - apply Byte.of_N_None_iff in E. lia. }
  rewrite (Hb _ Hlo), (Hb _ Hhi).
  replace (u mod 256 + 256 * (u / 256))%Z with u
    by (rewrite Z.add_comm; apply Z.div_mod; lia).
  destruct (Z.ltb_spec u 32768) as [Hlt | Hge].
  - unfold u in *. destruct (Z_lt_le_dec s 0) as [Hneg | Hpos].
    + assert (s mod 65536 = s + 65536)%Z.
      { symmetry. apply (Z.mod_unique s 65536 (-1)); lia. }
      lia.
    + apply Z.mod_small. lia.
  - unfold u in *. destruct (Z_lt_le_dec s 0) as [Hneg | Hpos].
    + assert (s mod 65536 = s + 65536)%Z.
      { symmetry. apply (Z.mod_unique s 65536 (-1)); lia. }
      lia.
    + rewrite Z.mod_small in Hge by lia. lia.
Qed.

Lemma int16_samples_tobytes (samples : list Z) :
  Forall int16 samples -> int16_samples (tobytes samples) = samples.
Proof.
  induction 1 as [ | s samples Hs _ IH]; [ reflexivity | ].
  unfold tobytes. cbn [flat_map]. rewrite int16_le_bytes by exact Hs.
  f_equal. exact IH.
Qed.

Lemma tobytes_length (samples : list Z) :
  length (tobytes samples) = 2 * length samples.
Proof.
  induction samples as [ | s samples IH]; [ reflexivity | ].
  unfold tobytes in *. cbn [flat_map]. rewrite length_app, IH. simpl. lia.
Qed.

Lemma map_nth_seq (A : Type) (l : list A) (d : A) :
  map (fun i => nth i l d) (seq 0 (length l)) = l.
Proof.
  apply (nth_ext _ _ d d).
  - now rewrite length_map, length_seq.
  - intros n Hn. rewrite length_map, length_seq in Hn.
    rewrite (nth_map_lt (fun i => nth i l d) (seq 0 (length l)) d 0)
      by (rewrite length_seq; exact Hn).
    now rewrite seq_nth by exact Hn.
Qed.

(** X5.  What the board interleaves, the direction finder takes apart
    again: for blocks of [chunk_size] 16-bit samples per microphone, padded
    with silent microphones up to four (or cut down to four), parsing the
    bytes of the interleaved block with unit gains returns the four padded
    blocks, sample for sample. *)
Theorem interleave_parse_round_trip (chunk_size : nat) (chunks : list (list Z)) :
  0 < chunk_size ->
  Forall (fun c => length c = chunk_size /\ Forall int16 c) chunks ->
  exists interleaved : list Z,
    interleave chunk_size chunks = Ok interleaved /\
    length interleaved = 4 * chunk_size /\
    parse_audio_data DEFAULT_MIC_GAINS (tobytes interleaved)
      = map (map (fun s => (IZR s * 1)%R)) (pad_chunks chunk_size chunks).
Proof.
  intros Hpos H.
  pose proof (interleave_ok chunk_size chunks H) as Hok. cbv zeta in Hok.
  destruct (pad_chunks_shape chunk_size chunks H) as [Hlen Hall].
  set (padded := pad_chunks chunk_size chunks) in *.
  set (rows := map (fun i => map (fun mic => nth i (nth mic padded []) 0%Z) (seq 0 4))
                   (seq 0 chunk_size)) in *.
  assert (Hrows : Forall (fun row => length row = 4) rows).
  { apply Forall_forall. intros row Hrow. unfold rows in Hrow.
    apply in_map_iff in Hrow as (i & <- & _). now rewrite length_map, length_seq. }
  assert (Hcell : forall r i, r < chunk_size -> i < 4 ->
                    nth (r * 4 + i) (concat rows) 0%Z = nth r (nth i padded []) 0%Z).
  { intros r i Hr Hi. rewrite (nth_concat_rows Z 4 rows 0%Z Hrows r i Hi).
    unfold rows.
    rewrite (nth_map_lt _ (seq 0 chunk_size) [] 0) by (rewrite length_seq; exact Hr).
    rewrite seq_nth by exact Hr.
    rewrite (nth_map_lt _ (seq 0 4) 0%Z 0) by (rewrite length_seq; exact Hi).
    now rewrite seq_nth by exact Hi. }
  assert (Hcl : length (concat rows) = 4 * chunk_size).
  { rewrite length_concat.
    rewrite (@list_sum_const (map (@length Z) rows) 4).
    - unfold rows. rewrite !length_map, length_seq. lia.
    - apply Forall_forall. intros x Hx. apply in_map_iff in Hx as (row & <- & Hin).
      rewrite Forall_forall in Hrows. now apply Hrows. }
  assert (Hint : Forall int16 (concat rows)).
  { apply Forall_forall. intros s Hs. apply in_concat in Hs as (row & Hrow & Hs).
    unfold rows in Hrow. apply in_map_iff in Hrow as (i & <- & Hi).
    apply in_map_iff in Hs as (mic & <- & Hmic).
    apply in_seq in Hi. apply in_seq in Hmic.
    rewrite Forall_forall in Hall.
    destruct (Hall (nth mic padded [])) as [Hl Hc]; [ apply nth_In; lia | ].
    rewrite Forall_forall in Hc. apply Hc. apply nth_In. lia. }
  exists (concat rows). split; [ exact Hok | ]. split; [ exact Hcl | ].
  destruct (@parse_audio_data_body_frame DEFAULT_MIC_GAINS (tobytes (concat rows)))
    as (channels & Hbody & Hchl & Hnth).
  { rewrite tobytes_length. apply Nat.even_even. }
  { simpl. unfold CHANNELS. lia. }
  { rewrite int16_samples_tobytes by exact Hint. rewrite Hcl. unfold CHANNELS. lia. }
  unfold parse_audio_data. rewrite Hbody. cbn [try_except].
  rewrite int16_samples_tobytes in Hnth by exact Hint.
  rewrite Hcl in Hnth. unfold CHANNELS in *.
  replace (4 * chunk_size / 4) with chunk_size in Hnth
    by (symmetry; rewrite Nat.mul_comm; apply Nat.div_mul; lia).
  apply (nth_ext _ _ [] []).
  - now rewrite length_map, Hchl, Hlen.
  - intros i Hi. rewrite Hchl in Hi. rewrite (Hnth i Hi).
    rewrite (nth_map_lt _ padded [] []) by lia.
    rewrite Forall_forall in Hall.
    destruct (Hall (nth i padded [])) as [Hl _]; [ apply nth_In; lia | ].
    rewrite <- (map_nth_seq Z (nth i padded []) 0%Z) at 1.
    rewrite map_map, Hl. apply map_ext_in. intros r Hr. apply in_seq in Hr.
    rewrite Hcell by lia.
    do 4 (destruct i as [ | i]; [ reflexivity | ]). lia.
Qed.

Lemma interleave_parse_round_trip_witness :
  let chunks := [[1; 2; 3]; [-4; -5; -6]]%Z in
  0 < 3 /\
  Forall (fun c => length c = 3 /\ Forall int16 c) chunks /\
  exists interleaved : list Z,
    interleave 3 chunks = Ok interleaved /\
    parse_audio_data DEFAULT_MIC_GAINS (tobytes interleaved)
      = map (map (fun s => (IZR s * 1)%R)) (pad_chunks 3 chunks).
Proof.
  cbv zeta.
  assert (H : Forall (fun c => length c = 3 /\ Forall int16 c)
                [[1; 2; 3]; [-4; -5; -6]]%Z).
  { repeat (apply Forall_cons;
            [ split; [ reflexivity
                     | repeat (apply Forall_cons; [ unfold int16; lia | ]);
                       apply Forall_nil ] | ]).
    apply Forall_nil. }
  split; [ lia | split; [ exact H | ] ].
  destruct (interleave_parse_round_trip 3 [[1; 2; 3]; [-4; -5; -6]]%Z
              (Nat.lt_0_succ 2) H) as (l & Hl & _ & Hp).
  exists l. split; [ exact Hl | exact Hp ].
Defined.

Lemma for_range_raises (A : Type) (f : nat -> result A) (n : nat) :
  forall start k : nat,
    k < n -> (exists e, f (start + k) = Raise e) ->
    exists e, for_range f start n = Raise e.
Proof.
  induction n as [ | n IH]; intros start k Hk (e & He); [ lia | ].
  cbn [for_range]. destruct (f start) as [x | e0] eqn:Ef; cbn [bind];
    [ | now exists e0 ].
  destruct k as [ | k].
  - rewrite Nat.add_0_r in He. congruence.
  - destruct (IH (S start) k) as (e1 & He1); [ lia | | ].
    + exists e. rewrite <- He. f_equal. lia.
    + rewrite He1. cbn [bind]. now exists e1.
Qed.

Lemma interleave_short_chunk (chunk_size : nat) (chunks : list (list Z)) (c : list Z) :
  In c (firstn 4 chunks) -> length c < chunk_size ->
  exists e, interleave chunk_size chunks = Raise e.
Proof.
  intros Hin Hshort. unfold interleave.
  set (padded := pad_chunks chunk_size chunks).
  assert (Hp : In c padded).
  { unfold padded, pad_chunks. rewrite firstn_app. apply in_or_app. now left. }
  apply In_nth_error in Hp as (mic & Hmic).
  assert (Hlt : mic < 4).
  { assert (Hl : mic < length padded) by (apply nth_error_Some; congruence).
    unfold padded, pad_chunks in Hl. rewrite length_firstn in Hl. lia. }
  match goal with
  | |- context [for_range ?f 0 chunk_size] =>
      destruct (for_range_raises _ f chunk_size 0 (length c) Hshort) as (e & He)
  end.
  - cbn [Nat.add]. apply (for_range_raises _ _ 4 0 mic Hlt).
    cbn [Nat.add]. unfold py_index at 1. rewrite Hmic. cbn [bind].
    unfold py_index.
    replace (nth_error c (length c)) with (@None Z)
      by (symmetry; apply nth_error_None; lia).
    now exists IndexError.
  - rewrite He. cbn [bind]. now exists e.
Qed.

(** X4.  One iteration of the producer loop writes one interleaved block of
    [8 * chunk_size] bytes when every stream delivered [chunk_size] samples,
    and writes nothing at all when one of the first four streams delivered
    fewer: the index error is caught and the buffers stay as they were. *)
Theorem produce_writes_a_block_or_nothing (chunk_size : nat)
    (st : BroadcastBuffer) (chunks : list (list Z)) :
  (Forall (fun c => length c = chunk_size /\ Forall int16 c) chunks ->
   exists interleaved : list Z,
     interleave chunk_size chunks = Ok interleaved /\
     length (tobytes interleaved) = 8 * chunk_size /\
     produce chunk_size st chunks = write_buffers st (tobytes interleaved))
  /\
  ((exists c, In c (firstn 4 chunks) /\ length c < chunk_size) ->
   produce chunk_size st chunks = st).
Proof.
  split.
  - intros H. pose proof (interleave_ok chunk_size chunks H) as Hok.
    cbv zeta in Hok.
    match type of Hok with _ = Ok ?l => exists l end.
    split; [ exact Hok | ]. split.
    + rewrite tobytes_length, length_concat.
      rewrite (@list_sum_const _ 4).
      * rewrite !length_map, length_seq. lia.
      * apply Forall_forall. intros x Hx.
        apply in_map_iff in Hx as (row & <- & Hrow).
        apply in_map_iff in Hrow as (i & <- & _).
        now rewrite length_map, length_seq.
    + unfold produce. now rewrite Hok.
  - intros (c & Hin & Hshort).
    destruct (interleave_short_chunk chunk_size chunks c Hin Hshort) as (e & He).
    unfold produce. now rewrite He.
Qed.

End ProducerLoop.

(** ** FrameSource: framing and reconnection *)

Section FrameAssembly.
Unset Implicit Arguments.

Lemma keep_last_length (A : Type) (n : nat) (l : list A) :
  length (keep_last n l) <= n.
Proof. unfold keep_last. rewrite length_skipn. lia. Qed.

Lemma keep_last_short (A : Type) (n : nat) (l : list A) :
  length l <= n -> keep_last n l = l.
Proof.
  intros H. unfold keep_last. replace (length l - n) with 0 by lia. reflexivity.
Qed.

Lemma keep_last_app (A : Type) (n : nat) (l l' : list A) :
  keep_last n (keep_last n l ++ l') = keep_last n (l ++ l').
Proof.
  unfold keep_last at 2.
  assert (H : skipn (length l - n) l ++ l' = skipn (length l - n) (l ++ l')).
  { rewrite skipn_app. replace (length l - n - length l) with 0 by lia.
    reflexivity. }
  rewrite H. unfold keep_last. rewrite skipn_skipn, length_skipn, length_app.
  f_equal. lia.
Qed.

Lemma enqueue_frame_keep_last (q : Queue (list byte)) (frame : list byte) :
  0 < maxsize q -> length (items q) <= maxsize q ->
  enqueue_frame q frame
  = (mkQueue (keep_last (maxsize q) (items q ++ [frame])) (maxsize q), true).
Proof.
  destruct q as [its m]. cbn [items maxsize]. intros Hm Hl.
  assert (H0 : (0 <? m) = true) by (apply Nat.ltb_lt; exact Hm).
  unfold enqueue_frame, put_nowait. cbn [items maxsize]. rewrite H0.
  destruct (Nat.leb_spec m (length its)) as [Hfull | Hroom]; cbn [andb].
  - destruct its as [ | x rest]; [ simpl in Hfull; lia | ].
    cbn [get_nowait items maxsize length] in *. rewrite H0.
    destruct (Nat.leb_spec m (length rest)) as [? | _]; [ lia | ]. cbn [andb].
    unfold keep_last. rewrite length_app. cbn [length app].
    replace (S (length rest) + 1 - m) with 1 by lia. reflexivity.
  - rewrite keep_last_short by (rewrite length_app; simpl; lia). reflexivity.
Qed.

Lemma drain_buffer_frames (chunk_size : nat) :
  0 < chunk_size ->
  forall (fuel : nat) (q : Queue (list byte)) (buffer : list byte),
    0 < maxsize q -> length (items q) <= maxsize q ->
    length buffer <= fuel ->
    exists (frames : list (list byte)) (rest : list byte),
      drain_buffer fuel chunk_size q buffer
      = (mkQueue (keep_last (maxsize q) (items q ++ frames)) (maxsize q), rest) /\
      Forall (fun f => length f = chunk_size) frames /\
      buffer = concat frames ++ rest /\
      length rest < chunk_size.
Proof.
  intros Hcs. induction fuel as [ | fuel IH]; intros q buffer Hm Hl Hfuel.
  - destruct buffer; [ | simpl in Hfuel; lia ].
    exists [], []. destruct q as [its m]. cbn [items maxsize] in *.
    rewrite app_nil_r, keep_last_short by exact Hl.
    repeat split; [ constructor | exact Hcs ].
  - cbn [drain_buffer].
    destruct (Nat.leb_spec chunk_size (length buffer)) as [Hge | Hlt].
    + rewrite (enqueue_frame_keep_last q _ Hm Hl).
      rewrite slice_0, slice_to_end.
      set (q' := mkQueue (keep_last (maxsize q) (items q ++ [firstn chunk_size buffer]))
                         (maxsize q)).
      destruct (IH q' (skipn chunk_size buffer)) as (frames & rest & Hd & Hf & Hb & Hr).
      * exact Hm.
      * apply keep_last_length.
      * rewrite length_skipn. lia.
      * exists (firstn chunk_size buffer :: frames), rest.
        rewrite Hd. cbn [q' items maxsize].
        rewrite keep_last_app, <- app_assoc. cbn [app].
        split; [ reflexivity | ]. split; [ | split; [ | exact Hr ] ].
        -- apply Forall_cons; [ | exact Hf ]. rewrite length_firstn. lia.
        -- cbn [concat]. rewrite <- app_assoc, <- Hb. symmetry. apply firstn_skipn.
    + exists [], buffer. destruct q as [its m]. cbn [items maxsize] in *.
      rewrite app_nil_r, keep_last_short by exact Hl.
      repeat split; [ constructor | exact Hlt ].
Qed.

Lemma consume_chunks_frames (chunk_size : nat) :
  0 < chunk_size ->
  forall (chunks : list (list byte)) (q : Queue (list byte)) (buffer : list byte),
    0 < maxsize q -> length (items q) <= maxsize q ->
    length buffer < chunk_size ->
    exists (frames : list (list byte)) (rest : list byte),
      consume_chunks chunk_size chunks q buffer
      = mkQueue (keep_last (maxsize q) (items q ++ frames)) (maxsize q) /\
      Forall (fun f => length f = chunk_size) frames /\
      buffer ++ concat chunks = concat frames ++ rest /\
      length rest < chunk_size.
Proof.
  intros Hcs. induction chunks as [ | chunk chunks IH]; intros q buffer Hm Hl Hb.
  - exists [], buffer. destruct q as [its m]. cbn [items maxsize] in *.
    cbn [consume_chunks concat]. rewrite !app_nil_r, keep_last_short by exact Hl.
    repeat split; [ constructor | exact Hb ].
  - cbn [consume_chunks concat]. destruct chunk as [ | c chunk].
    + cbn [app]. apply IH; assumption.
    + set (buffer1 := buffer ++ c :: chunk).
      destruct (drain_buffer_frames chunk_size Hcs (length buffer1) q buffer1
                  Hm Hl (le_n _)) as (frames1 & rest1 & Hd & Hf1 & Hb1 & Hr1).
      rewrite Hd.
      destruct (IH (mkQueue (keep_last (maxsize q) (items q ++ frames1)) (maxsize q))
                  rest1 Hm (keep_last_length _ _ _) Hr1)
        as (frames2 & rest2 & Hc & Hf2 & Hb2 & Hr2).
      exists (frames1 ++ frames2), rest2. rewrite Hc. cbn [items maxsize].
      rewrite keep_last_app, <- app_assoc.
      split; [ reflexivity | ]. split; [ | split; [ | exact Hr2 ] ].
      * apply Forall_app. split; assumption.
      * rewrite concat_app, <- app_assoc, <- Hb2, app_assoc.
        fold buffer1. rewrite Hb1, <- app_assoc. reflexivity.
Qed.

(** X6.  Framing does not depend on how the network cuts the response body:
    the frames put on the queue are the successive [chunk_size]-byte pieces
    of the concatenated chunks, an incomplete tail of fewer than
    [chunk_size] bytes is held back, and the queue ends with the last
    [maxsize] of the frames offered to it. *)
Theorem consume_chunks_reframes (chunk_size : nat) (chunks : list (list byte))
    (q : Queue (list byte)) :
  0 < chunk_size -> 0 < maxsize q -> length (items q) <= maxsize q ->
  exists (frames : list (list byte)) (rest : list byte),
    consume_chunks chunk_size chunks q []
    = mkQueue (keep_last (maxsize q) (items q ++ frames)) (maxsize q) /\
    Forall (fun f => length f = chunk_size) frames /\
    concat chunks = concat frames ++ rest /\
    length rest < chunk_size.
Proof.
  intros Hcs Hm Hl.
  apply (consume_chunks_frames chunk_size Hcs chunks q [] Hm Hl). simpl. exact Hcs.
Qed.

Lemma consume_chunks_reframes_witness :
  0 < 2 /\ 0 < maxsize audio_queue /\
  length (items audio_queue) <= maxsize audio_queue /\
  exists (frames : list (list byte)) (rest : list byte),
    consume_chunks 2 [[x01]; [x02; x03; x04]; []; [x05]] audio_queue []
    = mkQueue (keep_last 5 (items audio_queue ++ frames)) 5 /\
    Forall (fun f => length f = 2) frames /\
    concat [[x01]; [x02; x03; x04]; []; [x05]] = concat frames ++ rest /\
    length rest < 2.
Proof.
  assert (H2 : 0 < 2) by lia.
  assert (Hm : 0 < maxsize audio_queue) by (simpl; lia).
  assert (Hl : length (items audio_queue) <= maxsize audio_queue) by (simpl; lia).
  split; [ exact H2 | split; [ exact Hm | split; [ exact Hl | ] ] ].
  exact (consume_chunks_reframes 2 [[x01]; [x02; x03; x04]; []; [x05]]
           audio_queue H2 Hm Hl).
Defined.

Lemma drain_buffer_bounded (chunk_size fuel : nat) :
  forall (q : Queue (list byte)) (buffer : list byte),
    0 < maxsize q -> length (items q) <= maxsize q ->
    maxsize (fst (drain_buffer fuel chunk_size q buffer)) = maxsize q /\
    length (items (fst (drain_buffer fuel chunk_size q buffer))) <= maxsize q.
Proof.
  induction fuel as [ | fuel IH]; intros q buffer Hm Hl; cbn [drain_buffer].
  - simpl. auto.
  - destruct (chunk_size <=? length buffer); [ | simpl; auto ].
    destruct (apply_op_bounded q (OpEnqueue (slice buffer 0 chunk_size)) Hm Hl)
      as [Hm' Hl'].
    cbn [apply_op] in Hm', Hl'.
    destruct (enqueue_frame q (slice buffer 0 chunk_size)) as [q' accepted].
    cbn [fst] in Hm', Hl'.
    destruct (IH q' (if accepted then slice buffer chunk_size (length buffer)
                     else buffer)) as [Hm2 Hl2]; [ lia | lia | ].
    split; [ congruence | lia ].
Qed.

Lemma consume_chunks_bounded (chunk_size : nat) (chunks : list (list byte)) :
  forall (q : Queue (list byte)) (buffer : list byte),
    0 < maxsize q -> length (items q) <= maxsize q ->
    maxsize (consume_chunks chunk_size chunks q buffer) = maxsize q /\
    length (items (consume_chunks chunk_size chunks q buffer)) <= maxsize q.
Proof.
  induction chunks as [ | chunk chunks IH]; intros q buffer Hm Hl;
    cbn [consume_chunks]; [ auto | ].
  destruct chunk as [ | c chunk]; [ apply IH; assumption | ].
  destruct (drain_buffer_bounded chunk_size (length (buffer ++ c :: chunk)) q
              (buffer ++ c :: chunk) Hm Hl) as [Hm' Hl'].
  destruct (drain_buffer _ chunk_size q (buffer ++ c :: chunk)) as [q' buffer2].
  cbn [fst] in Hm', Hl'.
  destruct (IH q' buffer2) as [Hm2 Hl2]; [ lia | lia | ].
  split; [ congruence | lia ].
Qed.

(** The invariant of the [while] loop of [read_audio_stream]. *)
Record source_inv (n : nat) (s : FrameSource) : Prop := {
  inv_retry : retry_count s <= max_retries;
  inv_stop : stop_event s = true -> retry_count s = max_retries;
  inv_sleeps : sleeps s <= attempts s;
  inv_attempts : attempts s <= n;
  inv_maxsize : maxsize (queue s) = 5;
  inv_items : length (items (queue s)) <= 5
}.

Lemma source_inv_attempt (chunk_size n : nat) (s : FrameSource) (a : attempt) :
  source_inv n s -> stop_event s = false -> retry_count s < max_retries ->
  source_inv (S n) (attempt_once chunk_size s a).
Proof.
  intros [Hr Hs Hsl Ha Hm Hi] Hstop Hlt. unfold max_retries in *.
  destruct a as [ | code | chunks e]; cbn [attempt_once].
  - unfold on_connection_error. cbn [retry_count stop_event queue attempts sleeps].
    unfold max_retries.
    destruct (Nat.ltb_spec (S (retry_count s)) 5); constructor;
      cbn [retry_count stop_event queue attempts sleeps]; unfold max_retries;
      try lia; try assumption; intros; try congruence; lia.
  - constructor; cbn [retry_count stop_event queue attempts sleeps];
      unfold max_retries; try lia; try assumption. congruence.
  - destruct (consume_chunks_bounded chunk_size chunks (queue s) [])
      as [Hm' Hi']; [ lia | lia | ].
    destruct e.
    + constructor; cbn [retry_count stop_event queue attempts sleeps];
        unfold max_retries; try lia; congruence.
    + unfold on_connection_error.
      cbn [retry_count stop_event queue attempts sleeps]. unfold max_retries.
      cbn [Nat.ltb Nat.leb].
      constructor; cbn [retry_count stop_event queue attempts sleeps];
        unfold max_retries; try lia; congruence.
Qed.

Lemma source_inv_weaken (n m : nat) (s : FrameSource) :
  n <= m -> source_inv n s -> source_inv m s.
Proof. intros Hnm [? ? ? ? ? ?]. constructor; try assumption. lia. Qed.

Lemma source_inv_run (chunk_size : nat) (script : list attempt) :
  forall (n : nat) (s : FrameSource),
    source_inv n s ->
    source_inv (n + length script) (read_audio_stream chunk_size script s).
Proof.
  induction script as [ | a script IH]; intros n s Hinv; cbn [read_audio_stream length].
  - now rewrite Nat.add_0_r.
  - destruct (stop_event s) eqn:Hstop; cbn [negb andb].
    + apply (source_inv_weaken n); [ lia | exact Hinv ].
    + destruct (Nat.ltb_spec (retry_count s) max_retries) as [Hlt | Hge].
      * replace (n + S (length script)) with (S n + length script) by lia.
        apply IH. now apply source_inv_attempt.
      * apply (source_inv_weaken n); [ lia | exact Hinv ].
Qed.

(** X7.  Whatever the network does, [read_audio_stream] keeps [retry_count]
    at or below [max_retries], raises [stop_event] only when the count has
    reached [max_retries], sleeps at most once per connection attempt, makes
    at most one attempt per outcome, and leaves at most 5 frames on the
    queue. *)
Theorem read_audio_stream_invariants (chunk_size : nat) (script : list attempt) :
  let s := read_audio_stream chunk_size script frame_source_init in
  retry_count s <= max_retries /\
  (stop_event s = true -> retry_count s = max_retries) /\
  sleeps s <= attempts s /\
  attempts s <= length script /\
  maxsize (queue s) = 5 /\
  length (items (queue s)) <= 5.
Proof.
  cbv zeta.
  destruct (source_inv_run chunk_size script 0 frame_source_init)
    as [Hr Hs Hsl Ha Hm Hi].
  - constructor; simpl; unfold max_retries; try lia; congruence.
  - repeat split; assumption.
Qed.

Lemma read_audio_stream_app (chunk_size : nat) (s1 s2 : list attempt) :
  forall s : FrameSource,
    read_audio_stream chunk_size (s1 ++ s2) s
    = read_audio_stream chunk_size s2 (read_audio_stream chunk_size s1 s).
Proof.
  induction s1 as [ | a s1 IH]; intros s; cbn [app read_audio_stream];
    [ reflexivity | ].
  destruct (negb (stop_event s) && (retry_count s <? max_retries)) eqn:Hc.
  - apply IH.
  - destruct s2 as [ | b s2]; cbn [read_audio_stream]; [ reflexivity | ].
    now rewrite Hc.
Qed.

Lemma refused_then_served (chunk_size k : nat) (body : list (list byte)) :
  k < max_retries ->
  forall (j : nat) (s : FrameSource),
    j <= k -> stop_event s = false -> retry_count s = k - j ->
    let s' := read_audio_stream chunk_size
                (repeat ConnectRaises j ++ [Streaming body Closed]) s in
    retry_count s' = 0 /\ stop_event s' = false /\
    attempts s' = attempts s + S j /\ sleeps s' = sleeps s + j.
Proof.
  intros Hk. induction j as [ | j IH]; intros s Hj Hstop Hrc; cbv zeta.
  - cbn [repeat app read_audio_stream]. rewrite Hstop. cbn [negb andb].
    destruct (Nat.ltb_spec (retry_count s) max_retries) as [_ | ?]; [ | lia ].
    cbn [attempt_once retry_count stop_event attempts sleeps].
    repeat split; [ exact Hstop | lia | lia ].
  - cbn [repeat app read_audio_stream]. rewrite Hstop. cbn [negb andb].
    destruct (Nat.ltb_spec (retry_count s) max_retries) as [_ | ?]; [ | lia ].
    cbn [attempt_once]. unfold on_connection_error.
    cbn [retry_count stop_event queue attempts sleeps].
    destruct (Nat.ltb_spec (S (retry_count s)) max_retries) as [_ | ?]; [ | lia ].
    match goal with
    | |- context [read_audio_stream _ _ ?t] =>
        destruct (IH t) as (H1 & H2 & H3 & H4);
        [ lia | exact Hstop | cbn [retry_count]; lia | ]
    end.
    cbn [attempts sleeps] in H3, H4.
    repeat split; [ exact H1 | exact H2 | lia | lia ].
Qed.

(** X8.  The retry budget bounds consecutive failures only.  When every
    response body is reached after [k < max_retries] refused connections
    and the server then closes the stream, the source reconnects for ever:
    it makes [k + 1] attempts per body, sleeps only after the failures (a
    closed stream is followed by an immediate reconnect), and never raises
    [stop_event]. *)
Theorem successful_connection_resets_retries (chunk_size k : nat)
    (bodies : list (list (list byte))) :
  k < max_retries ->
  let s := read_audio_stream chunk_size (flaky_script k bodies) frame_source_init in
  attempts s = (k + 1) * length bodies /\
  sleeps s = k * length bodies /\
  retry_count s = 0 /\
  stop_event s = false.
Proof.
  intros Hk. cbv zeta.
  assert (H : forall s, stop_event s = false -> retry_count s = 0 ->
              let s' := read_audio_stream chunk_size (flaky_script k bodies) s in
              attempts s' = attempts s + (k + 1) * length bodies /\
              sleeps s' = sleeps s + k * length bodies /\
              retry_count s' = 0 /\ stop_event s' = false).
  { induction bodies as [ | body bodies IH]; intros s Hstop Hrc; cbv zeta.
    - cbn [flaky_script flat_map read_audio_stream length].
      repeat split; [ lia | lia | exact Hrc | exact Hstop ].
    - unfold flaky_script. cbn [flat_map length].
      rewrite read_audio_stream_app.
      destruct (refused_then_served chunk_size k body Hk k s (le_n k) Hstop)
        as (H1 & H2 & H3 & H4); [ lia | ].
      fold (flaky_script k bodies).
      destruct (IH _ H2 H1) as (H5 & H6 & H7 & H8).
      repeat split; [ lia | lia | exact H7 | exact H8 ]. }
  destruct (H frame_source_init eq_refl eq_refl) as (H1 & H2 & H3 & H4).
  cbn [frame_source_init attempts sleeps] in H1, H2.
  repeat split; [ lia | lia | exact H3 | exact H4 ].
Qed.

Lemma successful_connection_resets_retries_witness :
  4 < max_retries /\
  let s := read_audio_stream 2 (flaky_script 4 [[[x01; x02]]; []; [[x03]]])
             frame_source_init in
  attempts s = 15 /\ sleeps s = 12 /\ retry_count s = 0 /\ stop_event s = false.
Proof.
  assert (H : 4 < max_retries) by (unfold max_retries; lia).
  split; [ exact H | ].
  exact (successful_connection_resets_retries 2 4 [[[x01; x02]]; []; [[x03]]] H).
Defined.

End FrameAssembly.

(** ** ActivityGate *)

Section ActivityGate.
Local Open Scope R_scope.
Unset Implicit Arguments.

Lemma Rsum_le_const (l : list R) (c : R) :
  Forall (fun x => x <= c) l -> Rsum l <= INR (length l) * c.
Proof.
  induction 1 as [ | x l Hx _ IH].
  - simpl. lra.
  - change (Rsum (x :: l)) with (x + Rsum l).
    change (length (x :: l)) with (S (length l)). rewrite S_INR. lra.
Qed.

Lemma Rsum_gt_const (l : list R) (c : R) :
  l <> [] -> Forall (fun x => c < x) l -> INR (length l) * c < Rsum l.
Proof.
  intros Hne H. induction H as [ | x l Hx Hl IH]; [ congruence | ].
  change (Rsum (x :: l)) with (x + Rsum l).
  change (length (x :: l)) with (S (length l)). rewrite S_INR.
  destruct l as [ | y l'].
  - simpl. lra.
  - assert (INR (length (y :: l')) * c < Rsum (y :: l')) by (apply IH; discriminate).
    lra.
Qed.

Lemma mean_le (l : list R) (c : R) :
  0 <= c -> Forall (fun x => x <= c) l -> Rsum l / INR (length l) <= c.
Proof.
  intros Hc H. destruct l as [ | x l].
  - simpl. unfold Rdiv. rewrite Rmult_0_l. exact Hc.
  - pose proof (Rsum_le_const _ _ H) as Hs.
    assert (Hn : 0 < INR (length (x :: l))) by (apply lt_0_INR; simpl; lia).
    apply Rmult_le_reg_r with (INR (length (x :: l))); [ exact Hn | ].
    unfold Rdiv. rewrite Rmult_assoc, Rinv_l by lra. lra.
Qed.

Lemma mean_gt (l : list R) (c : R) :
  l <> [] -> Forall (fun x => c < x) l -> c < Rsum l / INR (length l).
Proof.
  intros Hne H. pose proof (Rsum_gt_const _ _ Hne H) as Hs.
  assert (Hn : 0 < INR (length l)).
  { apply lt_0_INR. destruct l; [ congruence | simpl; lia ]. }
  apply Rmult_lt_reg_r with (INR (length l)); [ exact Hn | ].
  unfold Rdiv. rewrite Rmult_assoc, Rinv_l by lra. lra.
Qed.

Lemma square_le_of_abs (x c : R) : Rabs x <= c -> x * x <= c * c.
Proof.
  intros H. pose proof (Rabs_pos x) as Hp.
  replace (x * x) with (Rabs x * Rabs x).
  - apply Rmult_le_compat; assumption.
  - unfold Rabs. destruct (Rcase_abs x); ring.
Qed.

Lemma square_gt_of_abs (x c : R) : 0 <= c -> c < Rabs x -> c * c < x * x.
Proof.
  intros Hc H.
  replace (x * x) with (Rabs x * Rabs x).
  - apply Rmult_le_0_lt_compat; assumption.
  - unfold Rabs. destruct (Rcase_abs x); ring.
Qed.

Lemma rms_le (channel : list R) (c : R) :
  0 <= c -> Forall (fun x => Rabs x <= c) channel -> rms channel <= c.
Proof.
  intros Hc H. unfold rms.
  rewrite <- (sqrt_square c) by exact Hc.
  apply sqrt_le_1_alt.
  rewrite <- (length_map (fun x => x * x) channel). apply mean_le; [ nra | ].
  apply Forall_forall. intros y Hy. apply in_map_iff in Hy as (x & <- & Hx).
  apply square_le_of_abs. rewrite Forall_forall in H. now apply H.
Qed.

Lemma rms_gt (channel : list R) (c : R) :
  0 <= c -> channel <> [] -> Forall (fun x => c < Rabs x) channel ->
  c < rms channel.
Proof.
  intros Hc Hne H. unfold rms.
  rewrite <- (sqrt_square c) at 1 by exact Hc.
  apply sqrt_lt_1_alt. split; [ nra | ].
  rewrite <- (length_map (fun x => x * x) channel).
  apply mean_gt.
  - destruct channel; [ congruence | discriminate ].
  - apply Forall_forall. intros y Hy. apply in_map_iff in Hy as (x & <- & Hx).
    apply square_gt_of_abs; [ exact Hc | ]. rewrite Forall_forall in H. now apply H.
Qed.

Lemma quiet_channels_inactive (channels : list (list R)) (threshold : R) :
  0 <= threshold ->
  Forall (Forall (fun x => Rabs x <= threshold)) channels ->
  is_sound_active channels threshold = false.
Proof.
  intros Ht H. unfold is_sound_active. apply Rgtb_false.
  rewrite <- (length_map rms channels). apply mean_le; [ exact Ht | ].
  apply Forall_forall. intros e He. apply in_map_iff in He as (ch & <- & Hch).
  apply rms_le; [ exact Ht | ]. rewrite Forall_forall in H. now apply H.
Qed.

(** X9.  The activity test compares the mean of the channels' RMS levels
    with the threshold: when every sample of every channel is at most the
    threshold in magnitude the frame is inactive, and when every sample
    exceeds it the frame is active. *)
Theorem is_sound_active_by_amplitude (channels : list (list R)) (threshold : R) :
  0 <= threshold ->
  channels <> [] ->
  Forall (fun ch => ch <> []) channels ->
  (Forall (Forall (fun x => Rabs x <= threshold)) channels ->
   is_sound_active channels threshold = false) /\
  (Forall (Forall (fun x => threshold < Rabs x)) channels ->
   is_sound_active channels threshold = true).
Proof.
  intros Ht Hne Hch. split.
  - now apply quiet_channels_inactive.
  - intros H. unfold is_sound_active. apply Rgtb_true. apply Rlt_gt.
    rewrite <- (length_map rms channels). apply mean_gt.
    + destruct channels; [ congruence | discriminate ].
    + apply Forall_forall. intros e He. apply in_map_iff in He as (ch & <- & Hin).
      rewrite Forall_forall in H, Hch.
      apply rms_gt; [ exact Ht | now apply Hch | now apply H ].
Qed.

Lemma Rabs_le_const (x c : R) : - c <= x <= c -> Rabs x <= c.
Proof. intros H. apply Rabs_le. exact H. Qed.

Lemma Rabs_gt_const (x c : R) : c < x \/ x < - c -> c < Rabs x.
Proof.
  intros H. unfold Rabs. destruct (Rcase_abs x); lra.
Qed.

Lemma is_sound_active_by_amplitude_witness :
  0 <= 35 /\
  Forall (Forall (fun x => Rabs x <= 35)) [[10; -20]; [5; 0]] /\
  is_sound_active [[10; -20]; [5; 0]] 35 = false /\
  Forall (Forall (fun x => 35 < Rabs x)) [[100; -50]; [40; 60]] /\
  is_sound_active [[100; -50]; [40; 60]] 35 = true.
Proof.
  assert (H0 : 0 <= 35) by lra.
  assert (Hq : Forall (Forall (fun x => Rabs x <= 35)) [[10; -20]; [5; 0]]).
  { repeat (apply Forall_cons;
            [ repeat (apply Forall_cons; [ apply Rabs_le_const; lra | ]);
              apply Forall_nil | ]).
    apply Forall_nil. }
  assert (Hl : Forall (Forall (fun x => 35 < Rabs x)) [[100; -50]; [40; 60]]).
  { repeat (apply Forall_cons;
            [ repeat (apply Forall_cons; [ apply Rabs_gt_const; lra | ]);
              apply Forall_nil | ]).
    apply Forall_nil. }
  assert (Hne : forall a b : list R, [a; b] <> []) by (intros a b; discriminate).
  assert (Hch : forall (a a' b b' : R),
             Forall (fun ch : list R => ch <> []) [[a; a']; [b; b']]).
  { intros. repeat (apply Forall_cons; [ discriminate | ]). apply Forall_nil. }
  split; [ exact H0 | ]. split; [ exact Hq | ]. split; [ | split; [ exact Hl | ] ].
  - exact (proj1 (is_sound_active_by_amplitude [[10; -20]; [5; 0]] 35 H0
                    (Hne _ _) (Hch _ _ _ _)) Hq).
  - exact (proj2 (is_sound_active_by_amplitude [[100; -50]; [40; 60]] 35 H0
                    (Hne _ _) (Hch _ _ _ _)) Hl).
Defined.

End ActivityGate.

Section QuietFrames.
Local Open Scope R_scope.
Unset Implicit Arguments.

Lemma parse_audio_data_bounded (mic_gains : list R) (raw_data : list byte)
    (g c : R) :
  0 <= g -> 0 <= c ->
  Forall (fun gain => Rabs gain <= g) mic_gains ->
  Forall (fun s => Rabs (IZR s) <= c) (int16_samples raw_data) ->
  Forall (Forall (fun x => Rabs x <= c * g)) (parse_audio_data mic_gains raw_data).
Proof.
  intros Hg Hc Hgains Hsamples.
  assert (Hzero : Forall (Forall (fun x => Rabs x <= c * g)) zero_channels).
  { apply Forall_forall. intros ch Hch. apply repeat_spec in Hch. subst ch.
    constructor; [ | constructor ]. rewrite Rabs_R0. nra. }
  unfold parse_audio_data, parse_audio_data_body, frombuffer_int16.
  destruct (Nat.even (length raw_data)); cbn [bind try_except]; [ | exact Hzero ].
  destruct (length (int16_samples raw_data) <? CHANNELS)%nat;
    cbn [try_except]; [ exact Hzero | ].
  match goal with
  | |- context [for_range ?f 0 CHANNELS] =>
      set (body := f); destruct (for_range body 0 CHANNELS) as [l | e] eqn:El
  end; cbn [try_except]; [ | exact Hzero ].
  destruct (@for_range_spec _ body CHANNELS 0%nat l El) as [Hlen Hnth].
  apply Forall_forall. intros ch Hch.
  apply In_nth_error in Hch as (k & Hk).
  assert (Hklt : (k < CHANNELS)%nat).
  { rewrite <- Hlen. apply nth_error_Some. congruence. }
  destruct (Hnth k Hklt) as (x & Hx & Hf). rewrite Hk in Hx. inversion Hx; subst x.
  cbn [Nat.add] in Hf. unfold body in Hf.
  unfold py_index in Hf.
  destruct (nth_error mic_gains k) as [gain | ] eqn:Egain; cbn [bind] in Hf;
    [ | discriminate ].
  inversion Hf; subst ch. clear Hf.
  apply nth_error_In in Egain. rewrite Forall_forall in Hgains.
  specialize (Hgains gain Egain).
  apply Forall_forall. intros y Hy.
  apply in_map_iff in Hy as (s & <- & Hs).
  unfold column in Hs. apply in_map_iff in Hs as (row & <- & _).
  rewrite Rabs_mult.
  apply Rmult_le_compat; [ apply Rabs_pos | apply Rabs_pos | | exact Hgains ].
  rewrite slice_0.
  match goal with
  | |- Rabs (IZR (nth ?i ?samples 0%Z)) <= c =>
      destruct (nth_in_or_default i samples 0%Z) as [Hin | ->]
  end.
  - pose proof (Forall_firstn_keep _ _
                  (length (int16_samples raw_data) / CHANNELS * CHANNELS)
                  _ Hsamples) as Hf.
    rewrite Forall_forall in Hf. now apply Hf.
  - rewrite Rabs_R0. exact Hc.
Qed.

(** X10.  A frame in which no sample exceeds the energy threshold in
    magnitude, under gains of magnitude at most 1, never reaches the
    filter, the delay estimator or the fuser: the processor takes the
    inactive path, whatever the filter designer would do, and the
    smoothing window is left as it was. *)
Theorem quiet_frame_is_gated
    (butter : nat -> R -> R -> result (list R * list R))
    (mic_gains : list R) (st : Processor) (raw_data : list byte) :
  Forall (fun gain => Rabs gain <= 1) mic_gains ->
  Forall (fun s => (Z.abs s <= 35)%Z) (int16_samples raw_data) ->
  process_frame butter mic_gains st raw_data = process_estimate st false vzero /\
  directions_buffer (process_frame butter mic_gains st raw_data)
  = directions_buffer st.
Proof.
  intros Hgains Hsamples.
  assert (Hq : is_sound_active (parse_audio_data mic_gains raw_data)
                 energy_threshold = false).
  { apply quiet_channels_inactive; [ unfold energy_threshold; lra | ].
    assert (Hs : Forall (fun s => Rabs (IZR s) <= 35) (int16_samples raw_data)).
    { apply Forall_forall. intros s Hs. rewrite Forall_forall in Hsamples.
      specialize (Hsamples s Hs). apply Rabs_le.
      split; [ rewrite <- opp_IZR | ]; apply IZR_le; lia. }
    assert (H1 : 0 <= 1) by lra. assert (H35 : 0 <= 35) by lra.
    pose proof (parse_audio_data_bounded mic_gains raw_data 1 35
                  H1 H35 Hgains Hs) as Hb.
    unfold energy_threshold.
    eapply Forall_impl; [ | exact Hb ]. intros ch Hch.
    eapply Forall_impl; [ | exact Hch ]. intros x Hx. cbv beta in Hx. lra. }
  assert (E : process_frame butter mic_gains st raw_data
              = process_estimate st false vzero).
  { unfold process_frame. cbv zeta. rewrite Hq. reflexivity. }
  split; [ exact E | ]. rewrite E. apply inactive_frame_keeps_window.
Qed.

Lemma quiet_frame_is_gated_witness :
  let raw_data := [x03; x00; xf9; xff; x14; x00; x00; x00;
                   x23; x00; xdd; xff; x01; x00; x02; x00] in
  let butter := fun (_ : nat) (_ _ : R) => Raise ValueError in
  Forall (fun gain => Rabs gain <= 1) DEFAULT_MIC_GAINS /\
  Forall (fun s => (Z.abs s <= 35)%Z) (int16_samples raw_data) /\
  process_frame butter DEFAULT_MIC_GAINS processor_init raw_data
  = process_estimate processor_init false vzero.
Proof.
  cbv zeta.
  assert (Hg : Forall (fun gain => Rabs gain <= 1) DEFAULT_MIC_GAINS).
  { unfold DEFAULT_MIC_GAINS.
    repeat (apply Forall_cons; [ rewrite Rabs_R1; lra | ]). apply Forall_nil. }
  assert (Hs : Forall (fun s => (Z.abs s <= 35)%Z)
                 (int16_samples [x03; x00; xf9; xff; x14; x00; x00; x00;
                                 x23; x00; xdd; xff; x01; x00; x02; x00])).
  { change (int16_samples [x03; x00; xf9; xff; x14; x00; x00; x00;
                           x23; x00; xdd; xff; x01; x00; x02; x00])
      with [3; -7; 20; 0; 35; -35; 1; 2]%Z.
    repeat (apply Forall_cons; [ lia | ]). apply Forall_nil. }
  split; [ exact Hg | split; [ exact Hs | ] ].
  exact (proj1 (quiet_frame_is_gated (fun _ _ _ => Raise ValueError)
                  DEFAULT_MIC_GAINS processor_init _ Hg Hs)).
Defined.

End QuietFrames.

(** ** TDOAEstimator: range of the delays, gain invariance *)

Section DelayRange.
Local Open Scope R_scope.
Unset Implicit Arguments.

Lemma lag_of_peak_bound (max_index len : nat) :
  (max_index < len)%nat ->
  (Z.abs (lag_of_peak max_index len) <= Z.of_nat (len / 2) + Z.of_nat (len mod 2))%Z.
Proof.
  intros Hlt. unfold lag_of_peak.
  pose proof (Nat.div_mod_eq len 2) as Hd.
  pose proof (Nat.mod_upper_bound len 2 ltac:(lia)) as Hm.
  destruct (Nat.ltb_spec (len / 2) max_index); lia.
Qed.

Lemma compute_cross_correlation_cases (signal1 signal2 : list R) :
  compute_cross_correlation signal1 signal2 = 0%Z \/
  exists (correlation : list R) (peak : nat),
    length correlation = (2 * (length signal1 / 2))%nat /\
    (peak < length correlation)%nat /\
    compute_cross_correlation signal1 signal2
    = lag_of_peak peak (length correlation).
Proof.
  unfold compute_cross_correlation, compute_cross_correlation_with.
  destruct ((length signal1 <? 10)%nat || (length signal2 <? 10)%nat);
    [ now left | ].
  destruct (Nat.le_gt_cases (length signal1) (length signal2)) as [Hle | Hgt].
  - destruct (gcc_phat_correlation_ok signal1 signal2 Hle) as [Hok HL].
    cbv zeta in Hok, HL. rewrite Hok. cbn [bind].
    match type of Hok with _ = Ok ?c => set (correlation := c) in * end.
    destruct correlation as [ | c0 rest] eqn:Ec.
    + now left.
    + destruct (np_argmax_spec (c0 :: rest)) as (peak & Harg & Hlt & _);
        [ discriminate | ].
      rewrite Harg. cbn [bind try_except]. right.
      exists (c0 :: rest), peak. repeat split; assumption.
  - left. unfold gcc_phat_correlation, np_mul.
    rewrite !hann_length, Nat.eqb_refl. cbn [bind].
    rewrite slice_0, length_firstn.
    replace (Nat.min (length signal1) (length signal2) =? length signal1)%nat
      with false by (symmetry; apply Nat.eqb_neq; lia).
    reflexivity.
Qed.

Lemma compute_cross_correlation_abs_le (signal1 signal2 : list R) :
  (Z.abs (compute_cross_correlation signal1 signal2)
   <= Z.of_nat (length signal1 / 2))%Z.
Proof.
  destruct (compute_cross_correlation_cases signal1 signal2)
    as [-> | (correlation & peak & HL & Hlt & ->)].
  - simpl. lia.
  - pose proof (lag_of_peak_bound peak (length correlation) Hlt) as Hb.
    rewrite HL in Hb at 2 3.
    replace (2 * (length signal1 / 2) / 2)%nat with (length signal1 / 2)%nat in Hb
      by (symmetry; rewrite Nat.mul_comm; apply Nat.div_mul; lia).
    replace (2 * (length signal1 / 2) mod 2)%nat with 0%nat in Hb
      by (symmetry; rewrite Nat.mul_comm; apply Nat.Div0.mod_mul).
    lia.
Qed.

(** X11.  The delay reported for a pair of signals never exceeds half the
    length of the first signal in magnitude, whatever the signals are; so
    every entry of the delay vector of [estimate_tdoa] is bounded by half
    the length of the reference channel. *)
Theorem tdoa_delays_bounded :
  (forall signal1 signal2 : list R,
      (Z.abs (compute_cross_correlation signal1 signal2)
       <= Z.of_nat (length signal1 / 2))%Z)
  /\
  (forall channels : list (list R),
      Forall (fun d => (Z.abs d <= Z.of_nat (length (nth 0 channels []) / 2))%Z)
             (estimate_tdoa channels)).
Proof.
  split; [ exact compute_cross_correlation_abs_le | ].
  intros channels. unfold estimate_tdoa, estimate_tdoa_with.
  destruct (@estimate_loop_spec gcc_phat_correlation channels
              (seq 1 (length channels - 1))
              (repeat 0%Z (length channels))) as [Hl Hn].
  { apply repeat_length. }
  { apply Forall_forall. intros i Hi. apply in_seq in Hi. lia. }
  apply Forall_forall. intros d Hd.
  apply (In_nth _ _ 0%Z) in Hd as (i & _ & <-). rewrite Hn.
  destruct (in_dec Nat.eq_dec i (seq 1 (length channels - 1))).
  - apply compute_cross_correlation_abs_le.
  - rewrite nth_repeat. simpl. lia.
Qed.

End DelayRange.

Section ZeroDelay.
Local Open Scope R_scope.
Unset Implicit Arguments.

Lemma Rsum_le_ext (g h : nat -> R) (l : list nat) :
  (forall k, In k l -> g k <= h k) -> Rsum (map g l) <= Rsum (map h l).
Proof.
  induction l as [ | x l IH]; intros H; simpl; [ lra | ].
  assert (g x <= h x) by (apply H; now left).
  assert (Rsum (map g l) <= Rsum (map h l)) by (apply IH; intros; apply H; now right).
  lra.
Qed.

Lemma Rsum_scale (k : R) (g : nat -> R) (l : list nat) :
  Rsum (map (fun j => k * g j) l) = k * Rsum (map g l).
Proof.
  induction l as [ | x l IH]; simpl; [ ring | ]. rewrite IH. ring.
Qed.

Lemma nth_real_nonneg (X : list complex) (k : nat) :
  Forall real_nonneg X -> real_nonneg (nth k X (0, 0)).
Proof.
  intros H. destruct (nth_in_or_default k X (0, 0)) as [Hin | ->].
  - rewrite Forall_forall in H. now apply H.
  - split; simpl; lra.
Qed.

Lemma irfft_peak_at_0 (X : list complex) (t : nat) :
  Forall real_nonneg X ->
  (t < length (irfft X))%nat ->
  nth t (irfft X) 0 <= nth 0 (irfft X) 0.
Proof.
  intros HX Ht. rewrite irfft_length in Ht. unfold irfft.
  set (L := (2 * (length X - 1))%nat) in *.
  set (m := length X).
  rewrite (nth_map_lt _ (seq 0 L) 0 0%nat) by (rewrite length_seq; exact Ht).
  rewrite (nth_map_lt _ (seq 0 L) 0 0%nat) by (rewrite length_seq; lia).
  rewrite !seq_nth by lia. cbn [Nat.add].
  assert (HL : 0 < INR L) by (apply lt_0_INR; lia).
  assert (Hz : forall k : nat, 2 * PI * INR k * INR 0 / INR L = 0).
  { intros k. change (INR 0) with 0. unfold Rdiv. ring. }
  apply Rmult_le_compat_r; [ left; now apply Rinv_0_lt_compat | ].
  rewrite !Hz, cos_0.
  apply Rplus_le_compat; [ apply Rplus_le_compat; [ lra | ] | ].
  - apply Rsum_le_ext. intros k _. rewrite Hz, cos_0, sin_0.
    destruct (nth_real_nonneg X k HX) as [Hf Hs]. rewrite Hs.
    pose proof (COS_bound (2 * PI * INR k * INR t / INR L)) as [_ Hc]. nra.
  - destruct (nth_real_nonneg X (m - 1) HX) as [Hf _].
    pose proof (COS_bound (2 * PI * INR (m - 1) * INR t / INR L)) as [_ Hc]. nra.
Qed.

Lemma map2_scale_l (k : R) (x w : list R) :
  map2 Rmult (map (Rmult k) x) w = map (Rmult k) (map2 Rmult x w).
Proof.
  revert w. induction x as [ | a x IH]; intros [ | b w]; simpl; try reflexivity.
  rewrite IH. f_equal. ring.
Qed.

Lemma nth_map_scale (k : R) (x : list R) (j : nat) :
  nth j (map (Rmult k) x) 0 = k * nth j x 0.
Proof.
  revert j. induction x as [ | a x IH]; intros [ | j]; simpl; try ring.
  apply IH.
Qed.

Lemma rfft_scale (k : R) (x : list R) :
  rfft (map (Rmult k) x) = map (Cscale k) (rfft x).
Proof.
  unfold rfft. rewrite length_map, map_map. apply map_ext. intros b.
  unfold Cscale. cbn [fst snd]. f_equal.
  - rewrite <- Rsum_scale. f_equal. apply map_ext. intros j.
    rewrite nth_map_scale. ring.
  - rewrite <- Ropp_mult_distr_r, <- Rsum_scale. f_equal. f_equal.
    apply map_ext. intros j. rewrite nth_map_scale. ring.
Qed.

Lemma Forall_map2_self (A B C : Type) (f : A -> B -> C) (h : A -> B)
    (Q : C -> Prop) (l : list A) :
  (forall z, Q (f z (h z))) -> Forall Q (map2 f l (map h l)).
Proof.
  intros H. induction l as [ | z l IH]; simpl; constructor; auto.
Qed.

Lemma Forall_map2_self_in (A B C : Type) (f : A -> B -> C) (h : A -> B)
    (P : A -> Prop) (Q : C -> Prop) (l : list A) :
  (forall z, P z -> Q (f z (h z))) -> Forall P l -> Forall Q (map2 f l (map h l)).
Proof.
  intros H HP. induction HP as [ | z l Hz _ IH]; simpl; constructor; auto.
Qed.

Lemma scaled_copy_has_zero_delay (k : R) (signal : list R) :
  0 <= k ->
  compute_cross_correlation signal (map (Rmult k) signal) = 0%Z.
Proof.
  intros Hk. unfold compute_cross_correlation, compute_cross_correlation_with.
  destruct ((length signal <? 10)%nat || (length (map (Rmult k) signal) <? 10)%nat);
    [ reflexivity | ].
  assert (Hle : (length signal <= length (map (Rmult k) signal))%nat)
    by (rewrite length_map; lia).
  destruct (gcc_phat_correlation_ok signal (map (Rmult k) signal) Hle) as [Hok _].
  cbv zeta in Hok. rewrite Hok. cbn [bind]. clear Hok.
  rewrite firstn_all2 by (rewrite length_map; lia).
  rewrite map2_scale_l, rfft_scale, map_map.
  set (X0 := rfft (map2 Rmult signal (hann (length signal)))).
  match goal with
  | |- context [irfft ?S] => assert (HX : Forall real_nonneg S)
  end.
  { apply Forall_map2_self_in with (P := real_nonneg).
    - intros [a b] [Ha Hb]. cbn [fst snd] in *. unfold Cdiv_real, real_nonneg.
      cbn [fst snd]. subst b.
      assert (Hr : 0 < Cabs (a, 0) + 1e-10).
      { unfold Cabs. pose proof (sqrt_pos (fst (a, 0) * fst (a, 0)
                                           + snd (a, 0) * snd (a, 0))). lra. }
      split.
      + apply Rmult_le_pos; [ exact Ha | left; now apply Rinv_0_lt_compat ].
      + unfold Rdiv. ring.
    - apply Forall_map2_self. intros [a b]. unfold real_nonneg, Cmul, Cconj, Cscale.
      cbn [fst snd]. split; [ nra | ring ]. }
  match goal with
  | |- context [irfft ?S] => set (correlation := irfft S) in *
  end.
  destruct correlation as [ | c0 rest] eqn:Ec; [ reflexivity | ].
  destruct (np_argmax_spec (c0 :: rest)) as (peak & Harg & Hlt & _ & Hfirst);
    [ discriminate | ].
  rewrite Harg. cbn [bind try_except].
  assert (Hp : peak = 0%nat).
  { destruct peak as [ | p]; [ reflexivity | exfalso ].
    specialize (Hfirst 0%nat (Nat.lt_0_succ p)).
    match type of HX with Forall _ ?S =>
      pose proof (irfft_peak_at_0 S (Datatypes.S p) HX) as Hle0 end.
    fold correlation in Hle0. rewrite Ec in Hle0. specialize (Hle0 Hlt). lra. }
  rewrite Hp. unfold lag_of_peak.
  destruct (Nat.ltb_spec (length (c0 :: rest) / 2) 0); [ lia | reflexivity ].
Qed.

(** X12.  A signal compared with itself, or with a copy of itself scaled by a
    gain that is not negative, has delay 0: the cross-power spectrum is real
    and not negative, so the correlation is largest at lag 0. *)
Theorem gain_does_not_shift_the_delay :
  (forall signal : list R, compute_cross_correlation signal signal = 0%Z)
  /\
  (forall (k : R) (signal : list R),
      0 <= k ->
      compute_cross_correlation signal (map (Rmult k) signal) = 0%Z).
Proof.
  split; [ | exact scaled_copy_has_zero_delay ].
  intros signal.
  replace signal with (map (Rmult 1) signal) at 2.
  - apply scaled_copy_has_zero_delay. lra.
  - rewrite <- (map_id signal) at 2. apply map_ext. intros x. ring.
Qed.

End ZeroDelay.

(** ** DirectionFuser: symmetry and the one-sample threshold *)

Section FuserSymmetry.
Local Open Scope R_scope.
Unset Implicit Arguments.

Lemma nth_map_opp (delay : list R) (i : nat) :
  nth i (map Ropp delay) 0 = - nth i delay 0.
Proof.
  revert i. induction delay as [ | d delay IH]; intros [ | i]; simpl; try ring.
  apply IH.
Qed.

Lemma contributes_opp (delay : list R) (i : nat) :
  contributes (map Ropp delay) i = contributes delay i.
Proof. unfold contributes. now rewrite nth_map_opp, Rabs_Ropp. Qed.

Lemma max_abs_opp (delay : list R) : max_abs (map Ropp delay) = max_abs delay.
Proof.
  unfold max_abs. rewrite map_map. f_equal. apply map_ext. intros d.
  apply Rabs_Ropp.
Qed.

Lemma spec_weight_opp (delay : list R) (i : nat) :
  spec_weight (map Ropp delay) i = spec_weight delay i.
Proof. unfold spec_weight. now rewrite nth_map_opp, Rabs_Ropp, max_abs_opp. Qed.

Lemma spec_sign_opp (delay : list R) (i : nat) :
  contributes delay i = true ->
  spec_sign (map Ropp delay) i = - spec_sign delay i.
Proof.
  unfold contributes, spec_sign. rewrite nth_map_opp. intros H.
  apply Rgtb_true in H.
  assert (Hx : nth i delay 0 <> 0).
  { intros E. rewrite E, Rabs_R0 in H. lra. }
  destruct (Rgtb (- nth i delay 0) 0) eqn:E1;
    destruct (Rgtb (nth i delay 0) 0) eqn:E2;
    try apply Rgtb_true in E1; try apply Rgtb_false in E1;
    try apply Rgtb_true in E2; try apply Rgtb_false in E2; lra.
Qed.

Lemma vsum_vscale (c : R) (f : nat -> vec2) (l : list nat) :
  vsum (map (fun i => vscale c (f i)) l) = vscale c (vsum (map f l)).
Proof.
  induction l as [ | x l IH]; simpl.
  - unfold vscale, vzero. simpl. f_equal; ring.
  - rewrite IH. unfold vadd, vscale. simpl. f_equal; ring.
Qed.

Lemma norm_vopp (v : vec2) : norm (vscale (-1) v) = norm v.
Proof. unfold norm, vscale. simpl. f_equal. ring. Qed.

Lemma fuser_spec_opp (position : list (R * R * R)) (delay : list R)
    (active : bool) :
  fuser_spec position (map Ropp delay) active
  = vscale (-1) (fuser_spec position delay active).
Proof.
  assert (Hz : vzero = vscale (-1) vzero).
  { unfold vscale, vzero. simpl. f_equal; ring. }
  unfold fuser_spec. destruct active; cbn [negb]; [ | exact Hz ].
  rewrite length_map.
  rewrite (filter_ext _ _ (contributes_opp delay)).
  set (mics := filter (contributes delay) (seq 1 (length delay - 1))).
  rewrite (map_ext _ _ (spec_weight_opp delay)).
  assert (Hc : map (spec_contribution position (map Ropp delay)) mics
               = map (fun i => vscale (-1) (spec_contribution position delay i)) mics).
  { apply map_ext_in. intros i Hi. apply filter_In in Hi as [_ Hi].
    unfold spec_contribution. rewrite spec_sign_opp, spec_weight_opp by exact Hi.
    unfold vscale. simpl. f_equal; ring. }
  rewrite Hc, vsum_vscale, norm_vopp.
  destruct (Rgtb _ 0 && negb (Reqb _ 0)); [ | exact Hz ].
  unfold vdiv, vscale. simpl. f_equal; unfold Rdiv; ring.
Qed.

(** X13.  Negating every delay turns the estimated direction around: the
    fuser is odd in the delay vector. *)
Theorem tdoa_to_direction_antisymmetric (position : list (R * R * R))
    (delay : list R) (active : bool) :
  (length delay <= length position)%nat ->
  tdoa_to_direction position (map Ropp delay) active
  = vscale (-1) (tdoa_to_direction position delay active).
Proof.
  intros Hlen.
  rewrite !tdoa_to_direction_refines by (rewrite ?length_map; exact Hlen).
  apply fuser_spec_opp.
Qed.

Lemma tdoa_to_direction_antisymmetric_witness :
  (length [0; 5; -3; 0]%R <= length MIC_POSITIONS)%nat /\
  tdoa_to_direction MIC_POSITIONS (map Ropp [0; 5; -3; 0]) true
  = vscale (-1) (tdoa_to_direction MIC_POSITIONS [0; 5; -3; 0] true).
Proof.
  assert (H : (length [0; 5; -3; 0]%R <= length MIC_POSITIONS)%nat) by (simpl; lia).
  split; [ exact H | ].
  exact (tdoa_to_direction_antisymmetric MIC_POSITIONS [0; 5; -3; 0] true H).
Defined.

Lemma fuse_fold_small (position : list (R * R * R)) (delay conf : list R) :
  Forall (fun d => Rabs d <= 1) delay ->
  forall (idx : list nat) (acc : result (vec2 * R)),
    fold_left (fuse_step position delay conf) idx acc = acc \/
    exists e, fold_left (fuse_step position delay conf) idx acc = Raise e.
Proof.
  intros Hs idx. induction idx as [ | i idx IH]; intros acc; simpl; [ now left | ].
  assert (Hstep : fuse_step position delay conf acc i = acc \/
                  exists e, fuse_step position delay conf acc i = Raise e).
  { unfold fuse_step. destruct acc as [[D W] | e]; cbn [bind]; [ | right; eauto ].
    destruct (py_index delay i) as [d | e] eqn:E; cbn [bind]; [ | right; eauto ].
    unfold py_index in E. destruct (nth_error delay i) as [d' | ] eqn:E';
      inversion E; subst d'.
    apply nth_error_In in E'. rewrite Forall_forall in Hs.
    replace (Rgtb (Rabs d) 1) with false
      by (symmetry; apply Rgtb_false; now apply Hs).
    now left. }
  destruct Hstep as [-> | (e & ->)]; [ apply IH | ].
  right. exists e. clear. induction idx as [ | j idx IH]; simpl; auto.
Qed.

(** X14.  Delays of at most one sample in magnitude carry no direction: when
    no delay exceeds 1 in magnitude the fuser returns the zero vector,
    whatever the geometry. *)
Theorem tdoa_to_direction_ignores_small_delays (position : list (R * R * R))
    (delay : list R) (active : bool) :
  Forall (fun d => Rabs d <= 1) delay ->
  tdoa_to_direction position delay active = vzero.
Proof.
  intros Hs. unfold tdoa_to_direction, tdoa_to_direction_body.
  destruct active; cbn [negb]; [ | reflexivity ].
  destruct (np_max (map Rabs delay)) as [m | e]; cbn [bind try_except];
    [ | reflexivity ].
  destruct (fuse_fold_small position delay
              (map (fun c => c / (m + 1e-10)) (map Rabs delay)) Hs
              (seq 1 (length delay - 1)) (Ok (vzero, 0))) as [-> | (e & ->)];
    cbn [bind try_except]; [ | reflexivity ].
  replace (Rgtb 0 0) with false by (symmetry; apply Rgtb_false; lra).
  reflexivity.
Qed.

Lemma tdoa_to_direction_ignores_small_delays_witness :
  Forall (fun d => Rabs d <= 1) [0; 1; -1; 0.5] /\
  tdoa_to_direction MIC_POSITIONS [0; 1; -1; 0.5] true = vzero.
Proof.
  assert (H : Forall (fun d => Rabs d <= 1) [0; 1; -1; 0.5]).
  { repeat (apply Forall_cons;
            [ unfold Rabs; match goal with |- context [Rcase_abs ?x] =>
                destruct (Rcase_abs x) end; lra | ]).
    apply Forall_nil. }
  split; [ exact H | ].
  exact (tdoa_to_direction_ignores_small_delays MIC_POSITIONS [0; 1; -1; 0.5] true H).
Defined.

End FuserSymmetry.

(** ** The plotted angle *)

Section Angle.
Local Open Scope R_scope.
Unset Implicit Arguments.











End Angle.

(** ** The processing loop and the plot *)

Section ProcessorRun.
Local Open Scope R_scope.
Unset Implicit Arguments.

Lemma tdoa_to_direction_unit_or_zero (position : list (R * R * R))
    (delay : list R) (active : bool) :
  unit_or_zero (tdoa_to_direction position delay active).
Proof.
  unfold unit_or_zero, tdoa_to_direction, tdoa_to_direction_body.
  destruct active; cbn [negb]; [ | now right ].
  destruct (np_max (map Rabs delay)) as [m | e]; cbn [bind try_except];
    [ | now right ].
  destruct (fold_left _ _ _) as [[D W] | e]; cbn [bind try_except];
    [ | now right ].
  destruct (Rgtb W 0); cbn [andb try_except]; [ | now right ].
  destruct (Rgtb (norm D) 0) eqn:Hn; cbn [try_except]; [ | now right ].
  left. apply norm_vdiv_unit. now apply Rgtb_true.
Qed.

(** The loop invariant of [audio_processor_thread]. *)
Record processor_inv (st : Processor) : Prop := {
  inv_window_length : (length (directions_buffer st) <= buffer_size)%nat;
  inv_window_unit : Forall (fun v => norm v = 1) (directions_buffer st);
  inv_queue_maxsize : maxsize (direction_queue st) = 5%nat;
  inv_queue_length : (length (items (direction_queue st)) <= 5)%nat;
  inv_queue_items : Forall unit_or_zero (items (direction_queue st))
}.

Lemma Forall_tl (A : Type) (P : A -> Prop) (l : list A) :
  Forall P l -> Forall P (tl l).
Proof. intros H. destruct H; simpl; [ constructor | assumption ]. Qed.

Lemma publish_direction_inv (q : Queue vec2) (v : vec2) :
  maxsize q = 5%nat -> (length (items q) <= 5)%nat ->
  Forall unit_or_zero (items q) -> unit_or_zero v ->
  maxsize (publish_direction q v) = 5%nat /\
  (length (items (publish_direction q v)) <= 5)%nat /\
  Forall unit_or_zero (items (publish_direction q v)).
Proof.
  destruct q as [its m]. cbn [items maxsize]. intros -> Hl Hall Hv.
  unfold publish_direction.
  destruct (Nat.leb_spec 5 (length its)) as [Hfull | Hroom].
  - rewrite put_nowait_full by (simpl; lia).
    destruct its as [ | x rest]; [ simpl in Hfull; lia | ].
    cbn [get_nowait items maxsize].
    rewrite put_nowait_room by (simpl in *; lia).
    cbn [items maxsize]. split; [ reflexivity | ].
    split; [ rewrite length_app; simpl in *; lia | ].
    apply Forall_app. split; [ now inversion Hall | now constructor ].
  - rewrite put_nowait_room by (simpl; lia).
    cbn [items maxsize]. split; [ reflexivity | ].
    split; [ rewrite length_app; simpl; lia | ].
    apply Forall_app. split; [ exact Hall | now constructor ].
Qed.

Lemma smooth_inv (window : list vec2) (direction : vec2) :
  (length window <= buffer_size)%nat ->
  Forall (fun v => norm v = 1) window ->
  unit_or_zero direction ->
  (length (fst (smooth window direction)) <= buffer_size)%nat /\
  Forall (fun v => norm v = 1) (fst (smooth window direction)) /\
  unit_or_zero (snd (smooth window direction)).
Proof.
  intros Hl Hw Hd. unfold smooth.
  destruct (Rgtb (norm direction) 0) eqn:En.
  - apply Rgtb_true in En.
    assert (Hu : norm direction = 1).
    { destruct Hd as [Hd | ->]; [ exact Hd | rewrite norm_zero in En; lra ]. }
    assert (Hall : Forall (fun v => norm v = 1) (window ++ [direction])).
    { apply Forall_app. split; [ exact Hw | now constructor ]. }
    set (buf := if (buffer_size <? length (window ++ [direction]))%nat
                then tl (window ++ [direction]) else window ++ [direction]).
    assert (Hbl : (length buf <= buffer_size)%nat).
    { unfold buf. destruct (Nat.ltb_spec buffer_size (length (window ++ [direction])))
        as [Hgt | Hle]; [ | exact Hle ].
      rewrite length_app in Hgt. simpl in Hgt.
      destruct window; simpl in *; [ lia | ]. rewrite length_app. simpl. lia. }
    assert (Hbu : Forall (fun v => norm v = 1) buf).
    { unfold buf. destruct (buffer_size <? _)%nat; [ now apply Forall_tl | exact Hall ]. }
    cbn [fst snd]. split; [ exact Hbl | ]. split; [ exact Hbu | ].
    destruct (0 <? length buf)%nat; [ | now right ].
    destruct (Rgtb (norm (np_mean buf)) 0) eqn:Em.
    + left. apply norm_vdiv_unit. now apply Rgtb_true.
    + right. apply norm_eq_0. apply Rgtb_false in Em.
      pose proof (norm_nonneg (np_mean buf)). lra.
  - cbn [fst snd]. split; [ simpl; lia | ]. split; [ constructor | now right ].
Qed.

Lemma process_estimate_inv (st : Processor) (sound_active : bool)
    (direction : vec2) :
  unit_or_zero direction -> processor_inv st ->
  processor_inv (process_estimate st sound_active direction).
Proof.
  intros Hd [Hwl Hwu Hqm Hql Hqi]. unfold process_estimate.
  destruct sound_active; cbn [negb].
  - destruct (smooth_inv (directions_buffer st) direction Hwl Hwu Hd)
      as (Hl & Hu & Ha).
    destruct (smooth (directions_buffer st) direction) as [buf avg].
    cbn [fst snd] in *.
    destruct (publish_direction_inv (direction_queue st) avg Hqm Hql Hqi Ha)
      as (Hm' & Hl' & Hi').
    constructor; assumption.
  - destruct (put_nowait (direction_queue st) vzero) as [q | e] eqn:E.
    + destruct (@put_nowait_bounded _ (direction_queue st) q vzero) as [Hm' Hl'];
        [ lia | lia | exact E | ].
      constructor; cbn [directions_buffer direction_queue]; try assumption;
        try lia.
      unfold put_nowait in E.
      destruct ((0 <? maxsize (direction_queue st))%nat &&
                (maxsize (direction_queue st) <=? length (items (direction_queue st)))%nat);
        [ discriminate | ].
      inversion E; subst q. cbn [items].
      apply Forall_app. split; [ exact Hqi | constructor; [ now right | constructor ] ].
    + constructor; assumption.
Qed.

Lemma process_frame_inv (butter : nat -> R -> R -> result (list R * list R))
    (mic_gains : list R) (st : Processor) (raw_data : list byte) :
  processor_inv st -> processor_inv (process_frame butter mic_gains st raw_data).
Proof.
  intros Hinv. unfold process_frame. cbv zeta.
  destruct (negb (is_sound_active _ _)).
  - apply process_estimate_inv; [ now right | exact Hinv ].
  - apply process_estimate_inv; [ | exact Hinv ].
    apply tdoa_to_direction_unit_or_zero.
Qed.

Lemma processor_inv_run (butter : nat -> R -> R -> result (list R * list R))
    (mic_gains : list R) (frames : list (list byte)) :
  forall st : Processor,
    processor_inv st ->
    processor_inv (fold_left (process_frame butter mic_gains) frames st).
Proof.
  induction frames as [ | frame frames IH]; intros st Hinv; simpl;
    [ exact Hinv | ].
  apply IH. now apply process_frame_inv.
Qed.

Lemma processor_inv_init : processor_inv processor_init.
Proof.
  constructor; simpl; try constructor; unfold buffer_size; lia.
Qed.

(** X16.  Whatever frames arrive, whatever the filter designer returns and
    whatever the gains are, the processing loop keeps at most [buffer_size]
    directions in its window, all of them unit vectors, keeps at most 5
    entries on [direction_queue], and every entry it publishes is a unit
    vector or the zero vector. *)
Theorem audio_processor_invariants
    (butter : nat -> R -> R -> result (list R * list R))
    (mic_gains : list R) (frames : list (list byte)) :
  let st := fold_left (process_frame butter mic_gains) frames processor_init in
  (length (directions_buffer st) <= buffer_size)%nat /\
  Forall (fun v => norm v = 1) (directions_buffer st) /\
  (length (items (direction_queue st)) <= 5)%nat /\
  Forall (fun v => norm v = 1 \/ v = vzero) (items (direction_queue st)).
Proof.
  cbv zeta.
  destruct (processor_inv_run butter mic_gains frames processor_init
              processor_inv_init) as [Hwl Hwu _ Hql Hqi].
  repeat split; assumption.
Qed.

(** X17.  A full [direction_queue] treats the two paths differently: the
    zero vector reported for an inactive frame is dropped and the state is
    left untouched, while the estimate of an active frame evicts the oldest
    entry and is appended. *)
Theorem full_queue_drops_silence_not_estimates (st : Processor)
    (direction : vec2) :
  maxsize (direction_queue st) = 5%nat ->
  length (items (direction_queue st)) = 5%nat ->
  process_estimate st false direction = st /\
  items (direction_queue (process_estimate st true direction))
  = tl (items (direction_queue st)) ++ [snd (smooth (directions_buffer st) direction)].
Proof.
  destruct st as [window [its m]]. cbn [direction_queue items maxsize].
  intros -> Hl. unfold process_estimate. cbn [negb direction_queue directions_buffer].
  split.
  - rewrite put_nowait_full; [ reflexivity | simpl; lia | simpl; lia ].
  - destruct (smooth window direction) as [buf avg]. cbn [snd direction_queue].
    unfold publish_direction.
    rewrite put_nowait_full by (simpl; lia).
    destruct its as [ | x rest]; [ discriminate | ].
    cbn [get_nowait items maxsize tl].
    rewrite put_nowait_room by (simpl in *; lia). reflexivity.
Qed.

Lemma full_queue_drops_silence_not_estimates_witness :
  let st := mkProcessor [] (mkQueue (repeat (1, 0) 5) 5) in
  maxsize (direction_queue st) = 5%nat /\
  length (items (direction_queue st)) = 5%nat /\
  process_estimate st false vzero = st /\
  items (direction_queue (process_estimate st true vzero))
  = repeat (1, 0) 4 ++ [snd (smooth [] vzero)].
Proof.
  cbv zeta. split; [ reflexivity | split; [ reflexivity | ] ].
  exact (full_queue_drops_silence_not_estimates
           (mkProcessor [] (mkQueue (repeat (1, 0) 5) 5)) vzero eq_refl eq_refl).
Defined.



End ProcessorRun.
